(** * libblockdev: the LVM and Btrfs plugins and the initialisation protocol

    A shallow embedding of [src/plugins/lvm.c], [src/plugins/btrfs.c] and of
    the interface declared in [src/lib/blockdev.h], with the properties the
    design document states about them.

    Conventions of the embedding:
    - a C string ([gchar *]) that may be [NULL] is an [option string];
    - an array of strings written by the caller ([gchar *args[N]]) is a
      [list (option string)], one entry per slot; the [NULL]-terminated vector
      it denotes is the run of entries before the first [NULL];
    - a [GHashTable] from strings to strings is a [gmap string string];
    - a [GError **] out-parameter that a function only hands on to
      [g_set_error] and to its callees is the content of the caller's
      location, an [option GError], passed in and returned; GLib asks that
      the location be empty on entry, and with [NULL] for the location
      these functions do the same and store nothing;
    - where a function dereferences the pointer itself (the three list-all
      queries of the LVM plugin), the argument is an
      [option (option GError)] whose [None] is the [NULL] pointer;
    - [guint64] and [guint8] are [Z] with the wrap-around written out;
    - the process-wide state of the LVM plugin and the sequence of lock,
      read and process events are threaded through a small state monad. *)

From Stdlib Require Import ZArith Ascii String List Bool Lia.
From stdpp Require Import base option list gmap strings fin_maps pretty.

Local Open Scope Z_scope.

(** ** GLib primitives used by the plugins *)

(** [GError]: an error domain (a quark), a code inside the domain and a
    message.  The domains and codes are the ones the sources name. *)
Inductive GQuark : Type :=
  | BD_UTILS_EXEC_ERROR
  | BD_LVM_ERROR
  | BD_BTRFS_ERROR
  | BD_INIT_ERROR
  | G_SPAWN_ERROR.

Inductive ErrorCode : Type :=
  | BD_UTILS_EXEC_ERROR_FAILED
  | BD_UTILS_EXEC_ERROR_NOOUT
  | BD_LVM_ERROR_PARSE
  | BD_BTRFS_ERROR_DEVICE
  | BD_BTRFS_ERROR_PARSE
  | BD_INIT_ERROR_PLUGINS_FAILED
  | BD_INIT_ERROR_NOT_IMPLEMENTED
  | G_SPAWN_ERROR_FAILED.

Record GError : Type := mkGError {
  domain : GQuark;
  code : ErrorCode;
  message : string
}.

#[global] Instance GQuark_eq_dec : EqDecision GQuark.
Proof. solve_decision. Defined.

#[global] Instance ErrorCode_eq_dec : EqDecision ErrorCode.
Proof. solve_decision. Defined.

#[global] Instance GError_eq_dec : EqDecision GError.
Proof. solve_decision. Defined.

(** [g_set_error (error, domain, code, message)]: stores a new error when the
    location is empty; an occupied location is left as it is (GLib only
    warns). *)
Definition g_set_error (error : option GError) (d : GQuark) (c : ErrorCode)
    (msg : string) : option GError :=
  match error with
  | None => Some (mkGError d c msg)
  | Some e => Some e
  end.

(** [g_clear_error (error)]: frees the error and resets the location. *)
Definition g_clear_error (error : option GError) : option GError := None.

(** [g_error_matches (error, domain, code)]; [FALSE] on a [NULL] error. *)
Definition g_error_matches (error : option GError) (d : GQuark)
    (c : ErrorCode) : bool :=
  match error with
  | None => false
  | Some e => bool_decide (domain e = d) && bool_decide (code e = c)
  end.

(** [g_strdup]: a copy of the string, [NULL] for [NULL]. *)
Definition g_strdup (s : option string) : option string := s.

(** The [NULL]-terminated vector an array of slots denotes; the end of the
    listed slots stands for a terminator as well. *)
Fixpoint strv_of_array (a : list (option string)) : list string :=
  match a with
  | Some s :: a' => s :: strv_of_array a'
  | _ => []
  end.

(** [g_strv_length]: the number of strings before the terminator. *)
Definition g_strv_length (v : list string) : Z := Z.of_nat (length v).

Fixpoint char_in (c : ascii) (set : string) : bool :=
  match set with
  | EmptyString => false
  | String d set' => bool_decide (c = d) || char_in c set'
  end.

(** The scan of [g_strsplit_set]: [current] is the token being read,
    [n_tokens] the number of tokens already closed.  A delimiter closes the
    token unless the token limit is reached. *)
Fixpoint g_strsplit_set_scan (delimiters : string) (unlimited : bool)
    (max_tokens n_tokens : Z) (current s : string) : list string :=
  match s with
  | EmptyString => [current]
  | String c s' =>
      if char_in c delimiters && (unlimited || (n_tokens + 1 <? max_tokens))
      then current ::
           g_strsplit_set_scan delimiters unlimited max_tokens (n_tokens + 1)
             EmptyString s'
      else g_strsplit_set_scan delimiters unlimited max_tokens n_tokens
             (current +:+ String c EmptyString) s'
  end.

(** [g_strsplit_set (string, delimiters, max_tokens)]: splits at every
    character of [delimiters]; [max_tokens < 1] splits completely; the empty
    string gives the empty vector. *)
Definition g_strsplit_set (s delimiters : string) (max_tokens : Z)
    : list string :=
  match s with
  | EmptyString => []
  | _ => g_strsplit_set_scan delimiters (max_tokens <? 1) max_tokens 0
           EmptyString s
  end.

Fixpoint string_prefix (p s : string) : bool :=
  match p, s with
  | EmptyString, _ => true
  | String a p', String b s' => bool_decide (a = b) && string_prefix p' s'
  | String _ _, EmptyString => false
  end.

Fixpoint string_drop (n : nat) (s : string) : string :=
  match n, s with
  | O, _ => s
  | S n', String _ s' => string_drop n' s'
  | S _, EmptyString => EmptyString
  end.

(** [strstr (s, delimiter)] as the text before the first occurrence of
    [delimiter] and the text after it; [None] when it does not occur. *)
Fixpoint strstr (s delimiter : string) : option (string * string) :=
  if string_prefix delimiter s
  then Some (EmptyString, string_drop (String.length delimiter) s)
  else match s with
       | EmptyString => None
       | String c s' =>
           match strstr s' delimiter with
           | Some (before, after) => Some (String c before, after)
           | None => None
           end
       end.

(** The loop of [g_strsplit]: [while (--max_tokens && s)].  Every round
    consumes the (non-empty) delimiter, so the length of the string bounds
    the number of rounds. *)
Fixpoint g_strsplit_loop (rounds : nat) (delimiter : string)
    (unlimited : bool) (max_tokens : Z) (remainder : string) : list string :=
  match rounds with
  | O => [remainder]
  | S rounds' =>
      match strstr remainder delimiter with
      | Some (before, after) =>
          if negb unlimited && (max_tokens - 1 =? 0)
          then [remainder]
          else before ::
               g_strsplit_loop rounds' delimiter unlimited (max_tokens - 1)
                 after
      | None => [remainder]
      end
  end.

(** [g_strsplit (string, delimiter, max_tokens)]: splits at the occurrences of
    the string [delimiter] into at most [max_tokens] pieces, the last one
    holding the rest; [max_tokens < 1] splits completely; the empty string
    gives the empty vector. *)
Definition g_strsplit (s delimiter : string) (max_tokens : Z) : list string :=
  match s with
  | EmptyString => []
  | _ => g_strsplit_loop (String.length s) delimiter (max_tokens <? 1)
           max_tokens s
  end.

(** ** The output parser of the LVM plugin *)

(** The three delimiters of [parse_lvm_vars]: space, tab and newline. *)
Definition lvm_delimiters : string :=
  String " " (String "009" (String "010" EmptyString)).

(** [guint] is 32 bits wide; incrementing [num_items] wraps around. *)
Definition guint_wrap (n : Z) : Z := n mod 2 ^ 32.

(** One round of the loop of [parse_lvm_vars] over the state
    (table, num_items). *)
Definition parse_lvm_vars_step (acc : gmap string string * Z) (item : string)
    : gmap string string * Z :=
  let key_val := g_strsplit item "=" 2 in
  if g_strv_length key_val =? 2 then
    match key_val with
    | [k; v] => (<[k := v]> (fst acc), guint_wrap (snd acc + 1))
    | _ => acc
    end
  else acc.

(** [parse_lvm_vars (str, &num_items)]: the table and the number of items. *)
Definition parse_lvm_vars (str : string) : gmap string string * Z :=
  let items := g_strsplit_set str lvm_delimiters 0 in
  fold_left parse_lvm_vars_step items (∅, 0).

(** [g_ascii_strtoull (nptr, NULL, 0)]: leading white space, an optional
    sign, the base taken from the prefix ([0x] sixteen, [0] eight, ten
    otherwise), then the longest run of digits of that base.  No digit gives
    0, a value above [G_MAXUINT64] gives [G_MAXUINT64], and a minus sign
    negates the result modulo 2^64. *)
Definition G_MAXUINT64 : Z := 2 ^ 64 - 1.

Definition ascii_code (c : ascii) : Z := Z.of_N (N_of_ascii c).

Definition ascii_isspace (c : ascii) : bool :=
  let n := ascii_code c in (n =? 32) || ((9 <=? n) && (n <=? 13)).

Definition digit_value (c : ascii) : option Z :=
  let n := ascii_code c in
  if (48 <=? n) && (n <=? 57) then Some (n - 48)
  else if (65 <=? n) && (n <=? 90) then Some (n - 65 + 10)
  else if (97 <=? n) && (n <=? 122) then Some (n - 97 + 10)
  else None.

Fixpoint skip_spaces (s : string) : string :=
  match s with
  | String c s' => if ascii_isspace c then skip_spaces s' else s
  | EmptyString => s
  end.

(** The digit loop: the value so far, the overflow flag and whether any
    digit was read. *)
Fixpoint parse_digits (base ui64 : Z) (overflow any : bool) (s : string)
    : Z * bool * bool :=
  match s with
  | EmptyString => (ui64, overflow, any)
  | String c s' =>
      match digit_value c with
      | Some d =>
          if d >=? base then (ui64, overflow, any)
          else if (ui64 >? G_MAXUINT64 / base)
                  || ((ui64 =? G_MAXUINT64 / base)
                      && (d >? G_MAXUINT64 mod base))
          then parse_digits base ui64 true true s'
          else parse_digits base (ui64 * base + d) overflow true s'
      | None => (ui64, overflow, any)
      end
  end.

Definition g_ascii_strtoull (nptr : string) : Z :=
  let s := skip_spaces nptr in
  let '(negative, s) :=
    match s with
    | String "-" s' => (true, s')
    | String "+" s' => (false, s')
    | _ => (false, s)
    end in
  let '(base, s) :=
    match s with
    | String "0" (String "x" s') => (16, s')
    | String "0" (String "X" s') => (16, s')
    | String "0" _ => (8, s)
    | _ => (10, s)
    end in
  let '(ui64, overflow, any) := parse_digits base 0 false false s in
  let result := if negb any then 0 else if overflow then G_MAXUINT64 else ui64 in
  if negative then (- result) mod 2 ^ 64 else result.

(** ** Records of the LVM plugin *)

Module PVdata.
Record t : Type := mk {
  pv_name : option string;
  pv_uuid : option string;
  pe_start : Z;
  vg_name : option string;
  vg_uuid : option string;
  vg_size : Z;
  vg_free : Z;
  vg_extent_size : Z;
  vg_extent_count : Z;
  vg_free_count : Z;
  vg_pv_count : Z
}.
End PVdata.

Module VGdata.
Record t : Type := mk {
  name : option string;
  uuid : option string;
  size : Z;
  free : Z;
  extent_size : Z;
  extent_count : Z;
  free_count : Z;
  pv_count : Z
}.
End VGdata.

Module LVdata.
Record t : Type := mk {
  lv_name : option string;
  vg_name : option string;
  uuid : option string;
  size : Z;
  attr : option string;
  segtype : option string
}.
End LVdata.

Abbreviation BDLVMPVdata := PVdata.t.
Abbreviation BDLVMVGdata := VGdata.t.
Abbreviation BDLVMLVdata := LVdata.t.

(** [g_hash_table_lookup] followed by the conversion the three builders
    repeat: the number when the key is present, 0 otherwise. *)
Definition lookup_guint64 (table : gmap string string) (key : string) : Z :=
  match table !! key with
  | Some value => g_ascii_strtoull value
  | None => 0
  end.

Definition get_pv_data_from_table (table : gmap string string) : BDLVMPVdata :=
  {| PVdata.pv_name := g_strdup (table !! "LVM2_PV_NAME");
     PVdata.pv_uuid := g_strdup (table !! "LVM2_PV_UUID");
     PVdata.pe_start := lookup_guint64 table "LVM2_PE_START";
     PVdata.vg_name := g_strdup (table !! "LVM2_VG_NAME");
     PVdata.vg_uuid := g_strdup (table !! "LVM2_VG_UUID");
     PVdata.vg_size := lookup_guint64 table "LVM2_VG_SIZE";
     PVdata.vg_free := lookup_guint64 table "LVM2_VG_FREE";
     PVdata.vg_extent_size := lookup_guint64 table "LVM2_VG_EXTENT_SIZE";
     PVdata.vg_extent_count := lookup_guint64 table "LVM2_VG_EXTENT_COUNT";
     PVdata.vg_free_count := lookup_guint64 table "LVM2_VG_FREE_COUNT";
     PVdata.vg_pv_count := lookup_guint64 table "LVM2_PV_COUNT" |}.

Definition get_vg_data_from_table (table : gmap string string) : BDLVMVGdata :=
  {| VGdata.name := g_strdup (table !! "LVM2_VG_NAME");
     VGdata.uuid := g_strdup (table !! "LVM2_VG_UUID");
     VGdata.size := lookup_guint64 table "LVM2_VG_SIZE";
     VGdata.free := lookup_guint64 table "LVM2_VG_FREE";
     VGdata.extent_size := lookup_guint64 table "LVM2_VG_EXTENT_SIZE";
     VGdata.extent_count := lookup_guint64 table "LVM2_VG_EXTENT_COUNT";
     VGdata.free_count := lookup_guint64 table "LVM2_VG_FREE_COUNT";
     VGdata.pv_count := lookup_guint64 table "LVM2_PV_COUNT" |}.

Definition get_lv_data_from_table (table : gmap string string) : BDLVMLVdata :=
  {| LVdata.lv_name := g_strdup (table !! "LVM2_LV_NAME");
     LVdata.vg_name := g_strdup (table !! "LVM2_VG_NAME");
     LVdata.uuid := g_strdup (table !! "LVM2_LV_UUID");
     LVdata.size := lookup_guint64 table "LVM2_LV_SIZE";
     LVdata.attr := g_strdup (table !! "LVM2_LV_ATTR");
     LVdata.segtype := g_strdup (table !! "LVM2_SEGTYPE") |}.

(** ** Process state, events and the command executor *)

(** What one run of an external program gives back to [g_spawn_sync]. *)
Inductive ProcResult : Type :=
  | ProcExited (status : Z) (stdout_data stderr_data : string)
  | ProcSpawnFailed (reason : string).

(** The environment of the library: the outcome of running an argument
    vector and the answer of [access (path, F_OK) == 0]. *)
Record World : Type := mkWorld {
  spawn : list string -> ProcResult;
  access_ok : string -> bool
}.

(** The events a call leaves behind, in order: taking and releasing
    [global_config_lock], evaluating [global_config_str] (with the value
    read) and running an argument vector.  An assignment to
    [global_config_str] needs no event: it shows in the state. *)
Inductive Event : Type :=
  | EvLock
  | EvUnlock
  | EvRead (cfg : option string)
  | EvExec (argv : list string).

#[global] Instance Event_eq_dec : EqDecision Event.
Proof. solve_decision. Defined.

(** The two globals of [lvm.c] ([global_config_lock] shows as the lock and
    unlock events) and the history of events. *)
Record State : Type := mkState {
  global_config_str : option string;
  trace : list Event
}.

Definition M (A : Type) : Type := State -> A * State.

Definition ret {A} (x : A) : M A := fun st => (x, st).

Definition bind {A B} (m : M A) (k : A -> M B) : M B :=
  fun st => let '(x, st') := m st in k x st'.

Notation "x <- m ;; k" := (bind m (fun x => k))
  (at level 100, m at next level, right associativity).
Notation "m ;;; k" := (bind m (fun _ => k))
  (at level 100, right associativity).

Definition emit (e : Event) : M unit :=
  fun st => (tt, mkState (global_config_str st) (trace st ++ [e])).

Definition g_mutex_lock : M unit := emit EvLock.
Definition g_mutex_unlock : M unit := emit EvUnlock.

Definition read_global_config_str : M (option string) :=
  fun st => (global_config_str st,
             mkState (global_config_str st)
               (trace st ++ [EvRead (global_config_str st)])).

Definition write_global_config_str (v : option string) : M unit :=
  fun st => (tt, mkState v (trace st)).

(** Runs the vector an array denotes and records the run. *)
Definition g_spawn_sync (W : World) (argv : list (option string))
    : M ProcResult :=
  emit (EvExec (strv_of_array argv)) ;;;
  ret (spawn W (strv_of_array argv)).

(** Modelled from the spec: how [bd_utils_exec_and_report_error] (declared
    in [utils.h], defined outside the given sources) reads the end of a
    run: a non-zero exit status is a failure whose error carries the
    captured output; a program that cannot be started is one as well. *)
Definition report_outcome (r : ProcResult) (error : option GError)
    : bool * option GError :=
  match r with
  | ProcSpawnFailed reason =>
      (false, g_set_error error G_SPAWN_ERROR G_SPAWN_ERROR_FAILED reason)
  | ProcExited status out err =>
      if status =? 0 then (true, error)
      else (false, g_set_error error BD_UTILS_EXEC_ERROR
                     BD_UTILS_EXEC_ERROR_FAILED (out +:+ err))
  end.

(** Modelled from the spec: [bd_utils_exec_and_report_error] is declared in
    [utils.h] and defined outside the given sources.  It runs the program
    named by the vector to completion and reports as above. *)
Definition bd_utils_exec_and_report_error (W : World)
    (argv : list (option string)) (error : option GError)
    : M (bool * option GError) :=
  r <- g_spawn_sync W argv ;;
  ret (report_outcome r error).

(** Modelled from the spec: how [bd_utils_exec_and_capture_output]
    (declared in [utils.h], defined outside the given sources) reads the
    end of a run: on success it hands back the captured standard output;
    exit status 0 with empty output is the distinct no-output failure.  The
    result is the success flag, the output and the caller's error
    location. *)
Definition capture_outcome (r : ProcResult) (error : option GError)
    : bool * option string * option GError :=
  match r with
  | ProcSpawnFailed reason =>
      (false, None,
       g_set_error error G_SPAWN_ERROR G_SPAWN_ERROR_FAILED reason)
  | ProcExited status out err =>
      if negb (status =? 0) then
        (false, None, g_set_error error BD_UTILS_EXEC_ERROR
                        BD_UTILS_EXEC_ERROR_FAILED (out +:+ err))
      else if bool_decide (out = EmptyString) then
        (false, None, g_set_error error BD_UTILS_EXEC_ERROR
                        BD_UTILS_EXEC_ERROR_NOOUT err)
      else (true, Some out, error)
  end.

(** Modelled from the spec: [bd_utils_exec_and_capture_output] is declared in
    [utils.h] and defined outside the given sources.  Same execution as
    [bd_utils_exec_and_report_error], read as above. *)
Definition bd_utils_exec_and_capture_output (W : World)
    (argv : list (option string)) (error : option GError)
    : M (bool * option string * option GError) :=
  r <- g_spawn_sync W argv ;;
  ret (capture_outcome r error).

(** ** The LVM plugin: wrappers around the executor *)

(** [g_strdup_printf ("--config=%s", global_config_str)] when the global
    string is set, [NULL] otherwise. *)
Definition config_arg (cfg : option string) : option string :=
  match cfg with
  | Some c => Some ("--config=" +:+ c)
  | None => None
  end.

(** The array [argv] the two wrappers fill: ["lvm"], the first
    [args_length] slots of [args], the config slot and the terminator.
    The wrappers are [static]; their callers pass a few hundred arguments at
    most, far from the range where [guint] arithmetic on the length wraps. *)
Definition build_lvm_argv (args : list (option string)) (cfg : option string)
    : list (option string) :=
  let args_length := g_strv_length (strv_of_array args) in
  [Some "lvm"] ++ take (Z.to_nat args_length) args ++ [config_arg cfg; None].

Definition call_lvm_and_report_error (W : World) (args : list (option string))
    (error : option GError) : M (bool * option GError) :=
  g_mutex_lock ;;;
  cfg <- read_global_config_str ;;
  r <- bd_utils_exec_and_report_error W (build_lvm_argv args cfg) error ;;
  g_mutex_unlock ;;;
  ret r.

Definition call_lvm_and_capture_output (W : World)
    (args : list (option string)) (error : option GError)
    : M (bool * option string * option GError) :=
  g_mutex_lock ;;;
  cfg <- read_global_config_str ;;
  r <- bd_utils_exec_and_capture_output W (build_lvm_argv args cfg) error ;;
  g_mutex_unlock ;;;
  ret r.

(** ** The LVM plugin: the global configuration *)

Definition bd_lvm_set_global_config (new_config : option string)
    (error : option GError) : M (bool * option GError) :=
  g_mutex_lock ;;;
  write_global_config_str (g_strdup new_config) ;;;
  g_mutex_unlock ;;;
  ret (true, error).

Definition bd_lvm_get_global_config : M string :=
  g_mutex_lock ;;;
  cfg <- read_global_config_str ;;
  let r := match cfg with Some c => c | None => EmptyString end in
  g_mutex_unlock ;;;
  ret r.

(** ** Calls that may leave defined behaviour *)

(** A call either returns or runs into behaviour C leaves undefined (a write
    outside the allocated array, a read past the end of one, a [NULL]
    pointer dereferenced). *)
Inductive Outcome (A : Type) : Type :=
  | Returns (x : A)
  | Undefined.
Arguments Returns {A} x.
Arguments Undefined {A}.

(** A [GError **] argument that is dereferenced by the callee itself:
    [None] is the [NULL] pointer, which the convention of [GError] allows a
    caller to pass, [Some e] the address of a location that holds [e].
    [stored error e] is what the location holds once the callees have left
    [e] in it; there is nothing to hold without a location. *)
Definition stored (error : option (option GError)) (e : option GError)
    : option GError :=
  match error with
  | Some _ => e
  | None => None
  end.

(** ** The LVM plugin: queries *)

Definition newline : string := String "010" EmptyString.

Definition pv_fields : string :=
  "pv_name,pv_uuid,pe_start,vg_name,vg_uuid,vg_size,vg_free,vg_extent_size,vg_extent_count,vg_free_count,pv_count".
Definition vg_fields : string :=
  "name,uuid,size,free,extent_size,extent_count,free_count,pv_count".
Definition lv_fields : string :=
  "vg_name,lv_name,lv_uuid,lv_size,lv_attr,segtype".

Definition pvs_query : list (option string) :=
  [Some "pvs"; Some "--unit=b"; Some "--nosuffix"; Some "--nameprefixes";
   Some "--unquoted"; Some "--noheadings"; Some "-o"; Some pv_fields].

Definition vgs_query : list (option string) :=
  [Some "vgs"; Some "--noheadings"; Some "--nosuffix"; Some "--nameprefixes";
   Some "--unquoted"; Some "--units=b"; Some "-o"; Some vg_fields].

Definition lvs_query : list (option string) :=
  [Some "lvs"; Some "--noheadings"; Some "--nosuffix"; Some "--nameprefixes";
   Some "--unquoted"; Some "--units=b"; Some "-o"; Some lv_fields].

(** The loop of [bd_lvm_pvinfo] over the lines; the table is never [NULL],
    so the test is the one on [num_items]. *)
Fixpoint bd_lvm_pvinfo_lines (lines : list string) (error : option GError)
    : option BDLVMPVdata * option GError :=
  match lines with
  | [] => (None, g_set_error error BD_LVM_ERROR BD_LVM_ERROR_PARSE
                   "Failed to parse information about the PV")
  | line :: lines' =>
      let '(table, num_items) := parse_lvm_vars line in
      if num_items =? 11
      then (Some (get_pv_data_from_table table), g_clear_error error)
      else bd_lvm_pvinfo_lines lines' error
  end.

Definition bd_lvm_pvinfo (W : World) (device : option string)
    (error : option GError) : M (option BDLVMPVdata * option GError) :=
  r <- call_lvm_and_capture_output W (pvs_query ++ [device; None]) error ;;
  let '(success, output, error) := r in
  if negb success then ret (None, error)
  else ret (bd_lvm_pvinfo_lines
              (g_strsplit (default EmptyString output) newline 0) error).

Fixpoint bd_lvm_vginfo_lines (lines : list string) (error : option GError)
    : option BDLVMVGdata * option GError :=
  match lines with
  | [] => (None, g_set_error error BD_LVM_ERROR BD_LVM_ERROR_PARSE
                   "Failed to parse information about the VG")
  | line :: lines' =>
      let '(table, num_items) := parse_lvm_vars line in
      if num_items =? 8
      then (Some (get_vg_data_from_table table), error)
      else bd_lvm_vginfo_lines lines' error
  end.

Definition bd_lvm_vginfo (W : World) (vg_name : option string)
    (error : option GError) : M (option BDLVMVGdata * option GError) :=
  r <- call_lvm_and_capture_output W (vgs_query ++ [vg_name; None]) error ;;
  let '(success, output, error) := r in
  if negb success then ret (None, error)
  else ret (bd_lvm_vginfo_lines
              (g_strsplit (default EmptyString output) newline 0) error).

Fixpoint bd_lvm_lvinfo_lines (lines : list string) (error : option GError)
    : option BDLVMLVdata * option GError :=
  match lines with
  | [] => (None, g_set_error error BD_LVM_ERROR BD_LVM_ERROR_PARSE
                   "Failed to parse information about the LV")
  | line :: lines' =>
      let '(table, num_items) := parse_lvm_vars line in
      if num_items =? 6
      then (Some (get_lv_data_from_table table), error)
      else bd_lvm_lvinfo_lines lines' error
  end.

Definition bd_lvm_lvinfo (W : World) (vg_name lv_name : string)
    (error : option GError) : M (option BDLVMLVdata * option GError) :=
  r <- call_lvm_and_capture_output W
         (lvs_query ++ [Some (vg_name +:+ "/" +:+ lv_name); None]) error ;;
  let '(success, output, error) := r in
  if negb success then ret (None, error)
  else ret (bd_lvm_lvinfo_lines
              (g_strsplit (default EmptyString output) newline 0) error).

(** The loops of the three list-all queries: every line with the right
    number of items adds a record to the array. *)
Fixpoint bd_lvm_pvs_lines (lines : list string) (pvs : list BDLVMPVdata)
    : list BDLVMPVdata :=
  match lines with
  | [] => pvs
  | line :: lines' =>
      let '(table, num_items) := parse_lvm_vars line in
      if num_items =? 11
      then bd_lvm_pvs_lines lines' (pvs ++ [get_pv_data_from_table table])
      else bd_lvm_pvs_lines lines' pvs
  end.

(** [bd_lvm_pvs (error)].  On a failure of the command the function
    dereferences [error] for [g_error_matches] without a test of [error]:
    with [error == NULL] that dereferences a [NULL] pointer.  The second
    component of the result is the content of the caller's location. *)
Definition bd_lvm_pvs (W : World) (error : option (option GError))
    : M (Outcome (option (list BDLVMPVdata) * option GError)) :=
  r <- call_lvm_and_capture_output W (pvs_query ++ [None])
         (default None error) ;;
  let '(success, output, e) := r in
  if negb success then
    match error with
    | None => ret Undefined
    | Some _ =>
        if g_error_matches e BD_UTILS_EXEC_ERROR BD_UTILS_EXEC_ERROR_NOOUT
        then ret (Returns (Some [], g_clear_error e))
        else ret (Returns (None, e))
    end
  else
    let pvs := bd_lvm_pvs_lines
                 (g_strsplit (default EmptyString output) newline 0) [] in
    if Z.of_nat (length pvs) =? 0
    then ret (Returns
                (None, stored error
                         (g_set_error e BD_LVM_ERROR BD_LVM_ERROR_PARSE
                            "Failed to parse information about PVs")))
    else ret (Returns (Some pvs, stored error e)).

Fixpoint bd_lvm_vgs_lines (lines : list string) (vgs : list BDLVMVGdata)
    : list BDLVMVGdata :=
  match lines with
  | [] => vgs
  | line :: lines' =>
      let '(table, num_items) := parse_lvm_vars line in
      if num_items =? 8
      then bd_lvm_vgs_lines lines' (vgs ++ [get_vg_data_from_table table])
      else bd_lvm_vgs_lines lines' vgs
  end.

(** [bd_lvm_vgs (error)].  On a failure of the command the function
    dereferences [error] for [g_error_matches] without a test of [error]:
    with [error == NULL] that dereferences a [NULL] pointer.  The second
    component of the result is the content of the caller's location. *)
Definition bd_lvm_vgs (W : World) (error : option (option GError))
    : M (Outcome (option (list BDLVMVGdata) * option GError)) :=
  r <- call_lvm_and_capture_output W (vgs_query ++ [None])
         (default None error) ;;
  let '(success, output, e) := r in
  if negb success then
    match error with
    | None => ret Undefined
    | Some _ =>
        if g_error_matches e BD_UTILS_EXEC_ERROR BD_UTILS_EXEC_ERROR_NOOUT
        then ret (Returns (Some [], g_clear_error e))
        else ret (Returns (None, e))
    end
  else
    let vgs := bd_lvm_vgs_lines
                 (g_strsplit (default EmptyString output) newline 0) [] in
    if Z.of_nat (length vgs) =? 0
    then ret (Returns
                (None, stored error
                         (g_set_error e BD_LVM_ERROR BD_LVM_ERROR_PARSE
                            "Failed to parse information about VGs")))
    else ret (Returns (Some vgs, stored error e)).

Fixpoint bd_lvm_lvs_lines (lines : list string) (lvs : list BDLVMLVdata)
    : list BDLVMLVdata :=
  match lines with
  | [] => lvs
  | line :: lines' =>
      let '(table, num_items) := parse_lvm_vars line in
      if num_items =? 6
      then bd_lvm_lvs_lines lines' (lvs ++ [get_lv_data_from_table table])
      else bd_lvm_lvs_lines lines' lvs
  end.

(** [bd_lvm_lvs (vg_name, error)], with the same dereference of
    [error]. *)
Definition bd_lvm_lvs (W : World) (vg_name : option string)
    (error : option (option GError))
    : M (Outcome (option (list BDLVMLVdata) * option GError)) :=
  r <- call_lvm_and_capture_output W (lvs_query ++ [vg_name; None])
         (default None error) ;;
  let '(success, output, e) := r in
  if negb success then
    match error with
    | None => ret Undefined
    | Some _ =>
        if g_error_matches e BD_UTILS_EXEC_ERROR BD_UTILS_EXEC_ERROR_NOOUT
        then ret (Returns (Some [], g_clear_error e))
        else ret (Returns (None, e))
    end
  else
    let lvs := bd_lvm_lvs_lines
                 (g_strsplit (default EmptyString output) newline 0) [] in
    if Z.of_nat (length lvs) =? 0
    then ret (Returns
                (None, stored error
                         (g_set_error e BD_LVM_ERROR BD_LVM_ERROR_PARSE
                            "Failed to parse information about LVs")))
    else ret (Returns (Some lvs, stored error e)).

(** ** The Btrfs plugin: creating a volume *)

(** [guint8] counters wrap around at 256. *)
Definition guint8_wrap (n : Z) : Z := n mod 256.

(** First loop of [bd_btrfs_create_volume]: every device must exist; each
    one adds 1 to [num_args].  The first missing device stops the loop. *)
Fixpoint check_devices (W : World) (devices : list string) (num_args : Z)
    : string + Z :=
  match devices with
  | [] => inr num_args
  | d :: devices' =>
      if negb (access_ok W d) then inl d
      else check_devices W devices' (guint8_wrap (num_args + 1))
  end.

(** [argv[i] = v] on an array of [length argv] slots. *)
Definition array_store (argv : list (option string)) (i : Z)
    (v : option string) : option (list (option string)) :=
  if (0 <=? i) && (i <? Z.of_nat (length argv))
  then Some (<[Z.to_nat i := v]> argv)
  else None.

(** [*device_p] at offset [j] of the vector [devices]: a device, the
    terminator, or a read past the terminator. *)
Definition device_slot (devices : list string) (j : nat)
    : option (option string) :=
  match devices !! j with
  | Some d => Some (Some d)
  | None => if bool_decide (j = length devices) then Some None else None
  end.

(** Second loop: [for (device_p = devices; next_arg <= num_args;
    device_p++, next_arg++) argv[next_arg] = *device_p].  [next_arg] is a
    [guint8]; a loop still running after 256 rounds runs for ever. *)
Fixpoint copy_devices (rounds : nat) (devices : list string) (j : nat)
    (next_arg num_args : Z) (argv : list (option string))
    : option (Z * list (option string)) :=
  if next_arg <=? num_args then
    match rounds with
    | O => None
    | S rounds' =>
        match device_slot devices j with
        | Some d =>
            match array_store argv next_arg d with
            | Some argv' =>
                copy_devices rounds' devices (S j)
                  (guint8_wrap (next_arg + 1)) num_args argv'
            | None => None
            end
        | None => None
        end
    end
  else Some (next_arg, argv).

(** The optional pair of arguments [flag value], written at [next_arg]. *)
Definition store_option (flag : string) (value : option string)
    (st : option (Z * list (option string)))
    : option (Z * list (option string)) :=
  match st, value with
  | Some (next_arg, argv), Some v =>
      match array_store argv next_arg (Some flag) with
      | Some argv1 =>
          match array_store argv1 (guint8_wrap (next_arg + 1)) (Some v) with
          | Some argv2 =>
              Some (guint8_wrap (guint8_wrap (next_arg + 1) + 1), argv2)
          | None => None
          end
      | None => None
      end
  | _, _ => st
  end.

Definition add_if_set (value : option string) (num_args : Z) : Z :=
  match value with
  | Some _ => guint8_wrap (num_args + 2)
  | None => num_args
  end.

(** [devices] is [None] for a [NULL] pointer, otherwise the vector. *)
Definition bd_btrfs_create_volume (W : World) (devices : option (list string))
    (label data_level md_level : option string) (error : option GError)
    : M (Outcome (bool * option GError)) :=
  match devices with
  | None =>
      ret (Returns (false, g_set_error error BD_BTRFS_ERROR
                             BD_BTRFS_ERROR_DEVICE "No devices given"))
  | Some devs =>
      if g_strv_length devs <? 1 then
        ret (Returns (false, g_set_error error BD_BTRFS_ERROR
                               BD_BTRFS_ERROR_DEVICE "No devices given"))
      else
        match check_devices W devs 0 with
        | inl d =>
            ret (Returns (false, g_set_error error BD_BTRFS_ERROR
                                   BD_BTRFS_ERROR_DEVICE
                                   ("Device " +:+ d +:+ " does not exist")))
        | inr num_args =>
            let num_args := add_if_set md_level
                              (add_if_set data_level
                                 (add_if_set label num_args)) in
            let argv := replicate (Z.to_nat (num_args + 2)) None in
            let filled :=
              store_option "--metadata" md_level
                (store_option "--data" data_level
                   (store_option "--label" label
                      (match array_store argv 0 (Some "mkfs.btrfs") with
                       | Some argv0 => Some (1, argv0)
                       | None => None
                       end))) in
            match filled with
            | Some (next_arg, argv1) =>
                match copy_devices 256 devs 0 next_arg num_args argv1 with
                | Some (next_arg', argv2) =>
                    match array_store argv2 next_arg' None with
                    | Some argv3 =>
                        r <- bd_utils_exec_and_report_error W argv3 error ;;
                        ret (Returns r)
                    | None => ret Undefined
                    end
                | None => ret Undefined
                end
            | None => ret Undefined
            end
        end
  end.

Definition bd_btrfs_mkfs (W : World) (devices : option (list string))
    (label data_level md_level : option string) (error : option GError)
    : M (Outcome (bool * option GError)) :=
  bd_btrfs_create_volume W devices label data_level md_level error.

(** ** The initialisation protocol *)

(** Modelled from the spec: the enumeration of backends is declared in
    [plugins.h], outside the given sources; these are the technologies the
    design names, in their fixed discovery order. *)
Inductive BDPlugin : Type :=
  | BD_PLUGIN_LVM
  | BD_PLUGIN_BTRFS
  | BD_PLUGIN_CRYPTO.

#[global] Instance BDPlugin_eq_dec : EqDecision BDPlugin.
Proof. solve_decision. Defined.

Definition known_plugins : list BDPlugin :=
  [BD_PLUGIN_LVM; BD_PLUGIN_BTRFS; BD_PLUGIN_CRYPTO].

Definition plugin_name (p : BDPlugin) : string :=
  match p with
  | BD_PLUGIN_LVM => "lvm"
  | BD_PLUGIN_BTRFS => "btrfs"
  | BD_PLUGIN_CRYPTO => "crypto"
  end.

(** Modelled from the spec: [BDPluginSpec] is declared in [plugins.h]; a
    backend name and an optional path of the module. *)
Record BDPluginSpec : Type := mkBDPluginSpec {
  name : BDPlugin;
  so_name : option string
}.

#[global] Instance BDPluginSpec_eq_dec : EqDecision BDPluginSpec.
Proof. solve_decision. Defined.

(** What resolving a module gives: the functions it supports, or the reason
    it could not be loaded. *)
Inductive LoadResult : Type :=
  | ModuleLoaded (capabilities : list string)
  | ModuleFailed (reason : string).

(** The dynamic loader: the compiled-in location of each backend and the
    outcome of loading a path. *)
Record Loader : Type := mkLoader {
  default_so_name : BDPlugin -> string;
  dlopen : string -> LoadResult
}.

Definition module_path (L : Loader) (s : BDPluginSpec) : string :=
  match so_name s with
  | Some path => if bool_decide (path = EmptyString)
                 then default_so_name L (name s) else path
  | None => default_so_name L (name s)
  end.

(** The requested specs in discovery order: the order of the enumeration,
    not the order of the request. *)
Definition discovery_order (specs : list BDPluginSpec) : list BDPluginSpec :=
  flat_map (fun p => filter (fun s => name s = p) specs) known_plugins.

(** The failures of one pass over the specs, each with its cause. *)
Fixpoint load_failures (L : Loader) (specs : list BDPluginSpec)
    : list (BDPlugin * string) :=
  match specs with
  | [] => []
  | s :: specs' =>
      match dlopen L (module_path L s) with
      | ModuleLoaded _ => load_failures L specs'
      | ModuleFailed reason => (name s, reason) :: load_failures L specs'
      end
  end.

Fixpoint loaded_plugins (L : Loader) (specs : list BDPluginSpec)
    : list BDPlugin :=
  match specs with
  | [] => []
  | s :: specs' =>
      match dlopen L (module_path L s) with
      | ModuleLoaded _ => name s :: loaded_plugins L specs'
      | ModuleFailed _ => loaded_plugins L specs'
      end
  end.

(** The aggregated message: one clause per failure. *)
Fixpoint aggregate_failures (failures : list (BDPlugin * string)) : string :=
  match failures with
  | [] => EmptyString
  | (p, reason) :: failures' =>
      "failed to load plugin " +:+ plugin_name p +:+ " (" +:+ reason +:+ "); "
      +:+ aggregate_failures failures'
  end.

(** Modelled from the spec: [bd_init] is only declared in [blockdev.h]; its
    definition is outside the given sources.  Every required spec is loaded;
    one failure among them fails the call with an error that aggregates all
    the failures.  An empty request loads every known backend and tolerates
    the failures.  The result is the success flag, the backends now loaded
    and the caller's error location. *)
Definition bd_init (L : Loader) (require_plugins : list BDPluginSpec)
    (error : option GError) : bool * list BDPlugin * option GError :=
  match require_plugins with
  | [] =>
      let specs := map (fun p => mkBDPluginSpec p None) known_plugins in
      (true, loaded_plugins L specs, error)
  | _ =>
      let specs := discovery_order require_plugins in
      match load_failures L specs with
      | [] => (true, loaded_plugins L specs, error)
      | failures =>
          (false, loaded_plugins L specs,
           g_set_error error BD_INIT_ERROR BD_INIT_ERROR_PLUGINS_FAILED
             ("Failed to load plugins: " +:+ aggregate_failures failures))
      end
  end.

(** Modelled from the spec: [bd_is_initialized] holds when a completed
    initialisation left at least one backend loaded. *)
Definition bd_is_initialized (loaded : list BDPlugin) : bool :=
  negb (bool_decide (loaded = [])).

(** A text mentions a name when the name occurs in it. *)
Definition mentions (needle text : string) : Prop :=
  exists before after, text = before +:+ needle +:+ after.

(** ** The LVM plugin under several threads

    The four functions that touch [global_config_str], cut into their atomic
    steps; any number of threads, each running one of them, interleaved by
    an arbitrary schedule. *)

(** The content of [global_config_str] as a thread finds it: a pointer to a
    complete string (or [NULL]), or, between the [g_free] and the assignment
    of the setter, a pointer to released memory. *)
Inductive ConfigCell : Type :=
  | Stored (v : option string)
  | Freed.

#[global] Instance ConfigCell_eq_dec : EqDecision ConfigCell.
Proof. solve_decision. Defined.

Inductive ThreadOp : Type :=
  | OpSet (new_config : option string)   (* bd_lvm_set_global_config *)
  | OpGet                                (* bd_lvm_get_global_config *)
  | OpCall (args : list (option string)) (* call_lvm_and_report_error,
                                            call_lvm_and_capture_output *).

(** A thread: its operation, the number of steps it has taken and the
    content it read from the global, once it has read it. *)
Record Thread : Type := mkThread {
  op : ThreadOp;
  pc : nat;
  seen : option ConfigCell
}.

(** What the threads leave in the common log: the content a reader found,
    and, for a run of the external command, the vector it was given (when
    what was read is a string at all), the content it was built from and the
    content of the global while the command ran. *)
Inductive Observation : Type :=
  | ObsRead (tid : nat) (found : ConfigCell)
  | ObsExec (tid : nat) (argv : option (list string))
      (used current : ConfigCell).

Record Shared : Type := mkShared {
  cell : ConfigCell;
  owner : option nat;   (* the thread holding global_config_lock *)
  log : list Observation
}.

Definition argv_from (args : list (option string)) (c : ConfigCell)
    : option (list string) :=
  match c with
  | Stored v => Some (strv_of_array (build_lvm_argv args v))
  | Freed => None
  end.

(** [g_mutex_lock]: only a free mutex can be taken; the thread waits
    otherwise ([None]: no step). *)
Definition try_lock (i : nat) (sh : Shared) (t : Thread)
    : option (Shared * Thread) :=
  match owner sh with
  | None => Some (mkShared (cell sh) (Some i) (log sh),
                  mkThread (op t) (S (pc t)) (seen t))
  | Some _ => None
  end.

Definition unlock (sh : Shared) (t : Thread) : option (Shared * Thread) :=
  Some (mkShared (cell sh) None (log sh), mkThread (op t) (S (pc t)) (seen t)).

(** One atomic step of thread [i]; [None] when it waits or has returned. *)
Definition thread_step (i : nat) (sh : Shared) (t : Thread)
    : option (Shared * Thread) :=
  match op t, pc t with
  | OpSet _, 0%nat => try_lock i sh t
  | OpSet _, 1%nat =>                       (* g_free (global_config_str) *)
      Some (mkShared Freed (owner sh) (log sh), mkThread (op t) 2 (seen t))
  | OpSet v, 2%nat =>                       (* global_config_str = g_strdup *)
      Some (mkShared (Stored (g_strdup v)) (owner sh) (log sh),
            mkThread (op t) 3 (seen t))
  | OpSet _, 3%nat => unlock sh t
  | OpGet, 0%nat => try_lock i sh t
  | OpGet, 1%nat =>                         (* ret = g_strdup (...) *)
      Some (mkShared (cell sh) (owner sh) (log sh ++ [ObsRead i (cell sh)]),
            mkThread (op t) 2 (Some (cell sh)))
  | OpGet, 2%nat => unlock sh t
  | OpCall _, 0%nat => try_lock i sh t
  | OpCall _, 1%nat =>                      (* argv is filled *)
      Some (mkShared (cell sh) (owner sh) (log sh ++ [ObsRead i (cell sh)]),
            mkThread (op t) 2 (Some (cell sh)))
  | OpCall args, 2%nat =>                   (* bd_utils_exec_and_... (argv) *)
      let used := default Freed (seen t) in
      Some (mkShared (cell sh) (owner sh)
              (log sh ++ [ObsExec i (argv_from args used) used (cell sh)]),
            mkThread (op t) 3 (seen t))
  | OpCall _, 3%nat => unlock sh t
  | _, _ => None
  end.

Definition System : Type := Shared * list Thread.

(** The scheduler picks thread [i]; a thread that cannot step leaves the
    system as it is. *)
Definition sys_step (i : nat) (s : System) : System :=
  match snd s !! i with
  | Some t =>
      match thread_step i (fst s) t with
      | Some (sh', t') => (sh', <[i := t']> (snd s))
      | None => s
      end
  | None => s
  end.

Definition run_schedule (schedule : list nat) (s : System) : System :=
  fold_left (fun s i => sys_step i s) schedule s.

Definition start (c0 : option string) (ops : list ThreadOp) : System :=
  (mkShared (Stored c0) None [],
   (fun o => mkThread o 0 None) <$> ops).

(** A thread is between its [g_mutex_lock] and its [g_mutex_unlock]. *)
Definition holds_lock (t : Thread) : bool :=
  match op t, pc t with
  | OpSet _, (1 | 2 | 3)%nat => true
  | OpGet, (1 | 2)%nat => true
  | OpCall _, (1 | 2 | 3)%nat => true
  | _, _ => false
  end.

(** The values a thread may find: the one stored before the threads
    started or one a setter among them writes. *)
Definition written (c0 : option string) (ops : list ThreadOp)
    (v : option string) : Prop :=
  v = c0 \/ In (OpSet v) ops.

Definition observation_ok (c0 : option string) (ops : list ThreadOp)
    (o : Observation) : Prop :=
  match o with
  | ObsRead _ found => exists v, found = Stored v /\ written c0 ops v
  | ObsExec i argv used current =>
      exists v args, used = Stored v /\ current = Stored v /\ written c0 ops v
        /\ ops !! i = Some (OpCall args)
        /\ argv = Some (strv_of_array (build_lvm_argv args v))
  end.

(** ** The parser and the queries as the design document states them *)

(** Splitting a text at every character that satisfies [is_delim]. *)
Fixpoint split_at (is_delim : ascii -> bool) (s : string) : list string :=
  match s with
  | EmptyString => [EmptyString]
  | String c s' =>
      if is_delim c then EmptyString :: split_at is_delim s'
      else match split_at is_delim s' with
           | t :: ts => String c t :: ts
           | [] => [String c EmptyString]
           end
  end.

(** The text the pieces [tokens] make with the separators [seps] between
    them, one separator after each piece but the last. *)
Fixpoint join_tokens (tokens : list string) (seps : list ascii) : string :=
  match tokens, seps with
  | t :: tokens', c :: seps' => t +:+ String c (join_tokens tokens' seps')
  | t :: _, [] => t
  | [], _ => EmptyString
  end.

Fixpoint string_forallb (p : ascii -> bool) (s : string) : bool :=
  match s with
  | EmptyString => true
  | String c s' => p c && string_forallb p s'
  end.

Definition spec_is_whitespace (c : ascii) : bool :=
  bool_decide (c = " "%char) || bool_decide (c = "009"%char)
  || bool_decide (c = "010"%char).

(** The tokens of a line: the pieces between white space. *)
Definition spec_tokens (line : string) : list string :=
  split_at spec_is_whitespace line.

Definition is_newline (c : ascii) : bool := bool_decide (c = "010"%char).

(** The lines of an output: the pieces between newlines. *)
Definition spec_lines (output : string) : list string :=
  split_at is_newline output.

(** A token with an [=]: the text before the first one and the text after
    it.  A token without gives nothing. *)
Fixpoint spec_key_value (token : string) : option (string * string) :=
  match token with
  | EmptyString => None
  | String c token' =>
      if bool_decide (c = "="%char) then Some (EmptyString, token')
      else match spec_key_value token' with
           | Some (k, v) => Some (String c k, v)
           | None => None
           end
  end.

(** The key and value pairs of a line, in the order of the tokens. *)
Definition spec_items (line : string) : list (string * string) :=
  omap spec_key_value (spec_tokens line).

(** The mapping of a list of pairs in which a later pair replaces an
    earlier one with the same key. *)
Definition spec_table (items : list (string * string)) : gmap string string :=
  list_to_map (reverse items).

(** The table of the first line whose reported number of items is the
    size of the schema. *)
Definition spec_first_record (schema : Z) (lines : list string)
    : option (gmap string string) :=
  match List.find (fun l => snd (parse_lvm_vars l) =? schema) lines with
  | Some l => Some (fst (parse_lvm_vars l))
  | None => None
  end.

(** The vector an LVM wrapper runs for the array [args] in state [st]. *)
Definition lvm_vector (st : State) (args : list (option string))
    : list string :=
  strv_of_array (build_lvm_argv args (global_config_str st)).

(** What a list-all query owes its caller when the command fails: the
    call returns, with the empty array and a cleared error on no output,
    with [NULL] and the error of the executor otherwise. *)
Definition list_all_contract {A : Type} (r : ProcResult)
    (outcome : Outcome (option (list A) * option GError)) : Prop :=
  (forall err, r = ProcExited 0 EmptyString err ->
     outcome = Returns (Some [], None))
  /\ (forall status out err, r = ProcExited status out err -> status <> 0 ->
        outcome = Returns (None, Some (mkGError BD_UTILS_EXEC_ERROR
                                         BD_UTILS_EXEC_ERROR_FAILED
                                         (out +:+ err))))
  /\ (forall reason, r = ProcSpawnFailed reason ->
        outcome = Returns (None, Some (mkGError G_SPAWN_ERROR
                                         G_SPAWN_ERROR_FAILED reason))).

(** The command of a query fails: it cannot be started, it exits with a
    status other than 0, or it exits with status 0 and prints nothing. *)
Definition command_fails (r : ProcResult) : Prop :=
  match r with
  | ProcExited status out _ => status <> 0 \/ out = EmptyString
  | ProcSpawnFailed _ => True
  end.

(** The config argument as the design words it: present exactly when a
    non-empty value is set. *)
Definition claimed_config_args (cfg : option string) : list string :=
  match cfg with
  | Some c => if bool_decide (c = EmptyString) then []
              else ["--config=" +:+ c]
  | None => []
  end.

(** The claim of the design about the two wrappers, for the vector [args]
    in state [st]: the events are the lock, the read of the global string,
    the run of ["lvm"], [args] and the claimed config argument, and the
    unlock. *)
Definition config_injection_claim (W : World) (st : State)
    (args : list string) : Prop :=
  trace (snd (call_lvm_and_report_error W (map Some args ++ [None]) None st))
  = trace st ++
    [EvLock; EvRead (global_config_str st);
     EvExec ("lvm" :: args ++ claimed_config_args (global_config_str st));
     EvUnlock]
  /\ trace (snd (call_lvm_and_capture_output W (map Some args ++ [None])
                   None st))
     = trace st ++
       [EvLock; EvRead (global_config_str st);
        EvExec ("lvm" :: args ++ claimed_config_args (global_config_str st));
        EvUnlock].

(** The state of a process that has set no configuration and run
    nothing. *)
Definition st0 : State := mkState None [].

(** A world in which every program exits with status 0 and prints nothing,
    and every path exists. *)
Definition all_present : World :=
  mkWorld (fun _ => ProcExited 0 EmptyString EmptyString) (fun _ => true).

(** A world in which every program exits with status 0 and prints [out],
    and every path exists. *)
Definition printing (out : string) : World :=
  mkWorld (fun _ => ProcExited 0 out EmptyString) (fun _ => true).

Definition sample_vg_output : string :=
  "  LVM2_VG_NAME=vg0 LVM2_VG_UUID=u1 LVM2_VG_SIZE=4096 LVM2_VG_FREE=1024 LVM2_VG_EXTENT_SIZE=4 LVM2_VG_EXTENT_COUNT=1024 LVM2_VG_FREE_COUNT=256 LVM2_PV_COUNT=1"
  +:+ newline.

(** The line of the design's round-trip example. *)
Definition pv_line : string :=
  "LVM2_PV_NAME=/dev/sda1 LVM2_PV_UUID=abc" +:+ String "009" "LVM2_PE_START=2048"
  +:+ String "010" EmptyString.

(** ** The invariant of the threads *)

Section ThreadInvariant.

Variable c0 : option string.
Variable ops : list ThreadOp.

(** Thread [i] runs the operation it was started with, is inside its
    critical section exactly when it owns the mutex, and, about to run the
    command, has read what the global still holds. *)
Definition thread_ok (sh : Shared) (i : nat) (t : Thread) : Prop :=
  ops !! i = Some (op t)
  /\ (holds_lock t = true <-> owner sh = Some i)
  /\ (forall args, op t = OpCall args -> pc t = 2%nat ->
        seen t = Some (cell sh)).

(** The global holds a written value, or a setter is between its [g_free]
    and its assignment. *)
Definition cell_ok (sh : Shared) (ths : list Thread) : Prop :=
  match cell sh with
  | Stored v => written c0 ops v
  | Freed => exists i t v,
      ths !! i = Some t /\ op t = OpSet v /\ pc t = 2%nat
  end.

Definition sys_inv (s : System) : Prop :=
  (forall i t, snd s !! i = Some t -> thread_ok (fst s) i t)
  /\ cell_ok (fst s) (snd s)
  /\ Forall (observation_ok c0 ops) (log (fst s)).

End ThreadInvariant.

(** ** Sample inputs and helpers of the statements *)

(** [g_hash_table_insert] of one pair. *)
Definition insert_item (m : gmap string string) (kv : string * string)
    : gmap string string :=
  <[fst kv := snd kv]> m.

(** A line of eight pairs that all carry the same key. *)
Definition repeated_key_line : string :=
  "LVM2_VG_NAME=a LVM2_VG_NAME=b LVM2_VG_NAME=c LVM2_VG_NAME=d LVM2_VG_NAME=e LVM2_VG_NAME=f LVM2_VG_NAME=g LVM2_VG_NAME=h".

(** The error of a query that found no usable line. *)
Definition parse_error (what : string) : option GError :=
  Some (mkGError BD_LVM_ERROR BD_LVM_ERROR_PARSE what).

(** The error of [bd_btrfs_create_volume] about its devices. *)
Definition device_error (msg : string) : option GError :=
  Some (mkGError BD_BTRFS_ERROR BD_BTRFS_ERROR_DEVICE msg).

(** A world in which no path exists. *)
Definition nothing_exists : World :=
  mkWorld (fun _ => ProcExited 0 EmptyString EmptyString) (fun _ => false).

(** A loader that finds the module of the LVM plugin and no other. *)
Definition lvm_only : Loader :=
  mkLoader (fun p => "libbd_" +:+ plugin_name p +:+ ".so")
    (fun path => if bool_decide (path = "libbd_lvm.so")
                 then ModuleLoaded [] else ModuleFailed "cannot open").

(** Three threads: a setter and two wrappers, the first wrapper served
    before the setter and the second after it. *)
Definition sample_ops : list ThreadOp :=
  [OpSet (Some "new"); OpCall [Some "pvs"; None]; OpCall [Some "vgs"; None]].

(** A schedule that makes the setter and the second wrapper wait for the
    first wrapper. *)
Definition sample_schedule : list nat :=
  [1; 1; 0; 2; 1; 0; 1; 0; 2; 0; 0; 0; 2; 2; 2; 2]%nat.

(** ** The LVM plugin: sizes *)

(** [guint64] arithmetic wraps around at 2^64. *)
Definition guint64_wrap (n : Z) : Z := n mod 2 ^ 64.

(** Modelled from the spec: the macro [RESOLVE_PE_SIZE] and the constant
    [BD_LVM_DEFAULT_PE_SIZE] are defined in [lvm.h], outside the given
    sources; the documentation of the callers gives the meaning (a size, or
    0 to use the default).  The default is a parameter. *)
Definition RESOLVE_PE_SIZE (BD_LVM_DEFAULT_PE_SIZE size : Z) : Z :=
  if size =? 0 then BD_LVM_DEFAULT_PE_SIZE else size.

(** [bd_lvm_is_supported_pe_size]; the two bounds are constants of [lvm.h],
    taken as parameters. *)
Definition bd_lvm_is_supported_pe_size (BD_LVM_MIN_PE_SIZE BD_LVM_MAX_PE_SIZE
    size : Z) : bool :=
  (size mod 2 =? 0) && (size >=? BD_LVM_MIN_PE_SIZE)
  && (size <=? BD_LVM_MAX_PE_SIZE).

(** [bd_lvm_round_size_to_pe (size, pe_size, roundup)].  The remainder is
    taken by the resolved extent size, which is not 0 as long as the default
    is not. *)
Definition bd_lvm_round_size_to_pe (BD_LVM_DEFAULT_PE_SIZE size pe_size : Z)
    (roundup : bool) : Z :=
  let pe_size := RESOLVE_PE_SIZE BD_LVM_DEFAULT_PE_SIZE pe_size in
  let delta := size mod pe_size in
  if delta =? 0 then size
  else if roundup then guint64_wrap (size + guint64_wrap (pe_size - delta))
  else guint64_wrap (size - delta).

(** [bd_lvm_get_lv_physical_size (lv_size, pe_size)]: one more extent for
    the metadata. *)
Definition bd_lvm_get_lv_physical_size (BD_LVM_DEFAULT_PE_SIZE lv_size
    pe_size : Z) : Z :=
  let pe_size := RESOLVE_PE_SIZE BD_LVM_DEFAULT_PE_SIZE pe_size in
  guint64_wrap
    (bd_lvm_round_size_to_pe BD_LVM_DEFAULT_PE_SIZE lv_size pe_size true
     + pe_size).

(** ** Lines in the format of the LVM reports *)

(** The line LVM prints for a list of keys and values: [key=value] tokens
    with one space between them. *)
Fixpoint format_items (items : list (string * string)) : string :=
  match items with
  | [] => EmptyString
  | [(k, v)] => k +:+ "=" +:+ v
  | (k, v) :: items' => k +:+ "=" +:+ v +:+ " " +:+ format_items items'
  end.

(** A key that can stand in such a line has neither [=] nor white space; a
    value has no white space. *)
Definition plain_item (kv : string * string) : Prop :=
  char_in "=" (fst kv) = false
  /\ string_forallb (fun c => negb (spec_is_whitespace c)) (fst kv) = true
  /\ string_forallb (fun c => negb (spec_is_whitespace c)) (snd kv) = true.

(** ** Statements about the queries *)

(** The value a line gives to a key: the value of the last of its items
    with that key. *)
Fixpoint spec_value (items : list (string * string)) (key : string)
    : option string :=
  match items with
  | [] => None
  | (k, v) :: items' =>
      match spec_value items' key with
      | Some v' => Some v'
      | None => if bool_decide (k = key) then Some v else None
      end
  end.

(** The number a line gives to a key, 0 when it has no item with that
    key. *)
Definition spec_number (items : list (string * string)) (key : string) : Z :=
  match spec_value items key with
  | Some v => g_ascii_strtoull v
  | None => 0
  end.

(** The records a line of [pvs], [vgs] or [lvs] denotes: every field holds
    what the line gives to the key of the field, [NULL] for a text the line
    does not give. *)
Definition pv_record (items : list (string * string)) : BDLVMPVdata :=
  PVdata.mk (spec_value items "LVM2_PV_NAME")
    (spec_value items "LVM2_PV_UUID")
    (spec_number items "LVM2_PE_START")
    (spec_value items "LVM2_VG_NAME")
    (spec_value items "LVM2_VG_UUID")
    (spec_number items "LVM2_VG_SIZE")
    (spec_number items "LVM2_VG_FREE")
    (spec_number items "LVM2_VG_EXTENT_SIZE")
    (spec_number items "LVM2_VG_EXTENT_COUNT")
    (spec_number items "LVM2_VG_FREE_COUNT")
    (spec_number items "LVM2_PV_COUNT").

Definition vg_record (items : list (string * string)) : BDLVMVGdata :=
  VGdata.mk (spec_value items "LVM2_VG_NAME")
    (spec_value items "LVM2_VG_UUID")
    (spec_number items "LVM2_VG_SIZE")
    (spec_number items "LVM2_VG_FREE")
    (spec_number items "LVM2_VG_EXTENT_SIZE")
    (spec_number items "LVM2_VG_EXTENT_COUNT")
    (spec_number items "LVM2_VG_FREE_COUNT")
    (spec_number items "LVM2_PV_COUNT").

Definition lv_record (items : list (string * string)) : BDLVMLVdata :=
  LVdata.mk (spec_value items "LVM2_LV_NAME")
    (spec_value items "LVM2_VG_NAME")
    (spec_value items "LVM2_LV_UUID")
    (spec_number items "LVM2_LV_SIZE")
    (spec_value items "LVM2_LV_ATTR")
    (spec_value items "LVM2_SEGTYPE").

(** The first line whose reported number of items is the size of the
    schema. *)
Definition spec_first_line (schema : Z) (lines : list string)
    : option string :=
  List.find (fun l => snd (parse_lvm_vars l) =? schema) lines.

(** Sample outputs of [pvs] and [lvs], and an output of [vgs] with two VGs
    around a line that is none. *)
Definition sample_pv_output : string :=
  "  LVM2_PV_NAME=/dev/sda1 LVM2_PV_UUID=p1 LVM2_PE_START=1048576 LVM2_VG_NAME=vg0 LVM2_VG_UUID=u1 LVM2_VG_SIZE=4096 LVM2_VG_FREE=1024 LVM2_VG_EXTENT_SIZE=4 LVM2_VG_EXTENT_COUNT=1024 LVM2_VG_FREE_COUNT=256 LVM2_PV_COUNT=1"
  +:+ newline.

Definition sample_lv_output : string :=
  "  LVM2_LV_NAME=lv0 LVM2_VG_NAME=vg0 LVM2_LV_UUID=l1 LVM2_LV_SIZE=2048 LVM2_LV_ATTR=-wi-a----- LVM2_SEGTYPE=linear"
  +:+ newline.

Definition sample_vgs_output : string :=
  sample_vg_output +:+ "  no volume groups here" +:+ newline
  +:+ "  LVM2_VG_NAME=vg1 LVM2_VG_UUID=u2 LVM2_VG_SIZE=8192 LVM2_VG_FREE=0 LVM2_VG_EXTENT_SIZE=4 LVM2_VG_EXTENT_COUNT=2048 LVM2_VG_FREE_COUNT=0 LVM2_PV_COUNT=2"
  +:+ newline.

(** The lines whose reported number of items is the size of the schema. *)
Definition matching_lines (schema : Z) (lines : list string) : list string :=
  List.filter (fun l => snd (parse_lvm_vars l) =? schema) lines.

(** What a list-all query returns for the records of the matching lines:
    [NULL] with a parse error when there is none, the array otherwise. *)
Definition list_all_result {A : Type} (records : list A) (what : string)
    : option (list A) * option GError :=
  match records with
  | [] => (None, parse_error what)
  | _ => (Some records, None)
  end.

(** What a fetch-one query owes its caller when the command fails: [NULL]
    and the error of the executor, the no-output error included. *)
Definition fetch_one_contract {A : Type} (r : ProcResult)
    (result : option A * option GError) : Prop :=
  (forall err, r = ProcExited 0 EmptyString err ->
     result = (None, Some (mkGError BD_UTILS_EXEC_ERROR
                             BD_UTILS_EXEC_ERROR_NOOUT err)))
  /\ (forall status out err, r = ProcExited status out err -> status <> 0 ->
        result = (None, Some (mkGError BD_UTILS_EXEC_ERROR
                                BD_UTILS_EXEC_ERROR_FAILED (out +:+ err))))
  /\ (forall reason, r = ProcSpawnFailed reason ->
        result = (None, Some (mkGError G_SPAWN_ERROR G_SPAWN_ERROR_FAILED
                                reason))).

(** ** Progress of the threads *)

(** A thread has returned from its operation. *)
Definition finished (t : Thread) : bool :=
  match op t with
  | OpSet _ | OpCall _ => (4 <=? pc t)%nat
  | OpGet => (3 <=? pc t)%nat
  end.

(** The mutex is owned by a thread that is inside its critical section. *)
Definition owner_ok (s : System) : Prop :=
  forall i, owner (fst s) = Some i ->
    exists t, snd s !! i = Some t /\ holds_lock t = true.

(** ** The Btrfs plugin: subvolumes *)

(** [g_str_has_suffix (str, suffix)]: the last [strlen (suffix)] characters
    of [str] are [suffix]. *)
Definition g_str_has_suffix (str suffix : string) : bool :=
  if (String.length str <? String.length suffix)%nat then false
  else bool_decide
         (string_drop (String.length str - String.length suffix) str = suffix).

(** The path both subvolume functions build from the mount point and the
    name: [g_strdup_printf ("%s%s", ...)] after a final slash,
    [g_strdup_printf ("%s/%s", ...)] otherwise. *)
Definition subvolume_path (mountpoint name : string) : string :=
  if g_str_has_suffix mountpoint "/" then mountpoint +:+ name
  else mountpoint +:+ "/" +:+ name.

Definition bd_btrfs_create_subvolume (W : World) (mountpoint name : string)
    (error : option GError) : M (bool * option GError) :=
  bd_utils_exec_and_report_error W
    [Some "btrfs"; Some "subvol"; Some "create";
     Some (subvolume_path mountpoint name); None] error.

Definition bd_btrfs_delete_subvolume (W : World) (mountpoint name : string)
    (error : option GError) : M (bool * option GError) :=
  bd_utils_exec_and_report_error W
    [Some "btrfs"; Some "subvol"; Some "delete";
     Some (subvolume_path mountpoint name); None] error.

(** ** Statements about [bd_btrfs_create_volume] *)

(** An optional argument with its flag. *)
Definition opt_args (flag : string) (value : option string) : list string :=
  match value with
  | Some v => [flag; v]
  | None => []
  end.

(** The optional arguments of [mkfs.btrfs], in the order the function
    writes them. *)
Definition mkfs_options (label data_level md_level : option string)
    : list string :=
  opt_args "--label" label ++ opt_args "--data" data_level
  ++ opt_args "--metadata" md_level.

(** The next free index of a partly filled vector is an 8-bit value. *)
Definition next_in_range (s : option (Z * list (option string))) : Prop :=
  match s with
  | Some (next_arg, _) => 0 <= next_arg <= 255
  | None => True
  end.

(** ** Numbers on the command line *)

(** [g_strdup_printf ("%" G_GUINT64_FORMAT, n)]: the decimal digits of an
    unsigned 64-bit value, without sign or leading zero. *)
Definition guint64_format (n : Z) : string := pretty (Z.to_N n).

(** [bd_btrfs_set_default_subvolume (mountpoint, subvol_id)]. *)
Definition bd_btrfs_set_default_subvolume (W : World) (mountpoint : string)
    (subvol_id : Z) (error : option GError) : M (bool * option GError) :=
  bd_utils_exec_and_report_error W
    [Some "btrfs"; Some "subvol"; Some "set-default";
     Some (guint64_format subvol_id); Some mountpoint; None] error.

(** ** The LVM plugin: commands that take a list of PVs *)

(** [pv_list[idx]]: an element of the vector, its terminator, or a read
    outside of it ([NULL] vector, negative index, index past the
    terminator). *)
Definition pv_slot (pv_list : option (list string)) (idx : Z)
    : option (option string) :=
  match pv_list with
  | Some l => if idx <? 0 then None else device_slot l (Z.to_nat idx)
  | None => None
  end.

(** [for (i = first; i < (pv_list_len + first); i++)
       argv[i] = pv_list[i - first]], the loop of [bd_lvm_vgcreate]
    ([first] is 4) and of [bd_lvm_lvcreate] ([first] is 7).  [i] is a
    [guint8], the bound is computed in [int].  The loop ends or leaves the
    arrays within 253 rounds. *)
Fixpoint copy_pv_list (rounds : nat) (pv_list : option (list string))
    (first i pv_list_len : Z) (argv : list (option string))
    : option (Z * list (option string)) :=
  if i <? pv_list_len + first then
    match rounds with
    | O => None
    | S rounds' =>
        match pv_slot pv_list (i - first) with
        | Some v =>
            match array_store argv i v with
            | Some argv' =>
                copy_pv_list rounds' pv_list first (guint8_wrap (i + 1))
                  pv_list_len argv'
            | None => None
            end
        | None => None
        end
    end
  else Some (i, argv).

(** [guint8 pv_list_len = pv_list ? g_strv_length (pv_list) : 0]. *)
Definition pv_list_length (pv_list : option (list string)) : Z :=
  guint8_wrap (match pv_list with
               | Some l => g_strv_length l
               | None => 0
               end).

(** [bd_lvm_vgcreate (name, pv_list, pe_size)]: [pv_list_len + 5] slots,
    the first four written at constant indices. *)
Definition bd_lvm_vgcreate (BD_LVM_DEFAULT_PE_SIZE : Z) (W : World)
    (name : string) (pv_list : option (list string)) (pe_size : Z)
    (error : option GError) : M (Outcome (bool * option GError)) :=
  let pv_list_len := pv_list_length pv_list in
  let pe_size := RESOLVE_PE_SIZE BD_LVM_DEFAULT_PE_SIZE pe_size in
  let argv :=
    [Some "vgcreate"; Some "-s"; Some (guint64_format pe_size +:+ "b");
     Some name] ++ replicate (Z.to_nat (pv_list_len + 1)) None in
  match copy_pv_list 256 pv_list 4 4 pv_list_len argv with
  | Some (i, argv1) =>
      match array_store argv1 i None with
      | Some argv2 =>
          r <- call_lvm_and_report_error W argv2 error ;;
          ret (Returns r)
      | None => ret Undefined
      end
  | None => ret Undefined
  end.

(** [bd_lvm_lvcreate (vg_name, lv_name, size, pv_list)]: [pv_list_len + 8]
    slots, the first seven written at constant indices; the size is given
    in KiB. *)
Definition bd_lvm_lvcreate (W : World) (vg_name lv_name : string) (size : Z)
    (pv_list : option (list string)) (error : option GError)
    : M (Outcome (bool * option GError)) :=
  let pv_list_len := pv_list_length pv_list in
  let argv :=
    [Some "lvcreate"; Some "-n"; Some lv_name; Some "-L";
     Some (guint64_format (size / 1024) +:+ "K"); Some "-y"; Some vg_name]
    ++ replicate (Z.to_nat (pv_list_len + 1)) None in
  match copy_pv_list 256 pv_list 7 7 pv_list_len argv with
  | Some (i, argv1) =>
      match array_store argv1 i None with
      | Some argv2 =>
          r <- call_lvm_and_report_error W argv2 error ;;
          ret (Returns r)
      | None => ret Undefined
      end
  | None => ret Undefined
  end.

(** The argument of the global configuration, when it is set. *)
Definition config_args (st : State) : list string :=
  match global_config_str st with
  | Some c => ["--config=" +:+ c]
  | None => []
  end.

(** The PVs that reach the command: the vector cut at its length modulo
    256. *)
Definition passed_pvs (pv_list : option (list string)) : list string :=
  match pv_list with
  | Some l => take (length l mod 256)%nat l
  | None => []
  end.

(** ** The Btrfs plugin: queries *)

(** A compiled regular expression: the pattern and whether it was compiled
    with [G_REGEX_EXTENDED].  The patterns of the plugin are constants that
    compile. *)
Record GRegex : Type := mkGRegex {
  pattern : string;
  extended : bool
}.

(** The match data the queries read: groups by number and by name. *)
Record GMatchInfo : Type := mkGMatchInfo {
  g_match_info_fetch : Z -> string;
  g_match_info_fetch_named : string -> string
}.

(** What the queries take from outside the given sources: the regular
    expressions of GLib ([g_regex_match] gives the match data of the first
    match in the subject, or fails) and [bd_utils_size_from_spec] of
    [utils.h], whose errors the queries only log. *)
Record Parsers : Type := mkParsers {
  g_regex_match : GRegex -> string -> option GMatchInfo;
  bd_utils_size_from_spec : string -> Z
}.

Module DeviceInfo.
Record t : Type := mk {
  id : Z;
  path : string;
  size : Z;
  used : Z
}.
End DeviceInfo.

Module SubvolumeInfo.
Record t : Type := mk {
  id : Z;
  parent_id : Z;
  path : string
}.
End SubvolumeInfo.

Module FilesystemInfo.
Record t : Type := mk {
  label : string;
  uuid : string;
  num_devices : Z;
  used : Z
}.
End FilesystemInfo.

Abbreviation BDBtrfsDeviceInfo := DeviceInfo.t.
Abbreviation BDBtrfsSubvolumeInfo := SubvolumeInfo.t.
Abbreviation BDBtrfsFilesystemInfo := FilesystemInfo.t.

Definition get_device_info_from_match (P : Parsers) (match_info : GMatchInfo)
    : BDBtrfsDeviceInfo :=
  DeviceInfo.mk
    (g_ascii_strtoull (g_match_info_fetch_named match_info "id"))
    (g_match_info_fetch_named match_info "path")
    (bd_utils_size_from_spec P (g_match_info_fetch_named match_info "size"))
    (bd_utils_size_from_spec P (g_match_info_fetch_named match_info "used")).

Definition get_subvolume_info_from_match (match_info : GMatchInfo)
    : BDBtrfsSubvolumeInfo :=
  SubvolumeInfo.mk
    (g_ascii_strtoull (g_match_info_fetch_named match_info "id"))
    (g_ascii_strtoull (g_match_info_fetch_named match_info "parent_id"))
    (g_match_info_fetch_named match_info "path").

Definition get_filesystem_info_from_match (P : Parsers)
    (match_info : GMatchInfo) : BDBtrfsFilesystemInfo :=
  FilesystemInfo.mk
    (g_match_info_fetch_named match_info "label")
    (g_match_info_fetch_named match_info "uuid")
    (g_ascii_strtoull (g_match_info_fetch_named match_info "num_devices"))
    (bd_utils_size_from_spec P (g_match_info_fetch_named match_info "used")).

(** The four patterns, with the characters the C literals denote. *)
Definition default_subvolume_regex : GRegex :=
  mkGRegex "ID (\d+) .*" false.

Definition devices_regex : GRegex :=
  mkGRegex ("devid[ \t]+(?P<id>\d+)[ \t]+size[ \t]+(?P<size>\S+)[ \t]+"
            +:+ "used[ \t]+(?P<used>\S+)[ \t]+path[ \t]+(?P<path>\S+)"
            +:+ newline) true.

Definition subvolumes_regex : GRegex :=
  mkGRegex ("ID\s+(?P<id>\d+)\s+gen\s+\d+\s+(cgen\s+\d+\s+)?"
            +:+ "parent\s+(?P<parent_id>\d+)\s+top\s+level\s+\d+\s+"
            +:+ "(otime\s+\d{4}-\d{2}-\d{2}\s+\d\d:\d\d:\d\d\s+)?"
            +:+ "path\s+(?P<path>\S+)") true.

Definition filesystem_regex : GRegex :=
  mkGRegex ("Label:\s+'(?P<label>\S+)'\s+uuid:\s+(?P<uuid>\S+)\s+"
            +:+ "Total\sdevices\s+(?P<num_devices>\d+)\s+"
            +:+ "FS\sbytes\sused\s+(?P<used>\S+)") true.

(** [bd_btrfs_get_default_subvolume_id (mountpoint)]: the value and the
    caller's error location. *)
Definition bd_btrfs_get_default_subvolume_id (P : Parsers) (W : World)
    (mountpoint : string) (error : option GError) : M (Z * option GError) :=
  r <- bd_utils_exec_and_capture_output W
         [Some "btrfs"; Some "subvol"; Some "get-default"; Some mountpoint;
          None] error ;;
  let '(success, output, error) := r in
  if negb success then ret (0, error)
  else
    match g_regex_match P default_subvolume_regex
            (default EmptyString output) with
    | None =>
        ret (0, g_set_error error BD_BTRFS_ERROR BD_BTRFS_ERROR_PARSE
                  "Failed to parse subvolume's ID")
    | Some match_info =>
        ret (g_ascii_strtoull (g_match_info_fetch match_info 1), error)
    end.

(** The loop over the lines: [g_ptr_array_add] for every line that
    matches. *)
Fixpoint match_lines {A : Type} (P : Parsers) (regex : GRegex)
    (get_info : GMatchInfo -> A) (lines : list string) (infos : list A)
    : list A :=
  match lines with
  | [] => infos
  | line :: lines' =>
      match g_regex_match P regex line with
      | Some match_info =>
          match_lines P regex get_info lines' (infos ++ [get_info match_info])
      | None => match_lines P regex get_info lines' infos
      end
  end.

(** [for (i = 0; i < infos->len; i++) ret[i] = g_ptr_array_index (infos, i)]
    with a [guint8 i]: the loop of both list queries.  Inside the loop [i]
    is below [len], so the read and the write are inside the arrays;
    [rounds] bounds the number of rounds, [None] is a loop still running
    after them. *)
Fixpoint copy_infos {A : Type} (rounds : nat) (infos : list A) (i : Z)
    (ret_array : list (option A)) : option (Z * list (option A)) :=
  if i <? Z.of_nat (length infos) then
    match rounds with
    | O => None
    | S rounds' =>
        copy_infos rounds' infos (guint8_wrap (i + 1))
          (<[Z.to_nat i := infos !! Z.to_nat i]> ret_array)
    end
  else Some (i, ret_array).

(** The elements of a [NULL]-terminated array of pointers. *)
Fixpoint ptrv_of_array {A : Type} (a : list (option A)) : list A :=
  match a with
  | Some x :: a' => x :: ptrv_of_array a'
  | _ => []
  end.

(** The end of both list queries: the new array of [len + 1] slots, the
    copy and the terminator. *)
Definition return_infos {A : Type} (rounds : nat) (infos : list A)
    : option (list A) :=
  match copy_infos rounds infos 0 (replicate (length infos + 1) None) with
  | Some (i, ret_array) =>
      Some (ptrv_of_array (<[Z.to_nat i := None]> ret_array))
  | None => None
  end.

(** [bd_btrfs_list_devices (device)].  The result is [None] when the call
    has not returned within [rounds] rounds of its last loop. *)
Definition bd_btrfs_list_devices (rounds : nat) (P : Parsers) (W : World)
    (device : string) (error : option GError)
    : M (option (option (list BDBtrfsDeviceInfo) * option GError)) :=
  r <- bd_utils_exec_and_capture_output W
         [Some "btrfs"; Some "filesystem"; Some "show"; Some device; None]
         error ;;
  let '(success, output, error) := r in
  if negb success then ret (Some (None, error))
  else
    let lines := g_strsplit (default EmptyString output) newline 0 in
    let dev_infos :=
      match_lines P devices_regex (get_device_info_from_match P) lines [] in
    if Z.of_nat (length dev_infos) =? 0
    then ret (Some (None, g_set_error error BD_BTRFS_ERROR
                            BD_BTRFS_ERROR_PARSE
                            "Failed to parse information about devices"))
    else
      match return_infos rounds dev_infos with
      | Some infos => ret (Some (Some infos, error))
      | None => ret None
      end.

(** [bd_btrfs_list_subvolumes (mountpoint, snapshots_only)]. *)
Definition bd_btrfs_list_subvolumes (rounds : nat) (P : Parsers) (W : World)
    (mountpoint : string) (snapshots_only : bool) (error : option GError)
    : M (option (option (list BDBtrfsSubvolumeInfo) * option GError)) :=
  let argv :=
    if snapshots_only
    then [Some "btrfs"; Some "subvol"; Some "list"; Some "-p"; Some "-s";
          Some mountpoint; None]
    else [Some "btrfs"; Some "subvol"; Some "list"; Some "-p";
          Some mountpoint; None; None] in
  r <- bd_utils_exec_and_capture_output W argv error ;;
  let '(success, output, error) := r in
  if negb success then ret (Some (None, error))
  else
    let lines := g_strsplit (default EmptyString output) newline 0 in
    let subvol_infos :=
      match_lines P subvolumes_regex get_subvolume_info_from_match lines [] in
    if Z.of_nat (length subvol_infos) =? 0
    then ret (Some (None, g_set_error error BD_BTRFS_ERROR
                            BD_BTRFS_ERROR_PARSE
                            "Failed to parse information about subvolumes"))
    else
      match return_infos rounds subvol_infos with
      | Some infos => ret (Some (Some infos, error))
      | None => ret None
      end.

(** [bd_btrfs_filesystem_info (device)]. *)
Definition bd_btrfs_filesystem_info (P : Parsers) (W : World)
    (device : string) (error : option GError)
    : M (option BDBtrfsFilesystemInfo * option GError) :=
  r <- bd_utils_exec_and_capture_output W
         [Some "btrfs"; Some "filesystem"; Some "show"; Some device; None]
         error ;;
  let '(success, output, error) := r in
  if negb success then ret (None, error)
  else
    match g_regex_match P filesystem_regex (default EmptyString output) with
    | None => ret (None, error)
    | Some match_info =>
        ret (Some (get_filesystem_info_from_match P match_info), error)
    end.

(** The records of the lines that match, in the order of the lines. *)
Definition matched_infos {A : Type} (P : Parsers) (regex : GRegex)
    (get_info : GMatchInfo -> A) (lines : list string) : list A :=
  omap (fun line => get_info <$> g_regex_match P regex line) lines.

(** What a Btrfs list query returns for these records. *)
Definition btrfs_list_result {A : Type} (infos : list A) (what : string)
    : option (list A) * option GError :=
  match infos with
  | [] => (None, Some (mkGError BD_BTRFS_ERROR BD_BTRFS_ERROR_PARSE what))
  | _ => (Some infos, None)
  end.

(** A matcher for the samples: a line matches when it starts with [word];
    every group is the rest of the line. *)
Definition prefix_parsers (word : string) : Parsers :=
  mkParsers
    (fun _ line =>
       if string_prefix word line
       then let rest := string_drop (String.length word) line in
            Some (mkGMatchInfo (fun _ => rest) (fun _ => rest))
       else None)
    g_ascii_strtoull.

(** The vector [bd_btrfs_list_subvolumes] runs. *)
Definition subvolumes_vector (mountpoint : string) (snapshots_only : bool)
    : list string :=
  ["btrfs"; "subvol"; "list"; "-p"]
  ++ (if snapshots_only then ["-s"] else []) ++ [mountpoint].

(** An output of 256 device lines. *)
Definition many_devices_output : string :=
  Nat.iter 256 (fun s => "devid 1" +:+ newline +:+ s) EmptyString.

(** ** The LVM plugin: names read from a report *)

(** [g_ascii_isspace]: space, tab, newline, form feed and carriage return.
    Unlike the white space [g_ascii_strtoull] skips, it does not count the
    vertical tab. *)
Definition g_ascii_isspace (c : ascii) : bool :=
  let n := ascii_code c in
  (n =? 32) || (n =? 9) || (n =? 10) || (n =? 12) || (n =? 13).

(** [g_strchomp]: the string without its trailing white space. *)
Fixpoint g_strchomp (s : string) : string :=
  match s with
  | EmptyString => EmptyString
  | String c s' =>
      match g_strchomp s' with
      | EmptyString =>
          if g_ascii_isspace c then EmptyString else String c EmptyString
      | rest => String c rest
      end
  end.

(** [g_strchug]: the string without its leading white space. *)
Fixpoint g_strchug (s : string) : string :=
  match s with
  | String c s' => if g_ascii_isspace c then g_strchug s' else s
  | EmptyString => s
  end.

(** [g_strstrip (s)] is [g_strchomp (g_strchug (s))]. *)
Definition g_strstrip (s : string) : string := g_strchomp (g_strchug s).

(** [bd_lvm_lvorigin (vg_name, lv_name)]. *)
Definition bd_lvm_lvorigin (W : World) (vg_name lv_name : string)
    (error : option GError) : M (option string * option GError) :=
  r <- call_lvm_and_capture_output W
         [Some "lvs"; Some "--noheadings"; Some "-o"; Some "origin";
          Some (vg_name +:+ "/" +:+ lv_name); None] error ;;
  let '(success, output, error) := r in
  if negb success then ret (None, error)
  else ret (Some (g_strstrip (default EmptyString output)), error).

(** [bd_lvm_thlvpoolname (vg_name, lv_name)]. *)
Definition bd_lvm_thlvpoolname (W : World) (vg_name lv_name : string)
    (error : option GError) : M (option string * option GError) :=
  r <- call_lvm_and_capture_output W
         [Some "lvs"; Some "--noheadings"; Some "-o"; Some "pool_lv";
          Some (vg_name +:+ "/" +:+ lv_name); None] error ;;
  let '(success, output, error) := r in
  if negb success then ret (None, error)
  else ret (Some (g_strstrip (default EmptyString output)), error).

(** * Properties *)

(** ** Sample runs of the model *)

Example g_ascii_strtoull_samples :
  map g_ascii_strtoull
    ["2048"; " 42abc"; "0x1F"; "017"; ""; "x"; "0x"; "-1";
     "18446744073709551615"; "18446744073709551616"]
  = [2048; 42; 31; 15; 0; 0; 0; 2 ^ 64 - 1; 2 ^ 64 - 1; 2 ^ 64 - 1].
Proof. vm_compute. reflexivity. Qed.

(** Some runs of [bd_btrfs_create_volume]: a plain one, and what the
    [guint8] counters do to 254, 255 and 256 devices. *)
Example create_volume_runs_mkfs :
  bd_btrfs_create_volume all_present (Some ["/dev/a"; "/dev/b"]) (Some "L")
    None (Some "raid1") None st0
  = (Returns (true, None),
     mkState None [EvExec ["mkfs.btrfs"; "--label"; "L"; "--metadata"; "raid1";
                           "/dev/a"; "/dev/b"]]).
Proof. vm_compute. reflexivity. Qed.

Example create_volume_255_devices :
  fst (bd_btrfs_create_volume all_present (Some (replicate 255 "/dev/a")) None
    None None None st0) = Undefined.
Proof. vm_compute. reflexivity. Qed.

Example create_volume_256_devices :
  snd (bd_btrfs_create_volume all_present (Some (replicate 256 "/dev/a")) None
    None None None st0) = mkState None [EvExec ["mkfs.btrfs"]].
Proof. vm_compute. reflexivity. Qed.

Example create_volume_254_devices_and_label :
  fst (bd_btrfs_create_volume all_present (Some (replicate 254 "/dev/a")) (Some "L")
    None None None st0) = Undefined.
Proof. vm_compute. reflexivity. Qed.

Example create_volume_254_devices :
  exists st, (bd_btrfs_create_volume all_present (Some (replicate 254 "/dev/a")) None
    None None None st0) = (Returns (true, None), st).
Proof. vm_compute. eexists. reflexivity. Qed.

(** ** Strings *)

Lemma append_nil_l (s : string) : EmptyString +:+ s = s.
Proof. reflexivity. Qed.

Lemma append_cons (c : ascii) (a b : string) :
  String c a +:+ b = String c (a +:+ b).
Proof. reflexivity. Qed.

Lemma append_nil_r (s : string) : s +:+ EmptyString = s.
Proof.
  induction s as [|c s IH]; [reflexivity|].
  now rewrite append_cons, IH.
Qed.

Lemma append_assoc (a b c : string) : (a +:+ b) +:+ c = a +:+ (b +:+ c).
Proof.
  induction a as [|x a IH]; [reflexivity|].
  now rewrite !append_cons, IH.
Qed.

Lemma append_snoc (a : string) (c : ascii) (b : string) :
  (a +:+ String c EmptyString) +:+ b = a +:+ String c b.
Proof. now rewrite append_assoc. Qed.

Lemma split_at_nonempty (f : ascii -> bool) (s : string) :
  split_at f s <> [].
Proof.
  destruct s as [|c s]; simpl; [discriminate|].
  destruct (f c); [discriminate|].
  destruct (split_at f s); discriminate.
Qed.

(** [split_at] cuts at the delimiters and nowhere else: the pieces hold no
    delimiter, and put back together with the delimiters that separated
    them they give the text. *)
Lemma split_at_join (f : ascii -> bool) (s : string) :
  exists seps,
    Forall (fun c => f c = true) seps
    /\ length (split_at f s) = S (length seps)
    /\ join_tokens (split_at f s) seps = s
    /\ Forall (fun t => string_forallb (fun c => negb (f c)) t = true)
         (split_at f s).
Proof.
  induction s as [|c s (seps & Hseps & Hlen & Hjoin & Htok)].
  - exists []. cbn. repeat split; auto.
  - cbn [split_at]. destruct (f c) eqn:Hc.
    + exists (c :: seps). split; [now constructor|]. split; [cbn; lia|].
      split; [|now constructor].
      cbn [join_tokens]. now rewrite append_nil_l, Hjoin.
    + destruct (split_at f s) as [|t ts] eqn:E;
        [now apply split_at_nonempty in E|].
      exists seps. split; [assumption|]. split; [assumption|]. split.
      * destruct seps as [|x seps]; cbn [join_tokens] in *.
        -- now rewrite Hjoin.
        -- now rewrite append_cons, Hjoin.
      * inversion Htok as [|? ? Ht Hts]; subst. constructor; [|assumption].
        cbn [string_forallb]. now rewrite Hc, Ht.
Qed.

Lemma char_in_lvm_delimiters (c : ascii) :
  char_in c lvm_delimiters = spec_is_whitespace c.
Proof.
  unfold lvm_delimiters, spec_is_whitespace; simpl.
  now rewrite orb_false_r, orb_assoc.
Qed.

(** The scan of [g_strsplit_set] continues the current token with the first
    piece of the rest. *)
Lemma scan_split_at (s cur : string) (n : Z) :
  g_strsplit_set_scan lvm_delimiters true 0 n cur s =
  match spec_tokens s with
  | t :: ts => (cur +:+ t) :: ts
  | [] => [cur]
  end.
Proof.
  revert cur n. unfold spec_tokens.
  induction s as [|c s IH]; intros cur n; cbn [g_strsplit_set_scan split_at].
  - now rewrite append_nil_r.
  - rewrite char_in_lvm_delimiters.
    destruct (spec_is_whitespace c); cbn [andb orb].
    + rewrite IH, append_nil_r.
      destruct (split_at spec_is_whitespace s) eqn:E; [|reflexivity].
      now apply split_at_nonempty in E.
    + rewrite IH.
      destruct (split_at spec_is_whitespace s) eqn:E.
      * now apply split_at_nonempty in E.
      * now rewrite append_snoc.
Qed.

Lemma g_strsplit_set_tokens (s : string) :
  s <> EmptyString -> g_strsplit_set s lvm_delimiters 0 = spec_tokens s.
Proof.
  intros Hs. destruct s as [|c s]; [congruence|].
  unfold g_strsplit_set. change (0 <? 1) with true.
  rewrite scan_split_at.
  destruct (spec_tokens (String c s)) eqn:E; [|reflexivity].
  now apply split_at_nonempty in E.
Qed.

(** ** Tokens, keys and values *)

Lemma strstr_key_value (s : string) : strstr s "=" = spec_key_value s.
Proof.
  induction s as [|c s IH]; [reflexivity|].
  cbn [strstr spec_key_value string_prefix String.length string_drop].
  rewrite IH, andb_true_r.
  destruct (decide ("="%char = c)) as [<-|Hne].
  - now rewrite !bool_decide_eq_true_2.
  - rewrite !bool_decide_eq_false_2; [reflexivity| |]; congruence.
Qed.

Lemma g_strsplit_loop_last (rounds : nat) (delimiter s : string) :
  g_strsplit_loop rounds delimiter false 1 s = [s].
Proof.
  destruct rounds; [reflexivity|]. cbn [g_strsplit_loop].
  now destruct (strstr s delimiter) as [[? ?]|].
Qed.

(** [g_strsplit (token, "=", 2)] has two strings exactly when the token has
    an [=]: the text before the first and the text after it. *)
Lemma g_strsplit_key_value (token : string) :
  g_strsplit token "=" 2 =
  match token with
  | EmptyString => []
  | _ => match spec_key_value token with
         | Some (k, v) => [k; v]
         | None => [token]
         end
  end.
Proof.
  destruct token as [|c t]; [reflexivity|].
  unfold g_strsplit. cbn [String.length g_strsplit_loop].
  rewrite strstr_key_value.
  destruct (spec_key_value (String c t)) as [[k v]|]; [|reflexivity].
  change (negb (2 <? 1) && (2 - 1 =? 0)) with false. cbv iota.
  change (2 <? 1) with false. change (2 - 1) with 1.
  now rewrite g_strsplit_loop_last.
Qed.

Lemma parse_lvm_vars_step_spec (acc : gmap string string * Z)
    (token : string) :
  parse_lvm_vars_step acc token =
  match spec_key_value token with
  | Some (k, v) => (<[k := v]> (fst acc), guint_wrap (snd acc + 1))
  | None => acc
  end.
Proof.
  unfold parse_lvm_vars_step. rewrite g_strsplit_key_value.
  destruct token as [|c t]; [reflexivity|].
  now destruct (spec_key_value (String c t)) as [[k v]|].
Qed.

Lemma guint_wrap_succ (n : Z) :
  guint_wrap (guint_wrap n + 1) = guint_wrap (n + 1).
Proof. unfold guint_wrap. now rewrite Z.add_mod_idemp_l. Qed.

Lemma fold_parse_lvm_vars_step (tokens : list string)
    (m : gmap string string) (n : Z) :
  fold_left parse_lvm_vars_step tokens (m, guint_wrap n) =
  (fold_left insert_item (omap spec_key_value tokens) m,
   guint_wrap (n + Z.of_nat (length (omap spec_key_value tokens)))).
Proof.
  revert m n. induction tokens as [|t ts IH]; intros m n.
  - cbn. now rewrite Z.add_0_r.
  - cbn [fold_left omap list_omap]. rewrite parse_lvm_vars_step_spec.
    destruct (spec_key_value t) as [[k v]|]; cbn [fst snd].
    + rewrite guint_wrap_succ, IH. cbn [fold_left length].
      unfold insert_item at 2; cbn [fst snd].
      f_equal. f_equal. lia.
    + apply IH.
Qed.

Lemma fold_insert_item_snoc (items : list (string * string))
    (kv : string * string) (m : gmap string string) :
  fold_left insert_item (items ++ [kv]) m
  = insert_item (fold_left insert_item items m) kv.
Proof. now rewrite fold_left_app. Qed.

Lemma fold_insert_item_table (items : list (string * string)) :
  fold_left insert_item items ∅ = spec_table items.
Proof.
  unfold spec_table.
  induction items as [|kv items IH] using rev_ind; [reflexivity|].
  rewrite fold_insert_item_snoc, IH, reverse_app. reflexivity.
Qed.

(** The parser computes the table and the count of the design. *)
Lemma parse_lvm_vars_items (line : string) :
  parse_lvm_vars line =
  (spec_table (spec_items line),
   guint_wrap (Z.of_nat (length (spec_items line)))).
Proof.
  unfold parse_lvm_vars, spec_items.
  destruct line as [|c s].
  - reflexivity.
  - rewrite g_strsplit_set_tokens by discriminate.
    change (∅, 0) with (∅ : gmap string string, guint_wrap 0).
    rewrite fold_parse_lvm_vars_step, fold_insert_item_table.
    reflexivity.
Qed.

Lemma spec_key_value_Some (token k v : string) :
  spec_key_value token = Some (k, v) <->
  token = k +:+ "=" +:+ v /\ char_in "=" k = false.
Proof.
  revert k. induction token as [|c t IH]; intros k; cbn [spec_key_value].
  - split; [discriminate|]. intros [H _].
    destruct k; rewrite ?append_cons, ?append_nil_l in H; discriminate.
  - destruct (decide (c = "="%char)) as [->|Hne].
    + rewrite bool_decide_eq_true_2 by reflexivity. split.
      * intros [= <- <-]. split; reflexivity.
      * intros [H Hk]. destruct k as [|d k];
          rewrite ?append_cons, ?append_nil_l in H.
        -- now injection H as <-.
        -- injection H as <- _.
           cbn in Hk. now rewrite bool_decide_eq_true_2 in Hk.
    + rewrite bool_decide_eq_false_2 by assumption. split.
      * destruct (spec_key_value t) as [[k' v']|] eqn:E; [|discriminate].
        intros [= <- <-]. destruct (proj1 (IH k') eq_refl) as [-> Hk'].
        split; [reflexivity|]. cbn [char_in].
        rewrite bool_decide_eq_false_2 by congruence. exact Hk'.
      * intros [H Hk]. destruct k as [|d k];
          rewrite ?append_cons, ?append_nil_l in H.
        -- injection H as -> _. congruence.
        -- injection H as <- ->.
           cbn [char_in] in Hk. apply orb_false_iff in Hk as [_ Hk].
           now rewrite (proj2 (IH k) (conj eq_refl Hk)).
Qed.

Lemma spec_key_value_None (token : string) :
  spec_key_value token = None <-> char_in "=" token = false.
Proof.
  induction token as [|c t IH]; cbn [spec_key_value char_in].
  - split; reflexivity.
  - destruct (decide (c = "="%char)) as [->|Hne].
    + rewrite !bool_decide_eq_true_2 by reflexivity. split; discriminate.
    + rewrite bool_decide_eq_false_2 by assumption.
      rewrite bool_decide_eq_false_2 by congruence. cbn [orb].
      destruct (spec_key_value t) as [[k v]|].
      * split; [discriminate|]. intros H. apply IH in H. discriminate.
      * split; [|reflexivity]. intros _. now apply IH.
Qed.

(** The pairs of a line are the tokens with an [=], cut at the first one. *)
Lemma spec_items_tokens (line k v : string) :
  (k, v) ∈ spec_items line <->
  exists token, token ∈ spec_tokens line
    /\ token = k +:+ "=" +:+ v /\ char_in "=" k = false.
Proof.
  unfold spec_items. rewrite list_elem_of_omap.
  split; intros (token & Hin & H); exists token; split; try assumption.
  - now apply spec_key_value_Some.
  - now apply spec_key_value_Some.
Qed.

Lemma fold_insert_item_other (items : list (string * string))
    (m : gmap string string) (k : string) :
  k ∉ items.*1 -> fold_left insert_item items m !! k = m !! k.
Proof.
  revert m. induction items as [|[k' v'] items IH]; intros m Hk.
  - reflexivity.
  - cbn [fold_left]. rewrite IH by set_solver.
    unfold insert_item; cbn [fst snd]. apply lookup_insert_ne. set_solver.
Qed.

(** A later pair replaces an earlier one with the same key. *)
Lemma spec_table_last (items1 items2 : list (string * string))
    (k v : string) :
  k ∉ items2.*1 ->
  spec_table (items1 ++ (k, v) :: items2) !! k = Some v.
Proof.
  intros Hk. rewrite <- fold_insert_item_table, fold_left_app.
  cbn [fold_left]. rewrite fold_insert_item_other by assumption.
  unfold insert_item; cbn [fst snd]. apply lookup_insert_eq.
Qed.

Lemma spec_table_absent (items : list (string * string)) (k : string) :
  k ∉ items.*1 -> spec_table items !! k = None.
Proof.
  intros Hk. rewrite <- fold_insert_item_table.
  now rewrite fold_insert_item_other.
Qed.

Lemma pv_line_items :
  spec_items pv_line =
  [("LVM2_PV_NAME", "/dev/sda1"); ("LVM2_PV_UUID", "abc");
   ("LVM2_PE_START", "2048")].
Proof. reflexivity. Qed.

(** ** The output parser *)

(** C2.  For every line, [parse_lvm_vars] returns the table built from the
    tokens between white space (the pieces that hold no space, tab or
    newline and that, joined by the white space between them, make the
    line) that contain an [=], each cut at its first [=] into key and value,
    a later token replacing an earlier one with the same key; tokens without
    [=] leave no trace.  The line of the design's
    example gives exactly the three keys with their literal values and a
    count of 3, its trailing empty token notwithstanding. *)
Theorem parse_lvm_vars_tokens :
  (forall line,
     fst (parse_lvm_vars line) = spec_table (spec_items line))
  /\ (forall line, exists seps,
        Forall (fun c => spec_is_whitespace c = true) seps
        /\ length (spec_tokens line) = S (length seps)
        /\ join_tokens (spec_tokens line) seps = line
        /\ Forall (fun t => string_forallb
                              (fun c => negb (spec_is_whitespace c)) t = true)
             (spec_tokens line))
  /\ (forall line k v,
        (k, v) ∈ spec_items line <->
        exists token, token ∈ spec_tokens line
          /\ token = k +:+ "=" +:+ v /\ char_in "=" k = false)
  /\ (forall line items1 k v items2,
        spec_items line = items1 ++ (k, v) :: items2 ->
        k ∉ items2.*1 ->
        fst (parse_lvm_vars line) !! k = Some v)
  /\ (forall line k,
        k ∉ (spec_items line).*1 -> fst (parse_lvm_vars line) !! k = None)
  /\ spec_tokens pv_line =
       ["LVM2_PV_NAME=/dev/sda1"; "LVM2_PV_UUID=abc"; "LVM2_PE_START=2048";
        EmptyString]
  /\ parse_lvm_vars pv_line =
       (<["LVM2_PE_START" := "2048"]>
          (<["LVM2_PV_UUID" := "abc"]>
             (<["LVM2_PV_NAME" := "/dev/sda1"]> ∅)), 3)
  /\ size (fst (parse_lvm_vars pv_line)) = 3%nat.
Proof.
  assert (Hpv : parse_lvm_vars pv_line =
       (<["LVM2_PE_START" := "2048"]>
          (<["LVM2_PV_UUID" := "abc"]>
             (<["LVM2_PV_NAME" := "/dev/sda1"]> ∅)), 3)).
  { rewrite parse_lvm_vars_items, pv_line_items. reflexivity. }
  split; [|split; [|split; [|split; [|split; [|split; [|split]]]]]].
  - intros line. now rewrite parse_lvm_vars_items.
  - intros line. apply split_at_join.
  - apply spec_items_tokens.
  - intros line items1 k v items2 Hitems Hk.
    rewrite parse_lvm_vars_items. cbn [fst]. rewrite Hitems.
    now apply spec_table_last.
  - intros line k Hk. rewrite parse_lvm_vars_items. cbn [fst].
    now apply spec_table_absent.
  - reflexivity.
  - exact Hpv.
  - rewrite Hpv. cbn [fst].
    rewrite !map_size_insert_None, map_size_empty; try reflexivity;
      rewrite ?lookup_insert_ne by discriminate; apply lookup_empty.
Qed.

Lemma parse_lvm_vars_tokens_witness :
  fst (parse_lvm_vars "a=1 b a=2=3") !! "a" = Some "2=3".
Proof.
  destruct parse_lvm_vars_tokens as (_ & _ & _ & Hlast & _).
  apply (Hlast "a=1 b a=2=3" [("a", "1")] "a" "2=3" []).
  - reflexivity.
  - cbn. apply not_elem_of_nil.
Defined.

(** ** Counting keys *)

Lemma size_list_to_set_le (l : list string) :
  (size (list_to_set l : gset string) <= length l)%nat.
Proof.
  induction l as [|x l IH].
  { change (list_to_set [] : gset string) with (∅ : gset string).
    now rewrite size_empty. }
  rewrite list_to_set_cons. cbn [length].
  rewrite size_union_alt, size_singleton.
  assert (size (list_to_set l ∖ {[x]} : gset string)
          <= size (list_to_set l : gset string))%nat
    by (apply subseteq_size; set_solver).
  lia.
Qed.

Lemma size_list_to_set_dup (l : list string) :
  ~ NoDup l -> (size (list_to_set l : gset string) < length l)%nat.
Proof.
  induction l as [|x l IH]; intros Hdup.
  - destruct Hdup. constructor.
  - rewrite list_to_set_cons. cbn [length].
    destruct (decide (x ∈ l)) as [Hin|Hnin].
    + replace ({[x]} ∪ list_to_set l : gset string)
        with (list_to_set l : gset string) by set_solver.
      pose proof (size_list_to_set_le l). lia.
    + assert (~ NoDup l) as Hl
        by (intros Hl; apply Hdup; now constructor).
      specialize (IH Hl).
      rewrite size_union by set_solver. rewrite size_singleton. lia.
Qed.

Lemma size_spec_table (items : list (string * string)) :
  size (spec_table items)
  = size (list_to_set (reverse items).*1 : gset string).
Proof.
  unfold spec_table. now rewrite <- size_dom, dom_list_to_map_L.
Qed.

Lemma size_spec_table_le (items : list (string * string)) :
  (size (spec_table items) <= length items)%nat.
Proof.
  rewrite size_spec_table.
  etransitivity; [apply size_list_to_set_le|].
  now rewrite length_fmap, length_reverse.
Qed.

Lemma size_spec_table_dup (items : list (string * string)) :
  ~ NoDup items.*1 -> (size (spec_table items) < length items)%nat.
Proof.
  intros Hdup. rewrite size_spec_table.
  replace (length items) with (length (reverse items).*1)
    by now rewrite length_fmap, length_reverse.
  apply size_list_to_set_dup.
  rewrite fmap_reverse, reverse_Permutation. exact Hdup.
Qed.

(** C8.  The count [parse_lvm_vars] reports is the number of tokens with an
    [=], every one of them counted again when its key repeats (up to the
    range of [guint]); the table never has more keys than that, and it has
    strictly fewer as soon as one key occurs twice.  A line that repeats a
    key can so meet the size of a schema, here the eight fields
    [bd_lvm_vginfo] waits for, with a table of a single key. *)
Theorem parse_lvm_vars_count_repeated_keys (line : string) :
  Z.of_nat (length (spec_items line)) < 2 ^ 32 ->
  snd (parse_lvm_vars line) = Z.of_nat (length (spec_items line))
  /\ Z.of_nat (size (fst (parse_lvm_vars line))) <= snd (parse_lvm_vars line)
  /\ ((exists i j k, i <> j /\ (spec_items line).*1 !! i = Some k
                     /\ (spec_items line).*1 !! j = Some k) ->
      Z.of_nat (size (fst (parse_lvm_vars line)))
      < snd (parse_lvm_vars line))
  /\ (snd (parse_lvm_vars repeated_key_line) = 8
      /\ size (fst (parse_lvm_vars repeated_key_line)) = 1%nat
      /\ bd_lvm_vginfo_lines [repeated_key_line] None
         = (Some (get_vg_data_from_table
                    (fst (parse_lvm_vars repeated_key_line))), None)).
Proof.
  intros Hrange. rewrite parse_lvm_vars_items. cbn [fst snd].
  unfold guint_wrap. rewrite Z.mod_small by lia.
  split; [reflexivity|]. split; [|split].
  - pose proof (size_spec_table_le (spec_items line)). lia.
  - intros (i & j & k & Hij & Hi & Hj).
    assert (~ NoDup (spec_items line).*1) as Hdup.
    { intros Hnd. apply Hij.
      exact (proj1 (NoDup_alt _) Hnd i j k Hi Hj). }
    pose proof (size_spec_table_dup _ Hdup). lia.
  - assert (Hp : parse_lvm_vars repeated_key_line
                 = (<["LVM2_VG_NAME" := "h"]> ∅, 8)).
    { rewrite parse_lvm_vars_items.
      change (spec_items repeated_key_line)
        with ((fun v : string => ("LVM2_VG_NAME", v))
                <$> ["a"; "b"; "c"; "d"; "e"; "f"; "g"; "h"]).
      rewrite <- fold_insert_item_table. cbn [fmap list_fmap fold_left].
      unfold insert_item; cbn [fst snd].
      rewrite !insert_insert_eq. reflexivity. }
    cbn [bd_lvm_vginfo_lines]. rewrite Hp. cbn [fst snd].
    split; [reflexivity|]. split; [|reflexivity].
    now rewrite map_size_insert_None, map_size_empty by apply lookup_empty.
Qed.

Lemma parse_lvm_vars_count_repeated_keys_witness :
  Z.of_nat (size (fst (parse_lvm_vars "k=1 k=2")))
  < snd (parse_lvm_vars "k=1 k=2").
Proof.
  assert (Z.of_nat (length (spec_items "k=1 k=2")) < 2 ^ 32) as Hrange
    by (vm_compute; reflexivity).
  destruct (parse_lvm_vars_count_repeated_keys "k=1 k=2" Hrange)
    as (_ & _ & Hdup & _).
  apply Hdup. exists 0%nat, 1%nat, "k". repeat split. discriminate.
Defined.

(** ** The wrappers and the global configuration *)

Lemma strv_of_array_terminated (args : list string)
    (rest : list (option string)) :
  strv_of_array (map Some args ++ None :: rest) = args.
Proof. induction args as [|a args IH]; cbn; [reflexivity | now f_equal]. Qed.

Lemma take_strv_of_array (a : list (option string)) :
  take (length (strv_of_array a)) a = map Some (strv_of_array a).
Proof.
  induction a as [|[s|] a IH]; cbn; [reflexivity | now f_equal | reflexivity].
Qed.

Lemma strv_of_array_app (l : list string) (a : list (option string)) :
  strv_of_array (map Some l ++ a) = l ++ strv_of_array a.
Proof. induction l as [|x l IH]; cbn; [reflexivity | now f_equal]. Qed.

(** The vector the wrappers run: ["lvm"], the arguments, and the config
    argument when the global string is set. *)
Lemma lvm_vector_eq (st : State) (args : list (option string)) :
  lvm_vector st args =
  "lvm" :: strv_of_array args ++
    match global_config_str st with
    | Some c => ["--config=" +:+ c]
    | None => []
    end.
Proof.
  unfold lvm_vector, build_lvm_argv, g_strv_length.
  rewrite Nat2Z.id, take_strv_of_array.
  cbn [app strv_of_array]. f_equal.
  rewrite strv_of_array_app. f_equal.
  now destruct (global_config_str st).
Qed.

Lemma call_lvm_and_report_error_run (W : World) (args : list (option string))
    (error : option GError) (st : State) :
  call_lvm_and_report_error W args error st =
  (report_outcome (spawn W (lvm_vector st args)) error,
   mkState (global_config_str st)
     (trace st ++ [EvLock; EvRead (global_config_str st);
                   EvExec (lvm_vector st args); EvUnlock])).
Proof.
  unfold call_lvm_and_report_error, bd_utils_exec_and_report_error,
    g_spawn_sync, g_mutex_lock, g_mutex_unlock, read_global_config_str,
    emit, bind, ret, lvm_vector.
  cbn. now rewrite <- !app_assoc.
Qed.

Lemma call_lvm_and_capture_output_run (W : World)
    (args : list (option string)) (error : option GError) (st : State) :
  call_lvm_and_capture_output W args error st =
  (capture_outcome (spawn W (lvm_vector st args)) error,
   mkState (global_config_str st)
     (trace st ++ [EvLock; EvRead (global_config_str st);
                   EvExec (lvm_vector st args); EvUnlock])).
Proof.
  unfold call_lvm_and_capture_output, bd_utils_exec_and_capture_output,
    g_spawn_sync, g_mutex_lock, g_mutex_unlock, read_global_config_str,
    emit, bind, ret, lvm_vector.
  cbn. now rewrite <- !app_assoc.
Qed.

(** C1, as the code has it.  For every vector [args] (in an array with any
    slots after its terminator), both wrappers take the lock, only then
    read the global string to build the vector, run exactly ["lvm"], the
    elements of [args] in order and then ["--config=<config>"] when the
    global string is set (to any string, the empty one included: the test
    is the one for [NULL]) and nothing more when it is not, and release the
    lock after the run: the events of a call are the lock, the read, the
    run and the unlock, in this order.  They return what the executor
    returns and leave the global string as it is.  The global string is
    whatever the last call of the setter passed. *)
Theorem call_lvm_config_injection (W : World) (args : list string)
    (rest : list (option string)) (error : option GError) (st : State) :
  let array := map Some args ++ None :: rest in
  let vector := "lvm" :: args ++
                match global_config_str st with
                | Some c => ["--config=" +:+ c]
                | None => []
                end in
  call_lvm_and_report_error W array error st
  = (report_outcome (spawn W vector) error,
     mkState (global_config_str st)
       (trace st ++ [EvLock; EvRead (global_config_str st); EvExec vector;
                     EvUnlock]))
  /\ call_lvm_and_capture_output W array error st
     = (capture_outcome (spawn W vector) error,
        mkState (global_config_str st)
          (trace st ++ [EvLock; EvRead (global_config_str st);
                        EvExec vector; EvUnlock]))
  /\ (forall new_config e st',
        global_config_str (snd (bd_lvm_set_global_config new_config e st'))
        = new_config).
Proof.
  cbn zeta.
  rewrite call_lvm_and_report_error_run, call_lvm_and_capture_output_run.
  rewrite lvm_vector_eq, strv_of_array_terminated.
  repeat split.
Qed.

(** C1 as stated fails once the configuration is set to the empty string:
    the wrappers then pass the extra argument ["--config="]. *)
Lemma call_lvm_config_injection_claim_fails :
  ~ config_injection_claim all_present
      (snd (bd_lvm_set_global_config (Some EmptyString) None st0))
      ["pvscan"].
Proof.
  unfold config_injection_claim. intros [H _].
  rewrite call_lvm_and_report_error_run, lvm_vector_eq in H.
  vm_compute in H. discriminate H.
Qed.

(** C6.  After [bd_lvm_set_global_config (s)] the getter returns [s]; after
    [bd_lvm_set_global_config (NULL)] it returns the empty string. *)
Theorem global_config_round_trip (s : string) (error : option GError)
    (st : State) :
  fst (bd_lvm_get_global_config
         (snd (bd_lvm_set_global_config (Some s) error st))) = s
  /\ fst (bd_lvm_get_global_config
            (snd (bd_lvm_set_global_config None error st))) = EmptyString.
Proof. split; reflexivity. Qed.

(** C10.  [bd_lvm_set_global_config] returns [TRUE] for every argument and
    leaves the caller's error location as it found it. *)
Theorem bd_lvm_set_global_config_infallible (new_config : option string)
    (error : option GError) (st : State) :
  bd_lvm_set_global_config new_config error st
  = ((true, error),
     mkState new_config (trace st ++ [EvLock; EvUnlock])).
Proof.
  unfold bd_lvm_set_global_config, bind, ret, g_mutex_lock, g_mutex_unlock,
    write_global_config_str, emit, g_strdup.
  cbn. now rewrite <- app_assoc.
Qed.

(** ** Lines of an output *)

Lemma strstr_newline (s : string) :
  match strstr s newline with
  | Some (before, after) =>
      split_at is_newline s = before :: split_at is_newline after
      /\ (String.length after < String.length s)%nat
  | None => split_at is_newline s = [s]
  end.
Proof.
  induction s as [|c s IH]; [reflexivity|].
  unfold newline in *.
  cbn [strstr string_prefix String.length string_drop split_at].
  rewrite andb_true_r.
  destruct (decide ("010"%char = c)) as [<-|Hne].
  - rewrite bool_decide_eq_true_2 by reflexivity.
    change (is_newline "010") with true. split; [reflexivity|lia].
  - rewrite bool_decide_eq_false_2 by assumption.
    assert (is_newline c = false) as ->
      by (apply bool_decide_eq_false_2; congruence).
    destruct (strstr s (String "010" EmptyString)) as [[b a]|].
    + destruct IH as [-> Hlen]. split; [reflexivity|lia].
    + now rewrite IH.
Qed.

Lemma g_strsplit_loop_lines (rounds : nat) (max_tokens : Z) (s : string) :
  (String.length s <= rounds)%nat ->
  g_strsplit_loop rounds newline true max_tokens s = split_at is_newline s.
Proof.
  revert max_tokens s.
  induction rounds as [|rounds IH]; intros max_tokens s Hlen.
  - destruct s; [reflexivity | cbn in Hlen; lia].
  - cbn [g_strsplit_loop]. pose proof (strstr_newline s) as H.
    destruct (strstr s newline) as [[b a]|].
    + destruct H as [-> Hlt]. cbn [negb andb]. f_equal. apply IH. lia.
    + now rewrite H.
Qed.

Lemma g_strsplit_lines (output : string) :
  output <> EmptyString -> g_strsplit output newline 0 = spec_lines output.
Proof.
  intros Hne. unfold g_strsplit, spec_lines.
  destruct output as [|c s]; [congruence|].
  change (0 <? 1) with true. now apply g_strsplit_loop_lines.
Qed.

(** ** List-all queries *)

Ltac list_all_cases :=
  unfold bind, ret; rewrite call_lvm_and_capture_output_run;
  match goal with
  | |- context [spawn ?W ?v] => destruct (spawn W v) as [status out err|reason]
  end;
  unfold list_all_contract; cbn [capture_outcome default];
  (split; [|split]);
  [ intros err' [= -> -> _]; reflexivity
  | intros status' out' err' [= <- <- <-] Hstatus;
    apply Z.eqb_neq in Hstatus; rewrite Hstatus; reflexivity
  | intros reason' [=]
  | intros err' [=]
  | intros status' out' err' [=]
  | intros reason' [= <-]; reflexivity ].

Ltac list_all_null :=
  unfold bind, ret; rewrite call_lvm_and_capture_output_run;
  match goal with
  | |- context [spawn ?W ?v] => destruct (spawn W v) as [status out err|reason]
  end;
  cbn [command_fails capture_outcome default];
  [ intros [Hstatus | ->];
    [ apply Z.eqb_neq in Hstatus; rewrite Hstatus; reflexivity
    | match goal with
      | |- context [?s =? 0] => destruct (s =? 0)
      end; reflexivity ]
  | intros _; reflexivity ].

(** C3.  With a location for the error, empty on entry: when the command
    of [bd_lvm_pvs], [bd_lvm_vgs] or [bd_lvm_lvs] exits with status 0 and
    prints nothing, the call clears the error and returns the empty array;
    when it exits with another status, or cannot be started, the call
    returns [NULL] and hands over the error of the executor.  With [NULL]
    for the location, which a caller may pass: on each of these failures
    the call dereferences the [NULL] pointer instead. *)
Theorem list_all_no_output (W : World) (st : State)
    (vg_name : option string) :
  (list_all_contract (spawn W (lvm_vector st (pvs_query ++ [None])))
     (fst (bd_lvm_pvs W (Some None) st))
   /\ list_all_contract (spawn W (lvm_vector st (vgs_query ++ [None])))
        (fst (bd_lvm_vgs W (Some None) st))
   /\ list_all_contract
        (spawn W (lvm_vector st (lvs_query ++ [vg_name; None])))
        (fst (bd_lvm_lvs W vg_name (Some None) st)))
  /\ (command_fails (spawn W (lvm_vector st (pvs_query ++ [None]))) ->
      fst (bd_lvm_pvs W None st) = Undefined)
  /\ (command_fails (spawn W (lvm_vector st (vgs_query ++ [None]))) ->
      fst (bd_lvm_vgs W None st) = Undefined)
  /\ (command_fails
        (spawn W (lvm_vector st (lvs_query ++ [vg_name; None]))) ->
      fst (bd_lvm_lvs W vg_name None st) = Undefined).
Proof.
  split; [split; [|split] | split; [|split]].
  - unfold bd_lvm_pvs. list_all_cases.
  - unfold bd_lvm_vgs. list_all_cases.
  - unfold bd_lvm_lvs. list_all_cases.
  - unfold bd_lvm_pvs. list_all_null.
  - unfold bd_lvm_vgs. list_all_null.
  - unfold bd_lvm_lvs. list_all_null.
Qed.

Lemma list_all_no_output_witness :
  fst (bd_lvm_pvs (printing EmptyString) (Some None) st0)
  = Returns (Some [], None)
  /\ fst (bd_lvm_pvs (printing EmptyString) None st0) = Undefined.
Proof.
  destruct (list_all_no_output (printing EmptyString) st0 None)
    as [[[Hnone _] _] [Hnull _]].
  split.
  - apply (Hnone EmptyString). reflexivity.
  - apply Hnull. right. reflexivity.
Defined.

(** ** Fetch-one queries *)

Lemma spec_first_record_cons (schema : Z) (line : string)
    (lines : list string) :
  spec_first_record schema (line :: lines) =
  if snd (parse_lvm_vars line) =? schema
  then Some (fst (parse_lvm_vars line))
  else spec_first_record schema lines.
Proof.
  unfold spec_first_record. cbn [List.find].
  now destruct (snd (parse_lvm_vars line) =? schema).
Qed.

Lemma bd_lvm_pvinfo_lines_first (lines : list string) :
  bd_lvm_pvinfo_lines lines None =
  match spec_first_record 11 lines with
  | Some table => (Some (get_pv_data_from_table table), None)
  | None => (None, parse_error "Failed to parse information about the PV")
  end.
Proof.
  induction lines as [|line lines IH]; [reflexivity|].
  cbn [bd_lvm_pvinfo_lines]. rewrite spec_first_record_cons.
  destruct (parse_lvm_vars line) as [table n]. cbn [fst snd].
  now destruct (n =? 11).
Qed.

Lemma bd_lvm_vginfo_lines_first (lines : list string) :
  bd_lvm_vginfo_lines lines None =
  match spec_first_record 8 lines with
  | Some table => (Some (get_vg_data_from_table table), None)
  | None => (None, parse_error "Failed to parse information about the VG")
  end.
Proof.
  induction lines as [|line lines IH]; [reflexivity|].
  cbn [bd_lvm_vginfo_lines]. rewrite spec_first_record_cons.
  destruct (parse_lvm_vars line) as [table n]. cbn [fst snd].
  now destruct (n =? 8).
Qed.

Lemma bd_lvm_lvinfo_lines_first (lines : list string) :
  bd_lvm_lvinfo_lines lines None =
  match spec_first_record 6 lines with
  | Some table => (Some (get_lv_data_from_table table), None)
  | None => (None, parse_error "Failed to parse information about the LV")
  end.
Proof.
  induction lines as [|line lines IH]; [reflexivity|].
  cbn [bd_lvm_lvinfo_lines]. rewrite spec_first_record_cons.
  destruct (parse_lvm_vars line) as [table n]. cbn [fst snd].
  now destruct (n =? 6).
Qed.

(** The first record is the one of the first line with the right count;
    the lines after it play no part. *)
Lemma spec_first_record_found (schema : Z) (before after : list string)
    (line : string) :
  Forall (fun l => snd (parse_lvm_vars l) <> schema) before ->
  snd (parse_lvm_vars line) = schema ->
  spec_first_record schema (before ++ line :: after)
  = Some (fst (parse_lvm_vars line)).
Proof.
  intros Hbefore Hline. induction Hbefore as [|l before Hl _ IH].
  - cbn [app]. rewrite spec_first_record_cons.
    now rewrite (proj2 (Z.eqb_eq _ _) Hline).
  - cbn [app]. rewrite spec_first_record_cons.
    now rewrite (proj2 (Z.eqb_neq _ _) Hl).
Qed.

Lemma spec_first_record_none (schema : Z) (lines : list string) :
  Forall (fun l => snd (parse_lvm_vars l) <> schema) lines ->
  spec_first_record schema lines = None.
Proof.
  induction 1 as [|l lines Hl _ IH]; [reflexivity|].
  rewrite spec_first_record_cons.
  now rewrite (proj2 (Z.eqb_neq _ _) Hl).
Qed.

Lemma capture_outcome_success (out err : string) (error : option GError) :
  out <> EmptyString ->
  capture_outcome (ProcExited 0 out err) error = (true, Some out, error).
Proof.
  intros Hne. cbn. now rewrite bool_decide_eq_false_2.
Qed.

(** The hash table of a line holds, for every key, the value the line
    gives to it. *)
Lemma spec_table_value (items : list (string * string)) (key : string) :
  spec_table items !! key = spec_value items key.
Proof.
  induction items as [|[k v] items IH]; [apply lookup_empty|].
  unfold spec_table in *. rewrite reverse_cons, list_to_map_app, lookup_union.
  rewrite IH. cbn [spec_value].
  change (list_to_map [(k, v)] : gmap string string)
    with (<[k:=v]> (∅ : gmap string string)).
  destruct (spec_value items key) as [v'|].
  - now destruct (<[k:=v]> (∅ : gmap string string) !! key).
  - rewrite (left_id_L None _). case_bool_decide as Hk.
    + subst. apply lookup_insert_eq.
    + rewrite lookup_insert_ne by assumption. apply lookup_empty.
Qed.

Lemma get_pv_data_from_table_record (line : string) :
  get_pv_data_from_table (fst (parse_lvm_vars line))
  = pv_record (spec_items line).
Proof.
  rewrite parse_lvm_vars_items. cbn [fst].
  unfold get_pv_data_from_table, pv_record, lookup_guint64, spec_number,
    g_strdup.
  now rewrite !spec_table_value.
Qed.

Lemma get_vg_data_from_table_record (line : string) :
  get_vg_data_from_table (fst (parse_lvm_vars line))
  = vg_record (spec_items line).
Proof.
  rewrite parse_lvm_vars_items. cbn [fst].
  unfold get_vg_data_from_table, vg_record, lookup_guint64, spec_number,
    g_strdup.
  now rewrite !spec_table_value.
Qed.

Lemma get_lv_data_from_table_record (line : string) :
  get_lv_data_from_table (fst (parse_lvm_vars line))
  = lv_record (spec_items line).
Proof.
  rewrite parse_lvm_vars_items. cbn [fst].
  unfold get_lv_data_from_table, lv_record, lookup_guint64, spec_number,
    g_strdup.
  now rewrite !spec_table_value.
Qed.

Lemma spec_first_record_line (schema : Z) (lines : list string) :
  spec_first_record schema lines
  = (fun l => fst (parse_lvm_vars l)) <$> spec_first_line schema lines.
Proof.
  unfold spec_first_record, spec_first_line.
  now destruct (List.find _ lines).
Qed.

Lemma spec_first_line_found (schema : Z) (before after : list string)
    (line : string) :
  Forall (fun l => snd (parse_lvm_vars l) <> schema) before ->
  snd (parse_lvm_vars line) = schema ->
  spec_first_line schema (before ++ line :: after) = Some line.
Proof.
  intros Hbefore Hline. unfold spec_first_line.
  induction Hbefore as [|l before Hl _ IH]; cbn [app List.find].
  - now rewrite (proj2 (Z.eqb_eq _ _) Hline).
  - now rewrite (proj2 (Z.eqb_neq _ _) Hl).
Qed.

Lemma spec_first_line_none (schema : Z) (lines : list string) :
  Forall (fun l => snd (parse_lvm_vars l) <> schema) lines ->
  spec_first_line schema lines = None.
Proof.
  unfold spec_first_line.
  induction 1 as [|l lines Hl _ IH]; [reflexivity|].
  cbn [List.find]. now rewrite (proj2 (Z.eqb_neq _ _) Hl).
Qed.

Ltac fetch_one_success Hne Hrun first record :=
  unfold bind, ret; rewrite call_lvm_and_capture_output_run, Hrun;
  rewrite capture_outcome_success by assumption; cbn [negb fst default];
  unfold id; rewrite g_strsplit_lines by assumption;
  rewrite first, spec_first_record_line;
  match goal with
  | |- context [spec_first_line ?n ?l] => destruct (spec_first_line n l)
  end; cbn [fmap option_fmap option_map]; [|reflexivity];
  now rewrite record.

(** C4.  When the command of [bd_lvm_pvinfo], [bd_lvm_vginfo] or
    [bd_lvm_lvinfo] succeeds with the output [out], the call returns the
    record of the first line of [out] whose reported number of items is the
    size of the schema (11, 8 and 6), whatever the lines after it hold (the
    lines being the pieces of [out] between its newlines): every field of
    the record holds what that line gives to the key of the field.  When
    no line has that number of items the call returns [NULL] with the
    error [BD_LVM_ERROR_PARSE].  The caller's error location is empty on
    entry. *)
Theorem fetch_one_first_matching_line (W : World) (st : State)
    (out err : string) :
  out <> EmptyString ->
  (forall device,
     spawn W (lvm_vector st (pvs_query ++ [device; None]))
     = ProcExited 0 out err ->
     fst (bd_lvm_pvinfo W device None st) =
     match spec_first_line 11 (spec_lines out) with
     | Some line => (Some (pv_record (spec_items line)), None)
     | None => (None, parse_error "Failed to parse information about the PV")
     end)
  /\ (forall vg_name,
        spawn W (lvm_vector st (vgs_query ++ [vg_name; None]))
        = ProcExited 0 out err ->
        fst (bd_lvm_vginfo W vg_name None st) =
        match spec_first_line 8 (spec_lines out) with
        | Some line => (Some (vg_record (spec_items line)), None)
        | None =>
            (None, parse_error "Failed to parse information about the VG")
        end)
  /\ (forall vg_name lv_name,
        spawn W (lvm_vector st
                   (lvs_query ++ [Some (vg_name +:+ "/" +:+ lv_name); None]))
        = ProcExited 0 out err ->
        fst (bd_lvm_lvinfo W vg_name lv_name None st) =
        match spec_first_line 6 (spec_lines out) with
        | Some line => (Some (lv_record (spec_items line)), None)
        | None =>
            (None, parse_error "Failed to parse information about the LV")
        end)
  /\ (forall schema before line after,
        Forall (fun l => snd (parse_lvm_vars l) <> schema) before ->
        snd (parse_lvm_vars line) = schema ->
        spec_first_line schema (before ++ line :: after) = Some line)
  /\ (forall schema lines,
        Forall (fun l => snd (parse_lvm_vars l) <> schema) lines ->
        spec_first_line schema lines = None)
  /\ (exists seps,
        Forall (fun c => is_newline c = true) seps
        /\ length (spec_lines out) = S (length seps)
        /\ join_tokens (spec_lines out) seps = out
        /\ Forall (fun l => string_forallb (fun c => negb (is_newline c)) l
                            = true) (spec_lines out)).
Proof.
  intros Hne. split; [|split; [|split; [|split; [|split]]]];
    [| | | | |apply split_at_join].
  - intros device Hrun. unfold bd_lvm_pvinfo.
    fetch_one_success Hne Hrun bd_lvm_pvinfo_lines_first
      get_pv_data_from_table_record.
  - intros vg_name Hrun. unfold bd_lvm_vginfo.
    fetch_one_success Hne Hrun bd_lvm_vginfo_lines_first
      get_vg_data_from_table_record.
  - intros vg_name lv_name Hrun. unfold bd_lvm_lvinfo.
    fetch_one_success Hne Hrun bd_lvm_lvinfo_lines_first
      get_lv_data_from_table_record.
  - intros. now apply spec_first_line_found.
  - intros. now apply spec_first_line_none.
Qed.

Lemma fetch_one_first_matching_line_witness :
  fst (bd_lvm_pvinfo (printing sample_pv_output) (Some "/dev/sda1") None st0)
  = (Some {| PVdata.pv_name := Some "/dev/sda1";
             PVdata.pv_uuid := Some "p1"; PVdata.pe_start := 1048576;
             PVdata.vg_name := Some "vg0"; PVdata.vg_uuid := Some "u1";
             PVdata.vg_size := 4096; PVdata.vg_free := 1024;
             PVdata.vg_extent_size := 4; PVdata.vg_extent_count := 1024;
             PVdata.vg_free_count := 256; PVdata.vg_pv_count := 1 |}, None)
  /\ fst (bd_lvm_vginfo (printing sample_vgs_output) (Some "vg0") None st0)
     = (Some {| VGdata.name := Some "vg0"; VGdata.uuid := Some "u1";
                VGdata.size := 4096; VGdata.free := 1024;
                VGdata.extent_size := 4; VGdata.extent_count := 1024;
                VGdata.free_count := 256; VGdata.pv_count := 1 |}, None)
  /\ fst (bd_lvm_lvinfo (printing sample_lv_output) "vg0" "lv0" None st0)
     = (Some {| LVdata.lv_name := Some "lv0"; LVdata.vg_name := Some "vg0";
                LVdata.uuid := Some "l1"; LVdata.size := 2048;
                LVdata.attr := Some "-wi-a-----";
                LVdata.segtype := Some "linear" |}, None).
Proof.
  split; [|split].
  - destruct (fetch_one_first_matching_line (printing sample_pv_output) st0
                sample_pv_output EmptyString ltac:(discriminate))
      as (Hpv & _).
    rewrite (Hpv (Some "/dev/sda1") eq_refl). vm_compute. reflexivity.
  - destruct (fetch_one_first_matching_line (printing sample_vgs_output) st0
                sample_vgs_output EmptyString ltac:(discriminate))
      as (_ & Hvg & _).
    rewrite (Hvg (Some "vg0") eq_refl). vm_compute. reflexivity.
  - destruct (fetch_one_first_matching_line (printing sample_lv_output) st0
                sample_lv_output EmptyString ltac:(discriminate))
      as (_ & _ & Hlv & _).
    rewrite (Hlv "vg0" "lv0" eq_refl). vm_compute. reflexivity.
Defined.

Example bd_lvm_vginfo_sample :
  fst (bd_lvm_vginfo (printing sample_vg_output) (Some "vg0") None st0)
  = (Some {| VGdata.name := Some "vg0"; VGdata.uuid := Some "u1";
             VGdata.size := 4096; VGdata.free := 1024;
             VGdata.extent_size := 4; VGdata.extent_count := 1024;
             VGdata.free_count := 256; VGdata.pv_count := 1 |}, None).
Proof. vm_compute. reflexivity. Qed.

(** ** Creating a Btrfs volume *)

Lemma check_devices_missing (W : World) (devices : list string) (n : Z)
    (d : string) :
  d ∈ devices -> access_ok W d = false ->
  exists d', d' ∈ devices /\ access_ok W d' = false
             /\ check_devices W devices n = inl d'.
Proof.
  revert n. induction devices as [|x devices IH]; intros n Hin Hd.
  - now apply elem_of_nil in Hin.
  - cbn [check_devices]. destruct (access_ok W x) eqn:Hx; cbn [negb].
    + apply elem_of_cons in Hin as [->|Hin]; [congruence|].
      destruct (IH (guint8_wrap (n + 1)) Hin Hd) as (d' & Hin' & Hd' & Hc).
      exists d'. split; [now apply elem_of_cons; right|]. now split.
    + exists x. split; [now apply elem_of_cons; left|]. now split.
Qed.

(** C9.  With a [NULL] or empty list of devices, or with a device in the
    list that does not exist, [bd_btrfs_create_volume] and its alias
    [bd_btrfs_mkfs] return [FALSE] with a [BD_BTRFS_ERROR_DEVICE] error and
    leave the state with its history of events untouched: nothing is run.
    The caller's error location is empty on entry. *)
Theorem bd_btrfs_create_volume_device_errors (W : World)
    (devices : option (list string)) (label data_level md_level : option string)
    (st : State) :
  devices = None \/ devices = Some []
  \/ (exists devs d, devices = Some devs /\ d ∈ devs
                     /\ access_ok W d = false) ->
  exists msg,
    bd_btrfs_create_volume W devices label data_level md_level None st
    = (Returns (false, device_error msg), st)
    /\ bd_btrfs_mkfs W devices label data_level md_level None st
       = (Returns (false, device_error msg), st)
    /\ (devices = None \/ devices = Some [] -> msg = "No devices given")
    /\ (forall devs, devices = Some devs -> devs <> [] ->
          exists d, d ∈ devs /\ access_ok W d = false
                    /\ msg = "Device " +:+ d +:+ " does not exist").
Proof.
  unfold bd_btrfs_mkfs.
  intros [->|[->|(devs & d & -> & Hin & Hd)]].
  - exists "No devices given". repeat split; try reflexivity. discriminate.
  - exists "No devices given". repeat split; try reflexivity.
    intros devs [= <-]. congruence.
  - destruct devs as [|x devs]; [now apply elem_of_nil in Hin|].
    destruct (check_devices_missing W (x :: devs) 0 d Hin Hd)
      as (d' & Hin' & Hd' & Hc).
    exists ("Device " +:+ d' +:+ " does not exist").
    assert (bd_btrfs_create_volume W (Some (x :: devs)) label data_level
              md_level None st
            = (Returns (false, device_error
                                 ("Device " +:+ d' +:+ " does not exist")),
               st)) as Hrun.
    { unfold bd_btrfs_create_volume.
      change (g_strv_length (x :: devs) <? 1) with
        (Z.of_nat (S (length devs)) <? 1).
      destruct (Z.ltb_spec (Z.of_nat (S (length devs))) 1) as [Hlt|_];
        [lia|].
      now rewrite Hc. }
    split; [exact Hrun|]. split; [exact Hrun|]. split.
    + intros [[=]|[=]].
    + intros devs' [= <-] _. exists d'. now repeat split.
Qed.

Lemma bd_btrfs_create_volume_device_errors_witness :
  exists msg,
    bd_btrfs_create_volume nothing_exists (Some ["/dev/sdx"]) None None None
      None st0
    = (Returns (false, device_error msg), st0).
Proof.
  destruct (bd_btrfs_create_volume_device_errors nothing_exists
              (Some ["/dev/sdx"]) None None None st0) as (msg & H & _).
  - right. right. exists ["/dev/sdx"], "/dev/sdx".
    split; [reflexivity|]. split; [apply list_elem_of_here | reflexivity].
  - exists msg. exact H.
Defined.

(** ** Initialisation *)

Lemma mentions_here (needle after : string) :
  mentions needle (needle +:+ after).
Proof. exists EmptyString, after. reflexivity. Qed.

Lemma mentions_later (needle before text : string) :
  mentions needle text -> mentions needle (before +:+ text).
Proof.
  intros (b & a & ->). exists (before +:+ b), a. now rewrite append_assoc.
Qed.

Lemma known_plugins_complete (p : BDPlugin) : In p known_plugins.
Proof. destruct p; cbn; auto. Qed.

Lemma discovery_order_elem (specs : list BDPluginSpec) (s : BDPluginSpec) :
  s ∈ specs -> s ∈ discovery_order specs.
Proof.
  intros Hin. unfold discovery_order. apply list_elem_of_In, in_flat_map.
  exists (name s). split; [apply known_plugins_complete|].
  apply list_elem_of_In, list_elem_of_filter. now split.
Qed.

Lemma load_failures_elem (L : Loader) (specs : list BDPluginSpec)
    (s : BDPluginSpec) (reason : string) :
  s ∈ specs -> dlopen L (module_path L s) = ModuleFailed reason ->
  (name s, reason) ∈ load_failures L specs.
Proof.
  intros Hin Hfail. induction specs as [|x specs IH].
  - now apply elem_of_nil in Hin.
  - cbn [load_failures]. apply elem_of_cons in Hin as [<-|Hin].
    + rewrite Hfail. apply list_elem_of_here.
    + destruct (dlopen L (module_path L x)); [now apply IH|].
      apply list_elem_of_further. now apply IH.
Qed.

Lemma aggregate_failures_mentions (failures : list (BDPlugin * string))
    (p : BDPlugin) (reason : string) :
  (p, reason) ∈ failures ->
  mentions (plugin_name p) (aggregate_failures failures).
Proof.
  induction failures as [|[q why] failures IH]; intros Hin.
  - now apply elem_of_nil in Hin.
  - cbn [aggregate_failures]. apply elem_of_cons in Hin as [[= <- <-]|Hin].
    + apply mentions_later, mentions_here.
    + do 5 apply mentions_later. now apply IH.
Qed.

(** C5.  When at least one of the required plugins cannot be loaded,
    [bd_init] fails with a [BD_INIT_ERROR_PLUGINS_FAILED] error in the
    [BD_INIT_ERROR] domain, and the name of every required backend that
    cannot be loaded occurs in the message.  The caller's error location is
    empty on entry. *)
Theorem bd_init_reports_every_failure (L : Loader)
    (require_plugins : list BDPluginSpec) :
  (exists s reason, s ∈ require_plugins
     /\ dlopen L (module_path L s) = ModuleFailed reason) ->
  exists loaded e,
    bd_init L require_plugins None = (false, loaded, Some e)
    /\ domain e = BD_INIT_ERROR
    /\ code e = BD_INIT_ERROR_PLUGINS_FAILED
    /\ (forall s reason, s ∈ require_plugins ->
          dlopen L (module_path L s) = ModuleFailed reason ->
          mentions (plugin_name (name s)) (message e)).
Proof.
  intros (s0 & reason0 & Hin0 & Hfail0).
  assert ((name s0, reason0)
          ∈ load_failures L (discovery_order require_plugins)) as Hf0
    by (apply load_failures_elem; [now apply discovery_order_elem|assumption]).
  unfold bd_init.
  destruct require_plugins as [|x specs]; [now apply elem_of_nil in Hin0|].
  destruct (load_failures L (discovery_order (x :: specs)))
    as [|f failures] eqn:Hfailures; [now apply elem_of_nil in Hf0|].
  eexists _, _. split; [reflexivity|]. cbn [domain code message].
  split; [reflexivity|]. split; [reflexivity|].
  intros s reason Hin Hfail. apply mentions_later.
  rewrite <- Hfailures.
  apply aggregate_failures_mentions with reason.
  apply load_failures_elem; [now apply discovery_order_elem|assumption].
Qed.

Lemma bd_init_reports_every_failure_witness :
  exists loaded e,
    bd_init lvm_only [mkBDPluginSpec BD_PLUGIN_CRYPTO None;
                      mkBDPluginSpec BD_PLUGIN_LVM None;
                      mkBDPluginSpec BD_PLUGIN_BTRFS None] None
    = (false, loaded, Some e)
    /\ mentions "crypto" (message e) /\ mentions "btrfs" (message e).
Proof.
  destruct (bd_init_reports_every_failure lvm_only
              [mkBDPluginSpec BD_PLUGIN_CRYPTO None;
               mkBDPluginSpec BD_PLUGIN_LVM None;
               mkBDPluginSpec BD_PLUGIN_BTRFS None])
    as (loaded & e & Hrun & _ & _ & Hall).
  - exists (mkBDPluginSpec BD_PLUGIN_BTRFS None), "cannot open".
    split; [|reflexivity].
    apply list_elem_of_further, list_elem_of_further, list_elem_of_here.
  - exists loaded, e. split; [exact Hrun|]. split.
    + apply (Hall (mkBDPluginSpec BD_PLUGIN_CRYPTO None) "cannot open");
        [apply list_elem_of_here | reflexivity].
    + apply (Hall (mkBDPluginSpec BD_PLUGIN_BTRFS None) "cannot open");
        [|reflexivity].
      apply list_elem_of_further, list_elem_of_further, list_elem_of_here.
Defined.

Example bd_init_sample :
  bd_init lvm_only [mkBDPluginSpec BD_PLUGIN_CRYPTO None;
                    mkBDPluginSpec BD_PLUGIN_LVM None;
                    mkBDPluginSpec BD_PLUGIN_BTRFS None] None
  = (false, [BD_PLUGIN_LVM],
     Some (mkGError BD_INIT_ERROR BD_INIT_ERROR_PLUGINS_FAILED
             "Failed to load plugins: failed to load plugin btrfs (cannot open); failed to load plugin crypto (cannot open); ")).
Proof. vm_compute. reflexivity. Qed.

(** ** Threads and the global configuration *)

Section Threads.

Variable c0 : option string.
Variable ops : list ThreadOp.

Lemma sys_inv_start : sys_inv c0 ops (start c0 ops).
Proof.
  unfold start, sys_inv. cbn [fst snd]. split; [|split].
  - intros i t Hi. rewrite list_lookup_fmap in Hi.
    destruct (ops !! i) as [o|] eqn:Ho; [|discriminate].
    injection Hi as <-. unfold thread_ok. cbn. repeat split; try done.
    destruct o; discriminate.
  - cbn. now left.
  - constructor.
Qed.

(** Two threads inside their critical sections are the same thread. *)
Lemma mutual_exclusion (sh : Shared) (ths : list Thread) (i j : nat)
    (ti tj : Thread) :
  sys_inv c0 ops (sh, ths) ->
  ths !! i = Some ti -> ths !! j = Some tj ->
  holds_lock ti = true -> holds_lock tj = true -> i = j.
Proof.
  intros (Hth & _ & _) Hi Hj Hli Hlj.
  destruct (Hth i ti Hi) as (_ & Hoi & _).
  destruct (Hth j tj Hj) as (_ & Hoj & _).
  apply Hoi in Hli. apply Hoj in Hlj. congruence.
Qed.

(** A thread that owns the mutex and is not the setter between [g_free]
    and the assignment finds a written value in the global. *)
Lemma held_cell (sh : Shared) (ths : list Thread) (i : nat) (t : Thread) :
  sys_inv c0 ops (sh, ths) -> ths !! i = Some t ->
  holds_lock t = true \/ owner sh = None ->
  (forall v, op t = OpSet v -> pc t <> 2%nat) ->
  exists v, cell sh = Stored v /\ written c0 ops v.
Proof.
  intros Hinv Hi Hlock Hnot. pose proof Hinv as (Hth & Hcell & _).
  unfold cell_ok in Hcell. cbn [fst snd] in *.
  destruct (cell sh) as [v|]; [now exists v|].
  destruct Hcell as (k & tk & v & Hk & Hop & Hpc). exfalso.
  assert (holds_lock tk = true) as Hlk
    by (unfold holds_lock; now rewrite Hop, Hpc).
  destruct Hlock as [Hl|Hfree].
  - assert (k = i) as -> by (eapply mutual_exclusion; eassumption).
    assert (tk = t) as -> by congruence. now apply (Hnot v).
  - destruct (Hth k tk Hk) as (_ & Hown & _). apply Hown in Hlk. congruence.
Qed.

(** What a step of thread [i] from [t] to [t'] must respect for the
    invariant to survive. *)
Lemma step_preserves (sh sh' : Shared) (ths : list Thread) (i : nat)
    (t t' : Thread) :
  sys_inv c0 ops (sh, ths) -> ths !! i = Some t ->
  op t' = op t ->
  (owner sh' = owner sh /\ holds_lock t' = holds_lock t)
  \/ (owner sh = None /\ owner sh' = Some i /\ holds_lock t' = true)
  \/ (owner sh' = None /\ holds_lock t = true /\ holds_lock t' = false) ->
  cell sh' = cell sh \/ holds_lock t = true ->
  (forall args, op t' = OpCall args -> pc t' = 2%nat ->
     seen t' = Some (cell sh')) ->
  cell_ok c0 ops sh' (<[i := t']> ths) ->
  Forall (observation_ok c0 ops) (log sh') ->
  sys_inv c0 ops (sh', <[i := t']> ths).
Proof.
  intros Hinv Hi Hop Hown Hcell Hseen Hcok Hlog.
  pose proof Hinv as (Hth & _ & _). cbn [fst snd] in Hth.
  destruct (Hth i t Hi) as (Hopi & Howni & _).
  assert (i < length ths)%nat as Hlen by (eapply lookup_lt_Some; eassumption).
  split; [|split]; cbn [fst snd]; try assumption.
  intros j tj Hj. destruct (decide (i = j)) as [<-|Hne].
  - rewrite list_lookup_insert_eq in Hj by assumption. injection Hj as <-.
    split; [congruence|]. split; [|assumption].
    destruct Hown as [[Ho Hl]|[(Hfree & Ho & Hl)|(Ho & Hl & Hl')]].
    + rewrite Ho, Hl. exact Howni.
    + rewrite Ho, Hl. split; reflexivity.
    + rewrite Ho, Hl'. split; discriminate.
  - rewrite list_lookup_insert_ne in Hj by assumption.
    destruct (Hth j tj Hj) as (Hopj & Hownj & Hseenj).
    split; [assumption|]. split.
    + destruct Hown as [[Ho Hl]|[(Hfree & Ho & Hl)|(Ho & Hl & Hl')]].
      * now rewrite Ho.
      * rewrite Ho. split.
        -- intros H. apply Hownj in H. congruence.
        -- intros [= ->]. congruence.
      * rewrite Ho. split; [|discriminate].
        intros H. exfalso. apply Hne.
        eapply mutual_exclusion; eassumption.
    + intros args Hoj Hpj.
      destruct Hcell as [->|Hl]; [exact (Hseenj args Hoj Hpj)|].
      exfalso. apply Hne.
      eapply (mutual_exclusion sh ths i j t tj); try eassumption.
      unfold holds_lock. now rewrite Hoj, Hpj.
Qed.

Lemma cell_ok_stored (sh : Shared) (ths : list Thread) (v : option string) :
  cell sh = Stored v -> written c0 ops v -> cell_ok c0 ops sh ths.
Proof. intros Hc Hw. unfold cell_ok. now rewrite Hc. Qed.

Lemma observation_ok_snoc (l : list Observation) (o : Observation) :
  Forall (observation_ok c0 ops) l -> observation_ok c0 ops o ->
  Forall (observation_ok c0 ops) (l ++ [o]).
Proof. intros Hl Ho. apply Forall_app. split; [assumption|]. now constructor. Qed.

Ltac stored_cell Hinv Hi side w Hc Hw :=
  match type of Hi with
  | ?ths !! ?i = Some ?t =>
      let H := fresh in
      assert (exists v, cell _ = Stored v /\ written c0 ops v) as H
        by (eapply (held_cell _ ths i t Hinv Hi side); cbn;
            intros; congruence);
      destruct H as (w & Hc & Hw)
  end.

(** Taking the mutex. *)
Lemma sys_inv_try_lock (sh sh' : Shared) (ths : list Thread) (i : nat)
    (t t' : Thread) :
  sys_inv c0 ops (sh, ths) -> ths !! i = Some t -> pc t = 0%nat ->
  try_lock i sh t = Some (sh', t') ->
  sys_inv c0 ops (sh', <[i := t']> ths).
Proof.
  intros Hinv Hi Hpc Hstep. unfold try_lock in Hstep.
  destruct (owner sh) eqn:Ho; [discriminate|]. injection Hstep as <- <-.
  stored_cell Hinv Hi (or_intror Ho : holds_lock t = true \/ owner sh = None)
    w Hc Hw.
  destruct Hinv as (Hth & Hcok & Hlog).
  apply step_preserves with (sh := sh) (t := t); try assumption.
  - now split.
  - reflexivity.
  - right. left. split; [assumption|]. split; [reflexivity|].
    unfold holds_lock. cbn. rewrite Hpc. now destruct (op t).
  - now left.
  - cbn. intros args _ H. rewrite Hpc in H. discriminate.
  - now apply cell_ok_stored with w.
Qed.

(** Releasing the mutex at the last step of the critical section. *)
Lemma sys_inv_unlock (sh sh' : Shared) (ths : list Thread) (i : nat)
    (t t' : Thread) :
  sys_inv c0 ops (sh, ths) -> ths !! i = Some t ->
  holds_lock t = true ->
  holds_lock (mkThread (op t) (S (pc t)) (seen t)) = false ->
  (forall v, op t = OpSet v -> pc t <> 2%nat) ->
  pc t <> 1%nat ->
  unlock sh t = Some (sh', t') ->
  sys_inv c0 ops (sh', <[i := t']> ths).
Proof.
  intros Hinv Hi Hl Hl' Hnot Hpc Hstep. unfold unlock in Hstep.
  injection Hstep as <- <-.
  assert (exists v, cell sh = Stored v /\ written c0 ops v)
    as (w & Hc & Hw)
    by (eapply held_cell; eauto).
  destruct Hinv as (Hth & Hcok & Hlog).
  apply step_preserves with (sh := sh) (t := t); try assumption.
  - now split.
  - reflexivity.
  - right. right. now split.
  - now left.
  - cbn. intros args _ H. congruence.
  - now apply cell_ok_stored with w.
Qed.

Lemma sys_inv_step (i : nat) (s : System) :
  sys_inv c0 ops s -> sys_inv c0 ops (sys_step i s).
Proof.
  intros Hinv. destruct s as [sh ths]. unfold sys_step. cbn [fst snd].
  destruct (ths !! i) as [t|] eqn:Hi; [|exact Hinv].
  destruct (thread_step i sh t) as [[sh' t']|] eqn:Hstep; [|exact Hinv].
  pose proof Hinv as (Hth & Hcok & Hlog). cbn [fst snd] in Hth, Hcok, Hlog.
  destruct (Hth i t Hi) as (Hopi & Howni & Hseeni).
  destruct t as [o p sn]. unfold thread_step in Hstep.
  cbn [op pc seen] in *.
  destruct o as [v| |args]; destruct p as [|[|[|[|p]]]];
    try discriminate Hstep.
  - (* setter: lock *)
    now apply (sys_inv_try_lock sh sh' ths i _ t' Hinv Hi).
  - (* setter: g_free *)
    injection Hstep as <- <-.
    apply step_preserves with (sh := sh) (t := mkThread (OpSet v) 1 sn);
      try assumption; cbn; try discriminate.
    + reflexivity.
    + left. now split.
    + now right.
    + unfold cell_ok. cbn. exists i, (mkThread (OpSet v) 2 sn), v.
      split; [|now split]. apply list_lookup_insert_eq.
      eapply lookup_lt_Some; eassumption.
  - (* setter: the assignment *)
    injection Hstep as <- <-.
    apply step_preserves with (sh := sh) (t := mkThread (OpSet v) 2 sn);
      try assumption; cbn; try discriminate.
    + reflexivity.
    + left. now split.
    + now right.
    + unfold cell_ok. cbn. right.
      eapply list_elem_of_In, list_elem_of_lookup_2. exact Hopi.
  - (* setter: unlock *)
    apply (sys_inv_unlock sh sh' ths i _ t' Hinv Hi); cbn; try done.
  - (* getter: lock *)
    now apply (sys_inv_try_lock sh sh' ths i _ t' Hinv Hi).
  - (* getter: the read *)
    injection Hstep as <- <-.
    stored_cell Hinv Hi
      (or_introl eq_refl
         : holds_lock (mkThread OpGet 1 sn) = true \/ owner sh = None)
      w Hc Hw.
    apply step_preserves with (sh := sh) (t := mkThread OpGet 1 sn);
      try assumption; cbn; try discriminate.
    + reflexivity.
    + left. now split.
    + now left.
    + now apply cell_ok_stored with w.
    + apply observation_ok_snoc; [assumption|]. cbn. now exists w.
  - (* getter: unlock *)
    apply (sys_inv_unlock sh sh' ths i _ t' Hinv Hi); cbn; try done.
  - (* wrapper: lock *)
    now apply (sys_inv_try_lock sh sh' ths i _ t' Hinv Hi).
  - (* wrapper: the read that fills argv *)
    injection Hstep as <- <-.
    stored_cell Hinv Hi
      (or_introl eq_refl
         : holds_lock (mkThread (OpCall args) 1 sn) = true \/ owner sh = None)
      w Hc Hw.
    apply step_preserves with (sh := sh) (t := mkThread (OpCall args) 1 sn);
      try assumption; cbn; try discriminate.
    + reflexivity.
    + left. now split.
    + now left.
    + reflexivity.
    + now apply cell_ok_stored with w.
    + apply observation_ok_snoc; [assumption|]. cbn. now exists w.
  - (* wrapper: the run of the command *)
    injection Hstep as <- <-.
    stored_cell Hinv Hi
      (or_introl eq_refl
         : holds_lock (mkThread (OpCall args) 2 sn) = true \/ owner sh = None)
      w Hc Hw.
    pose proof (Hseeni args eq_refl eq_refl) as Hsn. subst sn.
    apply step_preserves with
      (sh := sh) (t := mkThread (OpCall args) 2 (Some (cell sh)));
      try assumption; cbn; try discriminate.
    + reflexivity.
    + left. now split.
    + now left.
    + now apply cell_ok_stored with w.
    + apply observation_ok_snoc; [assumption|]. cbn.
      exists w, args. rewrite Hc. cbn. now repeat split.
  - (* wrapper: unlock *)
    apply (sys_inv_unlock sh sh' ths i _ t' Hinv Hi); cbn; try done.
Qed.

Lemma sys_inv_run (schedule : list nat) (s : System) :
  sys_inv c0 ops s -> sys_inv c0 ops (run_schedule schedule s).
Proof.
  revert s. unfold run_schedule.
  induction schedule as [|i schedule IH]; intros s Hinv; [exact Hinv|].
  cbn [fold_left]. apply IH. now apply sys_inv_step.
Qed.

End Threads.

(** C7.  Whatever the threads (setters, getters and wrappers, in any
    number) and whatever the schedule, every read of the global
    configuration finds a complete value, the one stored before the threads
    started or one written by a setter among them, never the released
    string of a setter at work; the command of a wrapper runs with the
    vector built from the value it read, and the global still holds that
    value while the command runs.  This rests on the mutex: two threads are
    never inside their critical sections together, and the global is
    between [g_free] and assignment only while the setter doing it owns the
    mutex. *)
Theorem config_reads_are_whole (c0 : option string) (ops : list ThreadOp)
    (schedule : list nat) :
  let s := run_schedule schedule (start c0 ops) in
  Forall (observation_ok c0 ops) (log (fst s))
  /\ (forall i j ti tj,
        snd s !! i = Some ti -> snd s !! j = Some tj ->
        holds_lock ti = true -> holds_lock tj = true -> i = j)
  /\ (cell (fst s) = Freed ->
      exists i t v, snd s !! i = Some t /\ op t = OpSet v /\ pc t = 2%nat
                    /\ owner (fst s) = Some i).
Proof.
  cbn zeta.
  pose proof (sys_inv_run c0 ops schedule _ (sys_inv_start c0 ops)) as Hinv.
  destruct (run_schedule schedule (start c0 ops)) as [sh ths] eqn:Hs.
  cbn [fst snd]. split; [|split].
  - now destruct Hinv as (_ & _ & Hlog).
  - intros i j ti tj. now apply (mutual_exclusion c0 ops sh ths).
  - intros Hfreed. destruct Hinv as (Hth & Hcok & _).
    unfold cell_ok in Hcok. cbn [fst snd] in Hth, Hcok.
    rewrite Hfreed in Hcok. destruct Hcok as (i & t & v & Hi & Hop & Hpc).
    exists i, t, v. repeat split; try assumption.
    destruct (Hth i t Hi) as (_ & Hown & _). apply Hown.
    unfold holds_lock. now rewrite Hop, Hpc.
Qed.

Lemma config_reads_are_whole_witness :
  Forall (observation_ok (Some "old") sample_ops)
    (log (fst (run_schedule sample_schedule
                 (start (Some "old") sample_ops)))).
Proof.
  exact (proj1 (config_reads_are_whole (Some "old") sample_ops
                  sample_schedule)).
Defined.

Example sample_run_log :
  log (fst (run_schedule sample_schedule (start (Some "old") sample_ops)))
  = [ObsRead 1 (Stored (Some "old"));
     ObsExec 1 (Some ["lvm"; "pvs"; "--config=old"])
       (Stored (Some "old")) (Stored (Some "old"));
     ObsRead 2 (Stored (Some "new"));
     ObsExec 2 (Some ["lvm"; "vgs"; "--config=new"])
       (Stored (Some "new")) (Stored (Some "new"))].
Proof. vm_compute. reflexivity. Qed.

(** ** Sizes and extents *)

Section Sizes.

Variable dflt : Z.
Hypothesis dflt_range : 0 < dflt < 2 ^ 64.

Lemma RESOLVE_PE_SIZE_range (pe_size : Z) :
  0 <= pe_size < 2 ^ 64 -> 0 < RESOLVE_PE_SIZE dflt pe_size < 2 ^ 64.
Proof.
  intros H. unfold RESOLVE_PE_SIZE.
  destruct (Z.eqb_spec pe_size 0); lia.
Qed.

Lemma RESOLVE_PE_SIZE_idem (pe_size : Z) :
  RESOLVE_PE_SIZE dflt (RESOLVE_PE_SIZE dflt pe_size)
  = RESOLVE_PE_SIZE dflt pe_size.
Proof.
  unfold RESOLVE_PE_SIZE.
  destruct (Z.eqb_spec pe_size 0) as [->|Hne].
  - destruct (Z.eqb_spec dflt 0); [lia|reflexivity].
  - destruct (Z.eqb_spec pe_size 0); [lia|reflexivity].
Qed.

Lemma round_down_value (size pe_size : Z) :
  0 <= size < 2 ^ 64 -> 0 <= pe_size < 2 ^ 64 ->
  bd_lvm_round_size_to_pe dflt size pe_size false
  = size - size mod RESOLVE_PE_SIZE dflt pe_size.
Proof.
  intros Hs Hp. pose proof (RESOLVE_PE_SIZE_range pe_size Hp) as Hr.
  unfold bd_lvm_round_size_to_pe. cbn zeta.
  pose proof (Z.mod_pos_bound size (RESOLVE_PE_SIZE dflt pe_size)
                ltac:(lia)) as Hm.
  pose proof (Z.mod_le size (RESOLVE_PE_SIZE dflt pe_size)
                ltac:(lia) ltac:(lia)) as Hle.
  destruct (Z.eqb_spec (size mod RESOLVE_PE_SIZE dflt pe_size) 0) as [->|_].
  - lia.
  - unfold guint64_wrap. apply Z.mod_small. lia.
Qed.

Lemma round_up_value (size pe_size : Z) :
  0 <= size < 2 ^ 64 -> 0 <= pe_size < 2 ^ 64 ->
  size mod RESOLVE_PE_SIZE dflt pe_size <> 0 ->
  bd_lvm_round_size_to_pe dflt size pe_size true
  = (size - size mod RESOLVE_PE_SIZE dflt pe_size
     + RESOLVE_PE_SIZE dflt pe_size) mod 2 ^ 64.
Proof.
  intros Hs Hp Hne. pose proof (RESOLVE_PE_SIZE_range pe_size Hp) as Hr.
  unfold bd_lvm_round_size_to_pe. cbn zeta.
  pose proof (Z.mod_pos_bound size (RESOLVE_PE_SIZE dflt pe_size)
                ltac:(lia)) as Hm.
  destruct (Z.eqb_spec (size mod RESOLVE_PE_SIZE dflt pe_size) 0);
    [contradiction|].
  unfold guint64_wrap. rewrite (Z.mod_small (_ - _)) by lia.
  f_equal. lia.
Qed.

Lemma multiple_sub_mod (size p : Z) :
  0 < p -> (size - size mod p) mod p = 0.
Proof.
  intros Hp. rewrite Zminus_mod_idemp_r, Z.sub_diag. apply Z.mod_0_l. lia.
Qed.

Lemma multiple_sub_mod_add (size p : Z) :
  0 < p -> (size - size mod p + p) mod p = 0.
Proof.
  intros Hp. rewrite <- Z.add_mod_idemp_l by lia.
  rewrite multiple_sub_mod by assumption. cbn. apply Z.mod_same. lia.
Qed.

End Sizes.

(** X1.  Rounding a size down to the extent size gives the multiple of the
    extent size just below it: a multiple, not above the size, and less
    than one extent away from it.  An extent size of 0 stands for the
    default. *)
Theorem round_down_to_extent (dflt size pe_size : Z) :
  0 < dflt < 2 ^ 64 -> 0 <= size < 2 ^ 64 -> 0 <= pe_size < 2 ^ 64 ->
  let p := RESOLVE_PE_SIZE dflt pe_size in
  let r := bd_lvm_round_size_to_pe dflt size pe_size false in
  r mod p = 0 /\ r <= size < r + p /\ 0 <= r.
Proof.
  intros Hd Hs Hp. cbn zeta.
  pose proof (RESOLVE_PE_SIZE_range dflt Hd pe_size Hp) as Hr.
  rewrite (round_down_value dflt Hd) by assumption.
  pose proof (Z.mod_pos_bound size (RESOLVE_PE_SIZE dflt pe_size)
                ltac:(lia)) as Hm.
  pose proof (Z.mod_le size (RESOLVE_PE_SIZE dflt pe_size)
                ltac:(lia) ltac:(lia)) as Hle.
  split; [apply multiple_sub_mod; lia | lia].
Qed.

Lemma round_down_to_extent_witness :
  bd_lvm_round_size_to_pe 4194304 10000000 0 false mod 4194304 = 0
  /\ bd_lvm_round_size_to_pe 4194304 10000000 0 false <= 10000000
     < bd_lvm_round_size_to_pe 4194304 10000000 0 false + 4194304
  /\ 0 <= bd_lvm_round_size_to_pe 4194304 10000000 0 false.
Proof.
  apply (round_down_to_extent 4194304 10000000 0); vm_compute; split;
    congruence.
Defined.

(** X2.  Rounding a size up gives the multiple of the extent size just
    above it (a multiple, not below the size, less than one extent away),
    provided that multiple is below 2^64. *)
Theorem round_up_to_extent (dflt size pe_size : Z) :
  0 < dflt < 2 ^ 64 -> 0 <= size < 2 ^ 64 -> 0 <= pe_size < 2 ^ 64 ->
  let p := RESOLVE_PE_SIZE dflt pe_size in
  let r := bd_lvm_round_size_to_pe dflt size pe_size true in
  size mod p = 0 \/ size - size mod p + p < 2 ^ 64 ->
  r mod p = 0 /\ size <= r < size + p.
Proof.
  intros Hd Hs Hp. cbn zeta. intros Hfit.
  pose proof (RESOLVE_PE_SIZE_range dflt Hd pe_size Hp) as Hr.
  pose proof (Z.mod_pos_bound size (RESOLVE_PE_SIZE dflt pe_size)
                ltac:(lia)) as Hm.
  pose proof (Z.mod_le size (RESOLVE_PE_SIZE dflt pe_size)
                ltac:(lia) ltac:(lia)) as Hle.
  destruct (Z.eq_dec (size mod RESOLVE_PE_SIZE dflt pe_size) 0) as [Hz|Hnz].
  - unfold bd_lvm_round_size_to_pe. cbn zeta. rewrite Hz.
    change (0 =? 0) with true. cbv iota. split; [exact Hz | lia].
  - destruct Hfit as [Hz|Hfit]; [contradiction|].
    rewrite (round_up_value dflt Hd) by assumption.
    rewrite (Z.mod_small (_ + _) (2 ^ 64)) by lia.
    split; [apply multiple_sub_mod_add; lia | lia].
Qed.

Lemma round_up_to_extent_witness :
  bd_lvm_round_size_to_pe 4194304 10000000 0 true mod 4194304 = 0
  /\ 10000000 <= bd_lvm_round_size_to_pe 4194304 10000000 0 true
     < 10000000 + 4194304.
Proof.
  apply (round_up_to_extent 4194304 10000000 0);
    try (vm_compute; split; congruence).
  right. vm_compute. reflexivity.
Defined.

(** X3.  Rounding up a size that lies in the last, incomplete extent below
    2^64 wraps around: the result is not the next multiple but what is left
    of it modulo 2^64, a number below the size and below one extent. *)
Theorem round_up_wraps (dflt size pe_size : Z) :
  0 < dflt < 2 ^ 64 -> 0 <= size < 2 ^ 64 -> 0 <= pe_size < 2 ^ 64 ->
  let p := RESOLVE_PE_SIZE dflt pe_size in
  let r := bd_lvm_round_size_to_pe dflt size pe_size true in
  size mod p <> 0 -> 2 ^ 64 <= size - size mod p + p ->
  r = size - size mod p + p - 2 ^ 64 /\ 0 <= r < size /\ r < p.
Proof.
  intros Hd Hs Hp. cbn zeta. intros Hnz Hover.
  pose proof (RESOLVE_PE_SIZE_range dflt Hd pe_size Hp) as Hr.
  pose proof (Z.mod_pos_bound size (RESOLVE_PE_SIZE dflt pe_size)
                ltac:(lia)) as Hm.
  rewrite (round_up_value dflt Hd) by assumption.
  assert ((size - size mod RESOLVE_PE_SIZE dflt pe_size
           + RESOLVE_PE_SIZE dflt pe_size) mod 2 ^ 64
          = size - size mod RESOLVE_PE_SIZE dflt pe_size
            + RESOLVE_PE_SIZE dflt pe_size - 2 ^ 64) as ->.
  { symmetry. apply Z.mod_unique with 1; lia. }
  lia.
Qed.

Lemma round_up_wraps_witness :
  bd_lvm_round_size_to_pe 4194304 (2 ^ 64 - 1) 0 true = 0.
Proof.
  destruct (round_up_wraps 4194304 (2 ^ 64 - 1) 0) as [Hr _];
    [..|rewrite Hr; vm_compute; reflexivity];
    vm_compute; first [split; congruence | congruence].
Defined.

Lemma round_multiple_fixed (dflt size pe_size : Z) (roundup : bool) :
  size mod RESOLVE_PE_SIZE dflt pe_size = 0 ->
  bd_lvm_round_size_to_pe dflt size pe_size roundup = size.
Proof.
  intros Hz. unfold bd_lvm_round_size_to_pe. cbn zeta. now rewrite Hz.
Qed.

Lemma round_result_multiple (dflt size pe_size : Z) (roundup : bool) :
  0 < dflt < 2 ^ 64 -> 0 <= size < 2 ^ 64 -> 0 <= pe_size < 2 ^ 64 ->
  (roundup = true ->
   size mod RESOLVE_PE_SIZE dflt pe_size = 0
   \/ size - size mod RESOLVE_PE_SIZE dflt pe_size
      + RESOLVE_PE_SIZE dflt pe_size < 2 ^ 64) ->
  bd_lvm_round_size_to_pe dflt size pe_size roundup
    mod RESOLVE_PE_SIZE dflt pe_size = 0.
Proof.
  intros Hd Hs Hp Hfit.
  pose proof (RESOLVE_PE_SIZE_range dflt Hd pe_size Hp) as Hr.
  pose proof (Z.mod_pos_bound size (RESOLVE_PE_SIZE dflt pe_size)
                ltac:(lia)) as Hm.
  pose proof (Z.mod_le size (RESOLVE_PE_SIZE dflt pe_size)
                ltac:(lia) ltac:(lia)) as Hle.
  destruct (Z.eq_dec (size mod RESOLVE_PE_SIZE dflt pe_size) 0) as [Hz|Hnz].
  - now rewrite round_multiple_fixed.
  - destruct roundup.
    + destruct (Hfit eq_refl) as [Hz|Hlt]; [contradiction|].
      rewrite (round_up_value dflt Hd) by assumption.
      rewrite (Z.mod_small (_ + _) (2 ^ 64)) by lia.
      apply multiple_sub_mod_add. lia.
    + rewrite (round_down_value dflt Hd) by assumption.
      apply multiple_sub_mod. lia.
Qed.

(** X4.  Rounding is idempotent: a size that has been rounded to the extent
    size, up (the multiple being below 2^64) or down, is left as it is by a
    second rounding in either direction. *)
Theorem round_is_idempotent (dflt size pe_size : Z) (first second : bool) :
  0 < dflt < 2 ^ 64 -> 0 <= size < 2 ^ 64 -> 0 <= pe_size < 2 ^ 64 ->
  (first = true ->
   size mod RESOLVE_PE_SIZE dflt pe_size = 0
   \/ size - size mod RESOLVE_PE_SIZE dflt pe_size
      + RESOLVE_PE_SIZE dflt pe_size < 2 ^ 64) ->
  bd_lvm_round_size_to_pe dflt
    (bd_lvm_round_size_to_pe dflt size pe_size first) pe_size second
  = bd_lvm_round_size_to_pe dflt size pe_size first.
Proof.
  intros Hd Hs Hp Hfit. apply round_multiple_fixed.
  now apply round_result_multiple.
Qed.

Lemma round_is_idempotent_witness :
  bd_lvm_round_size_to_pe 4194304
    (bd_lvm_round_size_to_pe 4194304 10000000 0 true) 0 false
  = bd_lvm_round_size_to_pe 4194304 10000000 0 true.
Proof.
  apply (round_is_idempotent 4194304 10000000 0 true false);
    try (vm_compute; split; congruence).
  intros _. right. vm_compute. reflexivity.
Defined.

Lemma round_down_div (dflt size pe_size : Z) :
  0 < dflt < 2 ^ 64 -> 0 <= size < 2 ^ 64 -> 0 <= pe_size < 2 ^ 64 ->
  bd_lvm_round_size_to_pe dflt size pe_size false
  = RESOLVE_PE_SIZE dflt pe_size * (size / RESOLVE_PE_SIZE dflt pe_size).
Proof.
  intros Hd Hs Hp.
  pose proof (RESOLVE_PE_SIZE_range dflt Hd pe_size Hp) as Hr.
  rewrite (round_down_value dflt Hd) by assumption.
  pose proof (Z.div_mod size (RESOLVE_PE_SIZE dflt pe_size) ltac:(lia)).
  lia.
Qed.

(** X5.  Rounding down is monotone: of two sizes the larger one never
    rounds to the smaller result. *)
Theorem round_down_monotone (dflt size1 size2 pe_size : Z) :
  0 < dflt < 2 ^ 64 -> 0 <= size1 <= size2 -> size2 < 2 ^ 64 ->
  0 <= pe_size < 2 ^ 64 ->
  bd_lvm_round_size_to_pe dflt size1 pe_size false
  <= bd_lvm_round_size_to_pe dflt size2 pe_size false.
Proof.
  intros Hd H12 H2 Hp.
  pose proof (RESOLVE_PE_SIZE_range dflt Hd pe_size Hp) as Hr.
  rewrite !(round_down_div dflt) by (assumption || lia).
  apply Z.mul_le_mono_nonneg_l; [lia|].
  apply Z.div_le_mono; lia.
Qed.

Lemma round_down_monotone_witness :
  bd_lvm_round_size_to_pe 4194304 4194303 0 false
  <= bd_lvm_round_size_to_pe 4194304 4194304 0 false.
Proof.
  apply (round_down_monotone 4194304 4194303 4194304 0);
    vm_compute; first [split; congruence | congruence].
Defined.

(** X6.  The space an LV takes on disk is its size rounded up to the extent
    size plus one extent: a multiple of the extent size, at least one and
    less than two extents above the size of the LV, as long as that stays
    below 2^64. *)
Theorem lv_physical_size_bounds (dflt lv_size pe_size : Z) :
  0 < dflt < 2 ^ 64 -> 0 <= lv_size -> 0 <= pe_size < 2 ^ 64 ->
  let p := RESOLVE_PE_SIZE dflt pe_size in
  let r := bd_lvm_get_lv_physical_size dflt lv_size pe_size in
  lv_size + 2 * p <= 2 ^ 64 ->
  r mod p = 0 /\ lv_size + p <= r < lv_size + 2 * p.
Proof.
  intros Hd Hs Hp. cbn zeta. intros Hfit.
  pose proof (RESOLVE_PE_SIZE_range dflt Hd pe_size Hp) as Hr.
  set (p := RESOLVE_PE_SIZE dflt pe_size) in *.
  assert (0 <= p < 2 ^ 64) as Hp' by lia.
  assert (0 <= lv_size < 2 ^ 64) as Hs' by lia.
  pose proof (Z.mod_pos_bound lv_size p ltac:(lia)) as Hm.
  pose proof (Z.mod_le lv_size p ltac:(lia) ltac:(lia)) as Hle.
  assert (RESOLVE_PE_SIZE dflt p = p) as Hpp
    by apply RESOLVE_PE_SIZE_idem, Hd.
  assert (lv_size mod RESOLVE_PE_SIZE dflt p = 0
          \/ lv_size - lv_size mod RESOLVE_PE_SIZE dflt p
             + RESOLVE_PE_SIZE dflt p < 2 ^ 64) as Hup
    by (right; rewrite Hpp; lia).
  pose proof (round_result_multiple dflt lv_size p true Hd Hs' Hp'
                (fun _ => Hup)) as Hmul.
  assert (lv_size <= bd_lvm_round_size_to_pe dflt lv_size p true
          < lv_size + p) as Hbnd.
  { destruct (Z.eq_dec (lv_size mod RESOLVE_PE_SIZE dflt p) 0) as [Hz|Hnz].
    - rewrite round_multiple_fixed by assumption. lia.
    - rewrite (round_up_value dflt Hd) by assumption.
      rewrite Hpp in *. rewrite Z.mod_small by lia. lia. }
  rewrite Hpp in Hmul.
  unfold bd_lvm_get_lv_physical_size. cbn zeta. fold p.
  unfold guint64_wrap. rewrite (Z.mod_small (_ + _) (2 ^ 64)) by lia.
  split; [|lia].
  rewrite <- Z.add_mod_idemp_l by lia. rewrite Hmul. cbn.
  apply Z.mod_same. lia.
Qed.

Lemma lv_physical_size_bounds_witness :
  bd_lvm_get_lv_physical_size 4194304 10000000 0 mod 4194304 = 0
  /\ 10000000 + 4194304 <= bd_lvm_get_lv_physical_size 4194304 10000000 0
     < 10000000 + 2 * 4194304.
Proof.
  apply (lv_physical_size_bounds 4194304 10000000 0);
    vm_compute; first [split; congruence | congruence].
Defined.

(** ** More on the output parser *)

Lemma split_at_app (f : ascii -> bool) (a b : string) (w : ascii) :
  f w = true ->
  split_at f (a +:+ String w b) = split_at f a ++ split_at f b.
Proof.
  intros Hw. induction a as [|c a IH].
  - rewrite append_nil_l. cbn [split_at]. now rewrite Hw.
  - rewrite append_cons. cbn [split_at]. rewrite IH.
    destruct (f c); [reflexivity|].
    destruct (split_at f a) as [|t ts] eqn:E;
      [now apply split_at_nonempty in E|reflexivity].
Qed.

Lemma split_at_plain (f : ascii -> bool) (s : string) :
  string_forallb (fun c => negb (f c)) s = true -> split_at f s = [s].
Proof.
  induction s as [|c s IH]; [reflexivity|].
  cbn [string_forallb split_at]. intros H.
  apply andb_true_iff in H as [Hc Hs].
  apply negb_true_iff in Hc. rewrite Hc, IH by assumption. reflexivity.
Qed.

Lemma fold_insert_item_union (items : list (string * string))
    (m : gmap string string) :
  fold_left insert_item items m = spec_table items ∪ m.
Proof.
  induction items as [|[k v] items IH] using rev_ind.
  - unfold spec_table. cbn. now rewrite (left_id_L ∅ (∪)).
  - rewrite fold_insert_item_snoc, IH.
    unfold spec_table. rewrite reverse_app. cbn [reverse app list_to_map].
    unfold insert_item. cbn [fst snd].
    change (reverse [(k, v)]) with [(k, v)]. cbn [app list_to_map].
    now rewrite insert_union_l.
Qed.

Lemma spec_table_app (items1 items2 : list (string * string)) :
  spec_table (items1 ++ items2) = spec_table items2 ∪ spec_table items1.
Proof.
  rewrite <- (fold_insert_item_table (items1 ++ items2)), fold_left_app.
  rewrite fold_insert_item_table. apply fold_insert_item_union.
Qed.

Lemma spec_items_app (a b : string) (w : ascii) :
  spec_is_whitespace w = true ->
  spec_items (a +:+ String w b) = spec_items a ++ spec_items b.
Proof.
  intros Hw. unfold spec_items, spec_tokens.
  rewrite split_at_app by assumption. apply omap_app.
Qed.

(** X7.  Parsing two texts joined by a white space character is parsing
    each of them: the table is the table of the second text laid over the
    table of the first (the second wins on a common key) and the count is
    the sum of the two counts, in [guint] arithmetic. *)
Theorem parse_lvm_vars_joined (a b : string) (w : ascii) :
  spec_is_whitespace w = true ->
  parse_lvm_vars (a +:+ String w b)
  = (fst (parse_lvm_vars b) ∪ fst (parse_lvm_vars a),
     guint_wrap (snd (parse_lvm_vars a) + snd (parse_lvm_vars b))).
Proof.
  intros Hw. rewrite !parse_lvm_vars_items. cbn [fst snd].
  rewrite spec_items_app by assumption.
  rewrite spec_table_app, length_app. f_equal.
  unfold guint_wrap. rewrite <- Zplus_mod. f_equal. lia.
Qed.

Lemma parse_lvm_vars_joined_witness :
  parse_lvm_vars ("a=1 b=2" +:+ String " " "a=3")
  = (fst (parse_lvm_vars "a=3") ∪ fst (parse_lvm_vars "a=1 b=2"),
     guint_wrap (snd (parse_lvm_vars "a=1 b=2") + snd (parse_lvm_vars "a=3"))).
Proof. apply (parse_lvm_vars_joined "a=1 b=2" "a=3" " "). reflexivity. Defined.

Lemma string_forallb_app (p : ascii -> bool) (a b : string) :
  string_forallb p (a +:+ b) = string_forallb p a && string_forallb p b.
Proof.
  induction a as [|c a IH]; [reflexivity|].
  rewrite append_cons. cbn [string_forallb]. now rewrite IH, andb_assoc.
Qed.

Lemma spec_items_token (k v : string) :
  plain_item (k, v) -> spec_items (k +:+ "=" +:+ v) = [(k, v)].
Proof.
  intros (Heq & Hk & Hv). cbn [fst snd] in *.
  unfold spec_items, spec_tokens. rewrite split_at_plain.
  - cbn [omap list_omap].
    now rewrite (proj2 (spec_key_value_Some _ k v) (conj eq_refl Heq)).
  - rewrite !string_forallb_app, Hk, Hv. reflexivity.
Qed.

Lemma spec_items_format (items : list (string * string)) :
  Forall plain_item items -> spec_items (format_items items) = items.
Proof.
  induction 1 as [|[k v] items Hkv Hitems IH]; [reflexivity|].
  destruct items as [|kv' items'].
  - cbn [format_items]. now apply spec_items_token.
  - change (format_items ((k, v) :: kv' :: items'))
      with (k +:+ "=" +:+ v +:+ " " +:+ format_items (kv' :: items')).
    replace (k +:+ "=" +:+ v +:+ " " +:+ format_items (kv' :: items'))
      with ((k +:+ "=" +:+ v)
            +:+ String " " (format_items (kv' :: items')))
      by now rewrite !append_assoc.
    rewrite spec_items_app by reflexivity.
    now rewrite spec_items_token, IH.
Qed.

Lemma spec_table_lookup_NoDup (items : list (string * string))
    (k v : string) :
  NoDup items.*1 -> (k, v) ∈ items -> spec_table items !! k = Some v.
Proof.
  intros Hnd Hin. apply list_elem_of_split in Hin as (i1 & i2 & ->).
  apply spec_table_last.
  rewrite fmap_app, fmap_cons in Hnd. cbn [fst] in Hnd.
  apply NoDup_app in Hnd as (_ & _ & Hnd).
  now apply NoDup_cons in Hnd as [Hk _].
Qed.

(** X8.  Round trip of the parser: for keys without [=] and white space and
    values without white space, the line that prints them as [key=value]
    tokens separated by spaces is parsed back into the table of these pairs
    with a count of their number; when the keys are distinct, every key
    gets its value back and the table has as many keys as there are
    pairs. *)
Theorem parse_lvm_vars_format (items : list (string * string)) :
  Forall plain_item items ->
  parse_lvm_vars (format_items items)
  = (spec_table items, guint_wrap (Z.of_nat (length items)))
  /\ (NoDup items.*1 ->
      (forall k v, (k, v) ∈ items ->
         fst (parse_lvm_vars (format_items items)) !! k = Some v)
      /\ size (fst (parse_lvm_vars (format_items items))) = length items).
Proof.
  intros Hplain. rewrite parse_lvm_vars_items, spec_items_format by assumption.
  split; [reflexivity|]. cbn [fst]. intros Hnd. split.
  - intros k v. now apply spec_table_lookup_NoDup.
  - rewrite size_spec_table, size_list_to_set.
    + now rewrite length_fmap, length_reverse.
    + now rewrite fmap_reverse, reverse_Permutation.
Qed.

Lemma parse_lvm_vars_format_witness :
  fst (parse_lvm_vars
         (format_items [("LVM2_VG_NAME", "vg0"); ("LVM2_VG_SIZE", "4096")]))
  !! "LVM2_VG_SIZE" = Some "4096".
Proof.
  assert (Forall plain_item
            [("LVM2_VG_NAME", "vg0"); ("LVM2_VG_SIZE", "4096")]) as Hplain.
  { repeat constructor. }
  assert (NoDup [("LVM2_VG_NAME", "vg0"); ("LVM2_VG_SIZE", "4096")].*1)
    as Hnd.
  { cbn. repeat constructor; set_solver. }
  destruct (parse_lvm_vars_format _ Hplain) as [_ Hlookup].
  destruct (Hlookup Hnd) as [Hall _].
  apply Hall. apply list_elem_of_further, list_elem_of_here.
Defined.

Lemma split_at_no_char (f : ascii -> bool) (c : ascii) (s : string) :
  char_in c s = false ->
  Forall (fun t => char_in c t = false) (split_at f s).
Proof.
  induction s as [|d s IH]; cbn [char_in split_at]; intros H.
  - now repeat constructor.
  - apply orb_false_iff in H as [Hd Hs]. specialize (IH Hs).
    destruct (f d); [now constructor|].
    destruct (split_at f s) as [|t ts] eqn:E;
      [now apply split_at_nonempty in E|].
    inversion IH as [|? ? Ht Hts]; subst. constructor; [|assumption].
    cbn [char_in]. now rewrite Hd, Ht.
Qed.

(** X9.  A line without any [=] (an empty line, a blank line, a heading)
    gives the empty table and a count of 0. *)
Theorem parse_lvm_vars_no_equals (line : string) :
  char_in "=" line = false -> parse_lvm_vars line = (∅, 0).
Proof.
  intros Hline. rewrite parse_lvm_vars_items.
  assert (spec_items line = []) as ->; [|reflexivity].
  unfold spec_items, spec_tokens.
  pose proof (split_at_no_char spec_is_whitespace "=" line Hline) as Htok.
  induction Htok as [|t ts Ht _ IH]; [reflexivity|].
  cbn [omap list_omap].
  now rewrite (proj2 (spec_key_value_None t) Ht).
Qed.

Lemma parse_lvm_vars_no_equals_witness :
  parse_lvm_vars "  PV VG Fmt Attr PSize PFree " = (∅, 0).
Proof. apply parse_lvm_vars_no_equals. reflexivity. Defined.

(** ** More on the queries *)

Lemma bd_lvm_pvs_lines_spec (lines : list string) (pvs : list BDLVMPVdata) :
  bd_lvm_pvs_lines lines pvs =
  pvs ++ map (fun l => get_pv_data_from_table (fst (parse_lvm_vars l)))
           (matching_lines 11 lines).
Proof.
  revert pvs. induction lines as [|l lines IH]; intros pvs.
  - cbn. now rewrite app_nil_r.
  - cbn [bd_lvm_pvs_lines matching_lines List.filter].
    destruct (parse_lvm_vars l) as [table n] eqn:E. cbn [fst snd].
    destruct (n =? 11); rewrite IH; [|reflexivity].
    cbn [map]. rewrite E. cbn [fst]. now rewrite <- app_assoc.
Qed.

Lemma bd_lvm_vgs_lines_spec (lines : list string) (vgs : list BDLVMVGdata) :
  bd_lvm_vgs_lines lines vgs =
  vgs ++ map (fun l => get_vg_data_from_table (fst (parse_lvm_vars l)))
           (matching_lines 8 lines).
Proof.
  revert vgs. induction lines as [|l lines IH]; intros vgs.
  - cbn. now rewrite app_nil_r.
  - cbn [bd_lvm_vgs_lines matching_lines List.filter].
    destruct (parse_lvm_vars l) as [table n] eqn:E. cbn [fst snd].
    destruct (n =? 8); rewrite IH; [|reflexivity].
    cbn [map]. rewrite E. cbn [fst]. now rewrite <- app_assoc.
Qed.

Lemma bd_lvm_lvs_lines_spec (lines : list string) (lvs : list BDLVMLVdata) :
  bd_lvm_lvs_lines lines lvs =
  lvs ++ map (fun l => get_lv_data_from_table (fst (parse_lvm_vars l)))
           (matching_lines 6 lines).
Proof.
  revert lvs. induction lines as [|l lines IH]; intros lvs.
  - cbn. now rewrite app_nil_r.
  - cbn [bd_lvm_lvs_lines matching_lines List.filter].
    destruct (parse_lvm_vars l) as [table n] eqn:E. cbn [fst snd].
    destruct (n =? 6); rewrite IH; [|reflexivity].
    cbn [map]. rewrite E. cbn [fst]. now rewrite <- app_assoc.
Qed.

Lemma list_all_result_length {A : Type} (records : list A) (what : string) :
  (if Z.of_nat (length records) =? 0
   then Returns (None, g_set_error None BD_LVM_ERROR BD_LVM_ERROR_PARSE what)
   else Returns (Some records, None))
  = Returns (list_all_result records what).
Proof. now destruct records. Qed.

Ltac list_all_success Hne Hrun lines_spec :=
  unfold bind, ret; rewrite call_lvm_and_capture_output_run, Hrun;
  cbn [default]; rewrite capture_outcome_success by assumption;
  cbn [negb fst snd default stored];
  unfold id; rewrite g_strsplit_lines by assumption;
  rewrite lines_spec; cbn [app];
  rewrite <- list_all_result_length;
  match goal with
  | |- context [if ?c then _ else _] => destruct c
  end; reflexivity.

Lemma list_all_lines (W : World) (st : State) (out err : string)
    (vg_name : option string) :
  out <> EmptyString ->
  (spawn W (lvm_vector st (pvs_query ++ [None])) = ProcExited 0 out err ->
   fst (bd_lvm_pvs W (Some None) st) =
   Returns
     (list_all_result
        (map (fun l => get_pv_data_from_table (fst (parse_lvm_vars l)))
           (matching_lines 11 (spec_lines out)))
        "Failed to parse information about PVs"))
  /\ (spawn W (lvm_vector st (vgs_query ++ [None])) = ProcExited 0 out err ->
      fst (bd_lvm_vgs W (Some None) st) =
      Returns
        (list_all_result
           (map (fun l => get_vg_data_from_table (fst (parse_lvm_vars l)))
              (matching_lines 8 (spec_lines out)))
           "Failed to parse information about VGs"))
  /\ (spawn W (lvm_vector st (lvs_query ++ [vg_name; None]))
      = ProcExited 0 out err ->
      fst (bd_lvm_lvs W vg_name (Some None) st) =
      Returns
        (list_all_result
           (map (fun l => get_lv_data_from_table (fst (parse_lvm_vars l)))
              (matching_lines 6 (spec_lines out)))
           "Failed to parse information about LVs")).
Proof.
  intros Hne. split; [|split]; intros Hrun.
  - unfold bd_lvm_pvs. list_all_success Hne Hrun bd_lvm_pvs_lines_spec.
  - unfold bd_lvm_vgs. list_all_success Hne Hrun bd_lvm_vgs_lines_spec.
  - unfold bd_lvm_lvs. list_all_success Hne Hrun bd_lvm_lvs_lines_spec.
Qed.

(** X10.  When its command succeeds with the output [out], a list-all query
    returns the records of all the lines of [out] whose reported number of
    items is the size of the schema, in the order of the lines, every field
    of a record holding what its line gives to the key of the field; when
    no line qualifies it returns [NULL] with [BD_LVM_ERROR_PARSE], never an
    empty array.  The caller passes a location for the error, empty on
    entry. *)
Theorem list_all_records (W : World) (st : State) (out err : string)
    (vg_name : option string) :
  out <> EmptyString ->
  (spawn W (lvm_vector st (pvs_query ++ [None])) = ProcExited 0 out err ->
   fst (bd_lvm_pvs W (Some None) st) =
   Returns
     (list_all_result
        (map (fun l => pv_record (spec_items l))
           (matching_lines 11 (spec_lines out)))
        "Failed to parse information about PVs"))
  /\ (spawn W (lvm_vector st (vgs_query ++ [None])) = ProcExited 0 out err ->
      fst (bd_lvm_vgs W (Some None) st) =
      Returns
        (list_all_result
           (map (fun l => vg_record (spec_items l))
              (matching_lines 8 (spec_lines out)))
           "Failed to parse information about VGs"))
  /\ (spawn W (lvm_vector st (lvs_query ++ [vg_name; None]))
      = ProcExited 0 out err ->
      fst (bd_lvm_lvs W vg_name (Some None) st) =
      Returns
        (list_all_result
           (map (fun l => lv_record (spec_items l))
              (matching_lines 6 (spec_lines out)))
           "Failed to parse information about LVs")).
Proof.
  intros Hne.
  destruct (list_all_lines W st out err vg_name Hne) as (Hpvs & Hvgs & Hlvs).
  split; [|split]; intros Hrun.
  - rewrite (Hpvs Hrun). do 2 f_equal. apply map_ext.
    intros l. apply get_pv_data_from_table_record.
  - rewrite (Hvgs Hrun). do 2 f_equal. apply map_ext.
    intros l. apply get_vg_data_from_table_record.
  - rewrite (Hlvs Hrun). do 2 f_equal. apply map_ext.
    intros l. apply get_lv_data_from_table_record.
Qed.

Lemma list_all_records_witness :
  fst (bd_lvm_pvs (printing sample_pv_output) (Some None) st0)
  = Returns
      (Some [{| PVdata.pv_name := Some "/dev/sda1";
                PVdata.pv_uuid := Some "p1"; PVdata.pe_start := 1048576;
                PVdata.vg_name := Some "vg0"; PVdata.vg_uuid := Some "u1";
                PVdata.vg_size := 4096; PVdata.vg_free := 1024;
                PVdata.vg_extent_size := 4; PVdata.vg_extent_count := 1024;
                PVdata.vg_free_count := 256; PVdata.vg_pv_count := 1 |}],
       None)
  /\ fst (bd_lvm_vgs (printing sample_vgs_output) (Some None) st0)
     = Returns
         (Some [{| VGdata.name := Some "vg0"; VGdata.uuid := Some "u1";
                   VGdata.size := 4096; VGdata.free := 1024;
                   VGdata.extent_size := 4; VGdata.extent_count := 1024;
                   VGdata.free_count := 256; VGdata.pv_count := 1 |};
                {| VGdata.name := Some "vg1"; VGdata.uuid := Some "u2";
                   VGdata.size := 8192; VGdata.free := 0;
                   VGdata.extent_size := 4; VGdata.extent_count := 2048;
                   VGdata.free_count := 0; VGdata.pv_count := 2 |}], None)
  /\ fst (bd_lvm_lvs (printing sample_lv_output) None (Some None) st0)
     = Returns
         (Some [{| LVdata.lv_name := Some "lv0";
                   LVdata.vg_name := Some "vg0"; LVdata.uuid := Some "l1";
                   LVdata.size := 2048; LVdata.attr := Some "-wi-a-----";
                   LVdata.segtype := Some "linear" |}], None).
Proof.
  split; [|split].
  - destruct (list_all_records (printing sample_pv_output) st0
                sample_pv_output EmptyString None ltac:(discriminate))
      as (Hpvs & _).
    rewrite (Hpvs eq_refl). vm_compute. reflexivity.
  - destruct (list_all_records (printing sample_vgs_output) st0
                sample_vgs_output EmptyString None ltac:(discriminate))
      as (_ & Hvgs & _).
    rewrite (Hvgs eq_refl). vm_compute. reflexivity.
  - destruct (list_all_records (printing sample_lv_output) st0
                sample_lv_output EmptyString None ltac:(discriminate))
      as (_ & _ & Hlvs).
    rewrite (Hlvs eq_refl). vm_compute. reflexivity.
Defined.

Lemma fetch_one_lines (W : World) (st : State) (out err : string) :
  out <> EmptyString ->
  (forall device,
     spawn W (lvm_vector st (pvs_query ++ [device; None]))
     = ProcExited 0 out err ->
     fst (bd_lvm_pvinfo W device None st) =
     match spec_first_record 11 (spec_lines out) with
     | Some table => (Some (get_pv_data_from_table table), None)
     | None => (None, parse_error "Failed to parse information about the PV")
     end)
  /\ (forall vg_name,
        spawn W (lvm_vector st (vgs_query ++ [vg_name; None]))
        = ProcExited 0 out err ->
        fst (bd_lvm_vginfo W vg_name None st) =
        match spec_first_record 8 (spec_lines out) with
        | Some table => (Some (get_vg_data_from_table table), None)
        | None =>
            (None, parse_error "Failed to parse information about the VG")
        end)
  /\ (forall vg_name lv_name,
        spawn W (lvm_vector st
                   (lvs_query ++ [Some (vg_name +:+ "/" +:+ lv_name); None]))
        = ProcExited 0 out err ->
        fst (bd_lvm_lvinfo W vg_name lv_name None st) =
        match spec_first_record 6 (spec_lines out) with
        | Some table => (Some (get_lv_data_from_table table), None)
        | None =>
            (None, parse_error "Failed to parse information about the LV")
        end).
Proof.
  intros Hne. split; [|split].
  - intros device Hrun. unfold bd_lvm_pvinfo, bind, ret.
    rewrite call_lvm_and_capture_output_run, Hrun.
    rewrite capture_outcome_success by assumption. cbn [negb fst default].
    rewrite g_strsplit_lines by assumption.
    apply bd_lvm_pvinfo_lines_first.
  - intros vg_name Hrun. unfold bd_lvm_vginfo, bind, ret.
    rewrite call_lvm_and_capture_output_run, Hrun.
    rewrite capture_outcome_success by assumption. cbn [negb fst default].
    rewrite g_strsplit_lines by assumption.
    apply bd_lvm_vginfo_lines_first.
  - intros vg_name lv_name Hrun. unfold bd_lvm_lvinfo, bind, ret.
    rewrite call_lvm_and_capture_output_run, Hrun.
    rewrite capture_outcome_success by assumption. cbn [negb fst default].
    rewrite g_strsplit_lines by assumption.
    apply bd_lvm_lvinfo_lines_first.
Qed.

Lemma spec_first_record_head (schema : Z) (lines : list string) :
  spec_first_record schema lines =
  match matching_lines schema lines with
  | l :: _ => Some (fst (parse_lvm_vars l))
  | [] => None
  end.
Proof.
  induction lines as [|l lines IH]; [reflexivity|].
  rewrite spec_first_record_cons. cbn [matching_lines List.filter].
  destruct (snd (parse_lvm_vars l) =? schema); [reflexivity|exact IH].
Qed.

(** X11.  A fetch-one query and its list-all query agree: when both
    commands succeed with the same output, the list-all query returns, the
    record of [bd_lvm_pvinfo], [bd_lvm_vginfo] or [bd_lvm_lvinfo] is the
    first record of the array of [bd_lvm_pvs], [bd_lvm_vgs] or
    [bd_lvm_lvs], and one returns [NULL] exactly when the other does. *)
Theorem fetch_one_is_head_of_list_all (W : World) (st : State)
    (out err : string) (device vg_name vg_filter : option string)
    (vg lv : string) :
  out <> EmptyString ->
  (spawn W (lvm_vector st (pvs_query ++ [device; None]))
   = ProcExited 0 out err ->
   spawn W (lvm_vector st (pvs_query ++ [None])) = ProcExited 0 out err ->
   exists pvs error,
     fst (bd_lvm_pvs W (Some None) st) = Returns (pvs, error)
     /\ fst (fst (bd_lvm_pvinfo W device None st)) = head (default [] pvs)
     /\ (fst (fst (bd_lvm_pvinfo W device None st)) = None <-> pvs = None))
  /\ (spawn W (lvm_vector st (vgs_query ++ [vg_name; None]))
      = ProcExited 0 out err ->
      spawn W (lvm_vector st (vgs_query ++ [None])) = ProcExited 0 out err ->
      exists vgs error,
        fst (bd_lvm_vgs W (Some None) st) = Returns (vgs, error)
        /\ fst (fst (bd_lvm_vginfo W vg_name None st))
           = head (default [] vgs)
        /\ (fst (fst (bd_lvm_vginfo W vg_name None st)) = None <->
            vgs = None))
  /\ (spawn W (lvm_vector st
                 (lvs_query ++ [Some (vg +:+ "/" +:+ lv); None]))
      = ProcExited 0 out err ->
      spawn W (lvm_vector st (lvs_query ++ [vg_filter; None]))
      = ProcExited 0 out err ->
      exists lvs error,
        fst (bd_lvm_lvs W vg_filter (Some None) st) = Returns (lvs, error)
        /\ fst (fst (bd_lvm_lvinfo W vg lv None st)) = head (default [] lvs)
        /\ (fst (fst (bd_lvm_lvinfo W vg lv None st)) = None <->
            lvs = None)).
Proof.
  intros Hne.
  destruct (fetch_one_lines W st out err Hne) as (Hpv & Hvg & Hlv).
  destruct (list_all_lines W st out err vg_filter Hne)
    as (Hpvs & Hvgs & Hlvs).
  split; [|split]; intros Hone Hall.
  - rewrite (Hpv device Hone), (Hpvs Hall), spec_first_record_head.
    destruct (matching_lines 11 (spec_lines out)); cbn;
      (do 2 eexists; split; [reflexivity|]);
      (split; [reflexivity | split; congruence]).
  - rewrite (Hvg vg_name Hone), (Hvgs Hall), spec_first_record_head.
    destruct (matching_lines 8 (spec_lines out)); cbn;
      (do 2 eexists; split; [reflexivity|]);
      (split; [reflexivity | split; congruence]).
  - rewrite (Hlv vg lv Hone), (Hlvs Hall), spec_first_record_head.
    destruct (matching_lines 6 (spec_lines out)); cbn;
      (do 2 eexists; split; [reflexivity|]);
      (split; [reflexivity | split; congruence]).
Qed.

Lemma fetch_one_is_head_of_list_all_witness :
  exists vgs error,
    fst (bd_lvm_vgs (printing sample_vg_output) (Some None) st0)
    = Returns (vgs, error)
    /\ fst (fst (bd_lvm_vginfo (printing sample_vg_output) (Some "vg0") None
                   st0))
       = head (default [] vgs).
Proof.
  assert (sample_vg_output <> EmptyString) as Hne by discriminate.
  destruct (fetch_one_is_head_of_list_all (printing sample_vg_output) st0
              sample_vg_output EmptyString None (Some "vg0") None
              EmptyString EmptyString Hne) as (_ & Hvg & _).
  destruct Hvg as (vgs & error & Hret & Hhead & _);
    [reflexivity | reflexivity |].
  exists vgs, error. now split.
Defined.

Ltac fetch_one_cases :=
  unfold bind, ret; rewrite call_lvm_and_capture_output_run;
  match goal with
  | |- context [spawn ?W ?v] => destruct (spawn W v) as [status out err|reason]
  end;
  unfold fetch_one_contract; cbn [capture_outcome];
  (split; [|split]);
  [ intros err' [= -> -> ->]; reflexivity
  | intros status' out' err' [= <- <- <-] Hstatus;
    apply Z.eqb_neq in Hstatus; rewrite Hstatus; reflexivity
  | intros reason' [=]
  | intros err' [=]
  | intros status' out' err' [=]
  | intros reason' [= <-]; reflexivity ].

(** X12.  A fetch-one query hands every failure of its command to the
    caller: [bd_lvm_pvinfo], [bd_lvm_vginfo] and [bd_lvm_lvinfo] return
    [NULL] with the error of the executor when the command exits with a
    non-zero status, cannot be started, or, unlike the list-all queries,
    exits with status 0 and prints nothing. *)
Theorem fetch_one_failures (W : World) (st : State)
    (device vg_name : option string) (vg lv : string) :
  fetch_one_contract
    (spawn W (lvm_vector st (pvs_query ++ [device; None])))
    (fst (bd_lvm_pvinfo W device None st))
  /\ fetch_one_contract
       (spawn W (lvm_vector st (vgs_query ++ [vg_name; None])))
       (fst (bd_lvm_vginfo W vg_name None st))
  /\ fetch_one_contract
       (spawn W (lvm_vector st
                   (lvs_query ++ [Some (vg +:+ "/" +:+ lv); None])))
       (fst (bd_lvm_lvinfo W vg lv None st)).
Proof.
  split; [|split].
  - unfold bd_lvm_pvinfo. fetch_one_cases.
  - unfold bd_lvm_vginfo. fetch_one_cases.
  - unfold bd_lvm_lvinfo. fetch_one_cases.
Qed.

Lemma fetch_one_failures_witness :
  fst (bd_lvm_pvinfo (printing EmptyString) (Some "/dev/sda1") None st0)
  = (None, Some (mkGError BD_UTILS_EXEC_ERROR BD_UTILS_EXEC_ERROR_NOOUT
                   EmptyString)).
Proof.
  destruct (fetch_one_failures (printing EmptyString) st0
              (Some "/dev/sda1") None EmptyString EmptyString)
    as [[Hnone _] _].
  apply (Hnone EmptyString). reflexivity.
Defined.

(** ** Progress of the threads *)

(** What a step does to the mutex. *)
Lemma thread_step_owner (i : nat) (sh sh' : Shared) (t t' : Thread) :
  thread_step i sh t = Some (sh', t') ->
  (owner sh = None /\ owner sh' = Some i /\ holds_lock t' = true)
  \/ (owner sh' = None /\ holds_lock t = true)
  \/ (owner sh' = owner sh /\ holds_lock t = true /\ holds_lock t' = true).
Proof.
  destruct t as [o p sn]. unfold thread_step, try_lock, unlock.
  cbn [op pc seen].
  destruct o as [v| |args]; destruct p as [|[|[|[|p]]]];
    try discriminate;
    try (destruct (owner sh) eqn:Ho; [discriminate|]);
    intros [= <- <-]; cbn; auto.
Qed.

Lemma holds_lock_can_step (i : nat) (sh : Shared) (t : Thread) :
  holds_lock t = true -> is_Some (thread_step i sh t).
Proof.
  destruct t as [o p sn]. unfold holds_lock, thread_step, unlock.
  cbn [op pc seen].
  destruct o as [v| |args]; destruct p as [|[|[|[|p]]]];
    try discriminate; intros _; eexists; reflexivity.
Qed.

Lemma waiting_can_lock (i : nat) (sh : Shared) (t : Thread) :
  owner sh = None -> finished t = false -> holds_lock t = false ->
  is_Some (thread_step i sh t).
Proof.
  destruct t as [o p sn]. unfold holds_lock, finished, thread_step, try_lock.
  cbn [op pc seen]. intros ->.
  destruct o as [v| |args]; destruct p as [|[|[|[|p]]]];
    try discriminate; intros _ _; eexists; reflexivity.
Qed.

Lemma owner_ok_step (c0 : option string) (ops : list ThreadOp) (i : nat)
    (s : System) :
  sys_inv c0 ops s -> owner_ok s -> owner_ok (sys_step i s).
Proof.
  intros Hinv Hown. destruct s as [sh ths]. unfold sys_step. cbn [fst snd].
  destruct (ths !! i) as [t|] eqn:Hi; [|exact Hown].
  destruct (thread_step i sh t) as [[sh' t']|] eqn:Hstep; [|exact Hown].
  assert (i < length ths)%nat as Hlen by (eapply lookup_lt_Some; eassumption).
  destruct Hinv as (Hth & _ & _). cbn [fst snd] in Hth.
  destruct (Hth i t Hi) as (_ & Hoi & _).
  intros j Hj. cbn [fst snd] in *.
  destruct (thread_step_owner i sh sh' t t' Hstep)
    as [(_ & Ho & Hl)|[(Ho & _)|(Ho & Hl & Hl')]].
  - rewrite Ho in Hj. injection Hj as <-. exists t'.
    split; [now apply list_lookup_insert_eq|assumption].
  - congruence.
  - rewrite Ho in Hj. apply Hoi in Hl.
    assert (j = i) as -> by congruence. exists t'.
    split; [now apply list_lookup_insert_eq|assumption].
Qed.

Lemma owner_ok_run (c0 : option string) (ops : list ThreadOp)
    (schedule : list nat) :
  owner_ok (run_schedule schedule (start c0 ops)).
Proof.
  assert (forall s, sys_inv c0 ops s -> owner_ok s ->
                    owner_ok (run_schedule schedule s)) as Hrun.
  { unfold run_schedule.
    induction schedule as [|i schedule IH]; intros s Hinv Hown;
      [exact Hown|].
    cbn [fold_left]. apply IH; [now apply sys_inv_step|].
    now apply owner_ok_step with c0 ops. }
  apply Hrun; [apply sys_inv_start|].
  intros i. cbn. discriminate.
Qed.

(** X13.  The lock discipline cannot deadlock: after any schedule, either
    every thread has returned, and then the mutex is free and the global
    configuration holds a written value, or some thread can take its next
    step. *)
Theorem threads_never_deadlock (c0 : option string) (ops : list ThreadOp)
    (schedule : list nat) :
  let s := run_schedule schedule (start c0 ops) in
  (Forall (fun t => finished t = true) (snd s)
   /\ owner (fst s) = None
   /\ exists v, cell (fst s) = Stored v /\ written c0 ops v)
  \/ (exists i t, snd s !! i = Some t /\ finished t = false
                  /\ is_Some (thread_step i (fst s) t)).
Proof.
  cbn zeta.
  pose proof (sys_inv_run c0 ops schedule _ (sys_inv_start c0 ops)) as Hinv.
  pose proof (owner_ok_run c0 ops schedule) as Hown.
  destruct (run_schedule schedule (start c0 ops)) as [sh ths].
  cbn [fst snd] in *.
  assert (forall t, holds_lock t = true -> finished t = false) as Hnf.
  { intros [o p sn]. unfold holds_lock, finished. cbn [op pc].
    destruct o; destruct p as [|[|[|[|p]]]]; try discriminate; reflexivity. }
  destruct (owner sh) as [i|] eqn:Ho.
  - right. destruct (Hown i Ho) as (t & Hi & Hl). exists i, t.
    split; [assumption|]. split; [now apply Hnf|].
    now apply holds_lock_can_step.
  - destruct (decide (Forall (fun t => finished t = true) ths))
      as [Hall|Hex]; [|apply not_Forall_Exists in Hex; [|apply _]].
    + left. split; [assumption|]. split; [reflexivity|].
      pose proof Hinv as (_ & Hcok & _). unfold cell_ok in Hcok.
      cbn [fst snd] in Hcok.
      destruct (cell sh) as [v|] eqn:Hc; [now exists v|].
      destruct Hcok as (k & tk & v & Hk & Hop & Hpc). exfalso.
      assert (finished tk = true) as Hf.
      { rewrite Forall_forall in Hall. apply Hall.
        eapply list_elem_of_lookup_2. eassumption. }
      unfold finished in Hf. rewrite Hop, Hpc in Hf. discriminate.
    + right. apply Exists_exists in Hex as (t & Hin & Hf).
      apply list_elem_of_lookup in Hin as (i & Hi).
      cbn in Hf. apply not_true_is_false in Hf.
      exists i, t. split; [assumption|]. split; [assumption|].
      apply waiting_can_lock; try assumption.
      destruct (holds_lock t) eqn:Hl; [|reflexivity].
      destruct Hinv as (Hth & _ & _).
      destruct (Hth i t Hi) as (_ & Hoi & _). apply Hoi in Hl.
      cbn in Hl. congruence.
Qed.

Example sample_run_finishes :
  Forall (fun t => finished t = true)
    (snd (run_schedule sample_schedule (start (Some "old") sample_ops))).
Proof. vm_compute. repeat constructor. Qed.

(** ** Subvolume paths *)

Lemma string_length_app (a b : string) :
  String.length (a +:+ b) = (String.length a + String.length b)%nat.
Proof.
  induction a as [|c a IH]; [reflexivity|].
  rewrite append_cons. cbn [String.length]. now rewrite IH.
Qed.

Lemma string_drop_app (a b : string) :
  string_drop (String.length a) (a +:+ b) = b.
Proof.
  induction a as [|c a IH]; [reflexivity|].
  rewrite append_cons. exact IH.
Qed.

Lemma g_str_has_suffix_app (base suffix : string) :
  g_str_has_suffix (base +:+ suffix) suffix = true.
Proof.
  unfold g_str_has_suffix. rewrite string_length_app.
  destruct (Nat.ltb_spec (String.length base + String.length suffix)
              (String.length suffix)) as [Hlt|_]; [lia|].
  replace (String.length base + String.length suffix - String.length suffix)%nat
    with (String.length base) by lia.
  rewrite string_drop_app. now apply bool_decide_eq_true_2.
Qed.

Lemma string_drop_split (n : nat) (s : string) :
  exists base, s = base +:+ string_drop n s.
Proof.
  revert s. induction n as [|n IH]; intros s.
  - now exists EmptyString.
  - destruct s as [|c s]; [now exists EmptyString|].
    destruct (IH s) as (base & Hbase). exists (String c base).
    cbn [string_drop]. rewrite append_cons. now f_equal.
Qed.

Lemma g_str_has_suffix_split (str suffix : string) :
  g_str_has_suffix str suffix = true -> exists base, str = base +:+ suffix.
Proof.
  unfold g_str_has_suffix.
  destruct (String.length str <? String.length suffix)%nat; [discriminate|].
  intros H. apply bool_decide_eq_true_1 in H.
  destruct (string_drop_split
              (String.length str - String.length suffix) str) as (base & Hb).
  exists base. now rewrite H in Hb.
Qed.

(** X14.  [bd_btrfs_create_subvolume] and [bd_btrfs_delete_subvolume] run
    [btrfs subvol create] and [btrfs subvol delete] on the same path, the
    mount point and the name with exactly one slash put between them when
    the mount point does not end with one: a final slash on the mount
    point makes no difference, and an empty mount point gives the name
    under the root. *)
Theorem subvolume_path_join (W : World) (mountpoint name : string)
    (error : option GError) (st : State) :
  (exists base,
     (mountpoint = base \/ mountpoint = base +:+ "/")
     /\ subvolume_path mountpoint name = base +:+ "/" +:+ name
     /\ bd_btrfs_create_subvolume W mountpoint name error st
        = (report_outcome
             (spawn W ["btrfs"; "subvol"; "create"; base +:+ "/" +:+ name])
             error,
           mkState (global_config_str st)
             (trace st ++
              [EvExec ["btrfs"; "subvol"; "create"; base +:+ "/" +:+ name]]))
     /\ bd_btrfs_delete_subvolume W mountpoint name error st
        = (report_outcome
             (spawn W ["btrfs"; "subvol"; "delete"; base +:+ "/" +:+ name])
             error,
           mkState (global_config_str st)
             (trace st ++
              [EvExec ["btrfs"; "subvol"; "delete"; base +:+ "/" +:+ name]])))
  /\ (g_str_has_suffix mountpoint "/" = false ->
      subvolume_path (mountpoint +:+ "/") name
      = subvolume_path mountpoint name)
  /\ subvolume_path EmptyString name = "/" +:+ name.
Proof.
  split; [|split].
  - assert (exists base,
              (mountpoint = base \/ mountpoint = base +:+ "/")
              /\ subvolume_path mountpoint name = base +:+ "/" +:+ name)
      as (base & Hm & Hpath).
    { unfold subvolume_path.
      destruct (g_str_has_suffix mountpoint "/") eqn:Hs.
      - apply g_str_has_suffix_split in Hs as (base & ->).
        exists base. split; [now right|]. now rewrite append_assoc.
      - exists mountpoint. split; [now left|reflexivity]. }
    exists base. split; [exact Hm|]. split; [exact Hpath|].
    unfold bd_btrfs_create_subvolume, bd_btrfs_delete_subvolume,
      bd_utils_exec_and_report_error, g_spawn_sync, bind, ret, emit.
    cbn [strv_of_array]. rewrite Hpath. split; reflexivity.
  - intros Hs. unfold subvolume_path.
    rewrite g_str_has_suffix_app, Hs. now rewrite append_assoc.
  - reflexivity.
Qed.

Lemma subvolume_path_join_witness :
  subvolume_path ("/mnt" +:+ "/") "home" = subvolume_path "/mnt" "home".
Proof.
  destruct (subvolume_path_join all_present "/mnt" "home" None st0)
    as (_ & Hslash & _).
  apply Hslash. reflexivity.
Defined.

(** ** Creating a Btrfs volume: the argument vector *)

Lemma check_devices_present (W : World) (devices : list string) (n : Z) :
  Forall (fun d => access_ok W d = true) devices ->
  check_devices W devices (guint8_wrap n)
  = inr (guint8_wrap (n + Z.of_nat (length devices))).
Proof.
  intros Hall. revert n. induction Hall as [|d devices Hd _ IH]; intros n.
  - cbn. now rewrite Z.add_0_r.
  - cbn [check_devices length]. rewrite Hd. cbn [negb].
    unfold guint8_wrap at 1 2. rewrite Z.add_mod_idemp_l by lia.
    fold (guint8_wrap (n + 1)). rewrite IH. do 2 f_equal. lia.
Qed.

(** An array whose first slots are written and whose other slots are
    still empty. *)
Lemma array_store_next (known : list string) (r : nat) (v : option string) :
  array_store (map Some known ++ replicate (S r) None)
    (Z.of_nat (length known)) v
  = Some (map Some known ++ v :: replicate r None).
Proof.
  unfold array_store. rewrite length_app, length_map, length_replicate.
  destruct (Z.leb_spec 0 (Z.of_nat (length known))) as [_|]; [|lia].
  destruct (Z.ltb_spec (Z.of_nat (length known))
              (Z.of_nat (length known + S r))) as [_|]; [|lia].
  cbn [andb]. rewrite Nat2Z.id. f_equal.
  rewrite insert_app_r_alt by (rewrite length_map; lia).
  rewrite length_map, Nat.sub_diag. reflexivity.
Qed.

Lemma array_store_next_some (known : list string) (r : nat) (x : string) :
  array_store (map Some known ++ replicate (S r) None)
    (Z.of_nat (length known)) (Some x)
  = Some (map Some (known ++ [x]) ++ replicate r None).
Proof.
  rewrite array_store_next, map_app. cbn [map]. now rewrite <- app_assoc.
Qed.

Lemma store_option_next (flag : string) (value : option string)
    (known : list string) (r : nat) :
  (length known + 2 <= 255)%nat ->
  store_option flag value
    (Some (Z.of_nat (length known),
           map Some known ++ replicate (S (S r)) None))
  = match value with
    | Some v =>
        Some (Z.of_nat (length (known ++ [flag; v])),
              map Some (known ++ [flag; v]) ++ replicate r None)
    | None =>
        Some (Z.of_nat (length known),
              map Some known ++ replicate (S (S r)) None)
    end.
Proof.
  intros Hlen. unfold store_option. destruct value as [v|]; [|reflexivity].
  rewrite array_store_next_some.
  assert (guint8_wrap (Z.of_nat (length known) + 1)
          = Z.of_nat (length (known ++ [flag]))) as ->.
  { unfold guint8_wrap. rewrite Z.mod_small by lia.
    rewrite length_app. cbn. lia. }
  rewrite array_store_next_some.
  assert (guint8_wrap (Z.of_nat (length (known ++ [flag])) + 1)
          = Z.of_nat (length (known ++ [flag; v]))) as ->.
  { unfold guint8_wrap. rewrite !length_app. cbn [length].
    rewrite Z.mod_small by lia. lia. }
  now rewrite <- app_assoc.
Qed.

Lemma copy_devices_copies (m : nat) :
  forall (rounds : nat) (devices : list string) (j : nat)
         (known : list string) (r : nat) (num_args : Z),
    (m <= rounds)%nat -> (j + m <= length devices)%nat ->
    num_args + 1 = Z.of_nat (length known + m) -> num_args <= 254 ->
    copy_devices rounds devices j (Z.of_nat (length known)) num_args
      (map Some known ++ replicate (m + S r) None)
    = Some (num_args + 1,
            map Some (known ++ take m (drop j devices))
            ++ replicate (S r) None).
Proof.
  induction m as [|m IH]; intros rounds devices j known r num_args
    Hrounds Hdev Hnum Hmax.
  - assert (Z.of_nat (length known) <=? num_args = false) as Hc
      by (apply Z.leb_gt; lia).
    cbn [take Nat.add]. rewrite app_nil_r.
    replace (num_args + 1) with (Z.of_nat (length known)) by lia.
    destruct rounds; cbn [copy_devices]; now rewrite Hc.
  - destruct rounds as [|rounds]; [lia|].
    assert (Z.of_nat (length known) <=? num_args = true) as Hc
      by (apply Z.leb_le; lia).
    cbn [copy_devices]. rewrite Hc.
    destruct (devices !! j) as [d|] eqn:Hd;
      [|apply lookup_ge_None in Hd; lia].
    unfold device_slot. rewrite Hd.
    cbn [Nat.add]. rewrite array_store_next_some.
    assert (guint8_wrap (Z.of_nat (length known) + 1)
            = Z.of_nat (length (known ++ [d]))) as ->.
    { unfold guint8_wrap. rewrite Z.mod_small by lia.
      rewrite length_app. cbn. lia. }
    rewrite (IH rounds devices (S j) (known ++ [d]) r num_args);
      try lia; [|rewrite length_app; cbn; lia].
    rewrite (drop_S devices d j Hd). cbn [take].
    now rewrite <- app_assoc.
Qed.

Lemma array_store_lt (a : list (option string)) (i : nat)
    (v : option string) :
  (i < length a)%nat -> array_store a (Z.of_nat i) v = Some (<[i := v]> a).
Proof.
  intros Hlt. unfold array_store.
  destruct (Z.leb_spec 0 (Z.of_nat i)); [|lia].
  destruct (Z.ltb_spec (Z.of_nat i) (Z.of_nat (length a))); [|lia].
  cbn [andb]. now rewrite Nat2Z.id.
Qed.

Lemma add_if_set_small (value : option string) (n : Z) :
  0 <= n <= 253 ->
  add_if_set value n = n + match value with Some _ => 2 | None => 0 end.
Proof.
  intros Hn. destruct value; cbn [add_if_set]; [|lia].
  unfold guint8_wrap. apply Z.mod_small. lia.
Qed.

Lemma store_option_opt_args (flag : string) (value : option string)
    (known : list string) (r : nat) :
  (length known + 2 <= 255)%nat ->
  store_option flag value
    (Some (Z.of_nat (length known),
           map Some known
           ++ replicate (length (opt_args flag value) + r) None))
  = Some (Z.of_nat (length (known ++ opt_args flag value)),
          map Some (known ++ opt_args flag value) ++ replicate r None).
Proof.
  intros Hlen. destruct value as [v|].
  - now apply (store_option_next flag (Some v) known r).
  - cbn [opt_args length Nat.add]. now rewrite app_nil_r.
Qed.

Lemma add_if_set_opt_args (flag : string) (value : option string) (n : Z) :
  0 <= n -> n + Z.of_nat (length (opt_args flag value)) <= 255 ->
  add_if_set value n = n + Z.of_nat (length (opt_args flag value)).
Proof.
  intros Hn Hmax. destruct value; cbn [add_if_set opt_args length] in *.
  - unfold guint8_wrap. apply Z.mod_small. lia.
  - lia.
Qed.

Lemma opt_args_length (flag : string) (value : option string) :
  (length (opt_args flag value) <= 2)%nat.
Proof. destruct value; cbn; lia. Qed.

(** X15.  When every device exists and the devices and the optional
    arguments together are at most 254, [bd_btrfs_create_volume] runs
    exactly [mkfs.btrfs], then [--label], [--data] and [--metadata] with
    their values for those that are given, then the devices in order, and
    returns what the executor reports. *)
Theorem create_volume_vector (W : World) (devices : list string)
    (label data_level md_level : option string) (error : option GError)
    (st : State) :
  devices <> [] ->
  Forall (fun d => access_ok W d = true) devices ->
  (length devices + length (mkfs_options label data_level md_level)
   <= 254)%nat ->
  let argv := "mkfs.btrfs" :: mkfs_options label data_level md_level
              ++ devices in
  bd_btrfs_create_volume W (Some devices) label data_level md_level error st
  = (Returns (report_outcome (spawn W argv) error),
     mkState (global_config_str st) (trace st ++ [EvExec argv])).
Proof.
  intros Hne Hall Hfit. cbn zeta.
  unfold mkfs_options in *. rewrite !length_app in Hfit.
  pose proof (opt_args_length "--label" label) as Hl.
  pose proof (opt_args_length "--data" data_level) as Hd.
  pose proof (opt_args_length "--metadata" md_level) as Hm.
  set (ll := length (opt_args "--label" label)) in *.
  set (ld := length (opt_args "--data" data_level)) in *.
  set (lm := length (opt_args "--metadata" md_level)) in *.
  set (n := length devices) in *.
  unfold bd_btrfs_create_volume.
  assert (g_strv_length devices <? 1 = false) as ->.
  { apply Z.ltb_ge. unfold g_strv_length. destruct devices; [congruence|].
    cbn [length]. lia. }
  change (check_devices W devices 0)
    with (check_devices W devices (guint8_wrap 0)).
  rewrite check_devices_present by assumption. fold n.
  assert (guint8_wrap (0 + Z.of_nat n) = Z.of_nat n) as ->
    by (unfold guint8_wrap; apply Z.mod_small; lia).
  rewrite (add_if_set_opt_args "--label" label (Z.of_nat n))
    by (fold ll; lia).
  fold ll.
  rewrite (add_if_set_opt_args "--data" data_level
             (Z.of_nat n + Z.of_nat ll)) by (fold ld; lia).
  fold ld.
  rewrite (add_if_set_opt_args "--metadata" md_level
             (Z.of_nat n + Z.of_nat ll + Z.of_nat ld)) by (fold lm; lia).
  fold lm.
  replace (Z.to_nat (Z.of_nat n + Z.of_nat ll + Z.of_nat ld + Z.of_nat lm + 2))
    with (S (ll + (ld + (lm + (n + 1)))))%nat by lia.
  change (array_store (replicate (S (ll + (ld + (lm + (n + 1))))) None) 0
            (Some "mkfs.btrfs"))
    with (array_store
            (map Some [] ++ replicate (S (ll + (ld + (lm + (n + 1))))) None)
            (Z.of_nat (length (@nil string))) (Some "mkfs.btrfs")).
  rewrite array_store_next_some. cbn [app].
  change (Some (1, map Some ["mkfs.btrfs"]
                   ++ replicate (ll + (ld + (lm + (n + 1)))) None))
    with (Some (Z.of_nat (length ["mkfs.btrfs"]),
                map Some ["mkfs.btrfs"]
                ++ replicate (ll + (ld + (lm + (n + 1)))) None)).
  unfold ll at 1. rewrite store_option_opt_args by (cbn; lia).
  unfold ld at 1. rewrite store_option_opt_args
    by (rewrite length_app; cbn [length]; fold ll; lia).
  unfold lm at 1. rewrite store_option_opt_args
    by (rewrite !length_app; cbn [length]; fold ll ld; lia).
  set (known := ((["mkfs.btrfs"] ++ opt_args "--label" label)
                 ++ opt_args "--data" data_level)
                ++ opt_args "--metadata" md_level) in *.
  assert (length known = (1 + ll + ld + lm)%nat) as Hknown
    by (unfold known; rewrite !length_app; cbn [length]; fold ll ld lm; lia).
  rewrite (copy_devices_copies n 256 devices 0 known 0)
    by (fold n; lia).
  rewrite drop_0, take_ge by (unfold n; lia).
  replace (Z.of_nat n + Z.of_nat ll + Z.of_nat ld + Z.of_nat lm + 1)
    with (Z.of_nat (length (known ++ devices)))
    by (rewrite length_app; fold n; lia).
  rewrite array_store_next.
  unfold bd_utils_exec_and_report_error, g_spawn_sync, bind, ret, emit.
  rewrite strv_of_array_terminated.
  replace (known ++ devices)
    with ("mkfs.btrfs"
          :: (opt_args "--label" label ++ opt_args "--data" data_level
              ++ opt_args "--metadata" md_level) ++ devices)
    by (unfold known; cbn [app]; now rewrite <- !app_assoc).
  reflexivity.
Qed.

Lemma create_volume_vector_witness :
  bd_btrfs_create_volume all_present (Some ["/dev/a"; "/dev/b"]) (Some "L")
    None (Some "raid1") None st0
  = (Returns (report_outcome
                (spawn all_present
                   ("mkfs.btrfs" :: mkfs_options (Some "L") None (Some "raid1")
                    ++ ["/dev/a"; "/dev/b"])) None),
     mkState None
       ([] ++ [EvExec ("mkfs.btrfs"
                       :: mkfs_options (Some "L") None (Some "raid1")
                       ++ ["/dev/a"; "/dev/b"])])).
Proof.
  apply (create_volume_vector all_present ["/dev/a"; "/dev/b"] (Some "L")
           None (Some "raid1") None st0).
  - discriminate.
  - repeat constructor.
  - cbn. lia.
Defined.

(** ** Creating a Btrfs volume: the 8-bit counters *)

Lemma add_if_set_wrap (flag : string) (value : option string) (x : Z) :
  add_if_set value (guint8_wrap x)
  = guint8_wrap (x + Z.of_nat (length (opt_args flag value))).
Proof.
  destruct value; cbn [add_if_set opt_args length].
  - unfold guint8_wrap. rewrite Z.add_mod_idemp_l by lia. reflexivity.
  - f_equal. cbn. lia.
Qed.

(** [num_args] after the first loop and the three optional additions. *)
Lemma num_args_wrap (W : World) (devices : list string)
    (label data_level md_level : option string) :
  Forall (fun d => access_ok W d = true) devices ->
  match check_devices W devices 0 with
  | inl _ => False
  | inr n =>
      add_if_set md_level (add_if_set data_level (add_if_set label n))
      = Z.of_nat ((length devices
                   + length (mkfs_options label data_level md_level))
                  mod 256)
  end.
Proof.
  intros Hall.
  change (check_devices W devices 0)
    with (check_devices W devices (guint8_wrap 0)).
  rewrite check_devices_present by assumption.
  rewrite (add_if_set_wrap "--label"), (add_if_set_wrap "--data"),
    (add_if_set_wrap "--metadata").
  unfold guint8_wrap, mkfs_options.
  rewrite !length_app, Nat2Z.inj_mod, !Nat2Z.inj_add. f_equal. lia.
Qed.

(** The run of [bd_btrfs_create_volume] when the wrapped count [k] still
    covers the optional arguments and is not 255. *)
Lemma create_volume_argv (W : World) (devices : list string)
    (label data_level md_level : option string) (error : option GError)
    (st : State) (k : nat) :
  devices <> [] ->
  Forall (fun d => access_ok W d = true) devices ->
  k = ((length devices + length (mkfs_options label data_level md_level))
       mod 256)%nat ->
  (length (mkfs_options label data_level md_level) <= k <= 254)%nat ->
  let argv := "mkfs.btrfs" :: mkfs_options label data_level md_level
              ++ take (k - length (mkfs_options label data_level md_level))
                   devices in
  bd_btrfs_create_volume W (Some devices) label data_level md_level error st
  = (Returns (report_outcome (spawn W argv) error),
     mkState (global_config_str st) (trace st ++ [EvExec argv])).
Proof.
  intros Hne Hall Hk Hfit. cbn zeta.
  pose proof (num_args_wrap W devices label data_level md_level Hall) as Hnum.
  rewrite <- Hk in Hnum.
  unfold bd_btrfs_create_volume.
  assert (g_strv_length devices <? 1 = false) as ->.
  { apply Z.ltb_ge. unfold g_strv_length. destruct devices; [congruence|].
    cbn [length]. lia. }
  destruct (check_devices W devices 0) as [|n0]; [contradiction|].
  rewrite Hnum. clear Hnum n0.
  assert (k - length (mkfs_options label data_level md_level)
          <= length devices)%nat as Hm.
  { pose proof (Nat.Div0.mod_le
                  (length devices
                   + length (mkfs_options label data_level md_level)) 256).
    lia. }
  clear Hk.
  unfold mkfs_options in *. rewrite !length_app in *.
  pose proof (opt_args_length "--label" label) as Hl.
  pose proof (opt_args_length "--data" data_level) as Hd.
  pose proof (opt_args_length "--metadata" md_level) as Hmd.
  set (ll := length (opt_args "--label" label)) in *.
  set (ld := length (opt_args "--data" data_level)) in *.
  set (lm := length (opt_args "--metadata" md_level)) in *.
  set (m := (k - (ll + (ld + lm)))%nat) in *.
  replace (Z.to_nat (Z.of_nat k + 2))
    with (S (ll + (ld + (lm + (m + 1)))))%nat by lia.
  change (array_store (replicate (S (ll + (ld + (lm + (m + 1))))) None) 0
            (Some "mkfs.btrfs"))
    with (array_store
            (map Some [] ++ replicate (S (ll + (ld + (lm + (m + 1))))) None)
            (Z.of_nat (length (@nil string))) (Some "mkfs.btrfs")).
  rewrite array_store_next_some. cbn [app].
  change (Some (1, map Some ["mkfs.btrfs"]
                   ++ replicate (ll + (ld + (lm + (m + 1)))) None))
    with (Some (Z.of_nat (length ["mkfs.btrfs"]),
                map Some ["mkfs.btrfs"]
                ++ replicate (ll + (ld + (lm + (m + 1)))) None)).
  unfold ll at 1. rewrite store_option_opt_args by (cbn; lia).
  unfold ld at 1. rewrite store_option_opt_args
    by (rewrite length_app; cbn [length]; fold ll; lia).
  unfold lm at 1. rewrite store_option_opt_args
    by (rewrite !length_app; cbn [length]; fold ll ld; lia).
  set (known := ((["mkfs.btrfs"] ++ opt_args "--label" label)
                 ++ opt_args "--data" data_level)
                ++ opt_args "--metadata" md_level) in *.
  assert (length known = (1 + ll + ld + lm)%nat) as Hknown
    by (unfold known; rewrite !length_app; cbn [length]; fold ll ld lm; lia).
  rewrite (copy_devices_copies m 256 devices 0 known 0) by lia.
  rewrite drop_0.
  replace (Z.of_nat k + 1)
    with (Z.of_nat (length (known ++ take m devices)))
    by (rewrite length_app, length_take; lia).
  rewrite array_store_next.
  unfold bd_utils_exec_and_report_error, g_spawn_sync, bind, ret, emit.
  rewrite strv_of_array_terminated.
  replace (known ++ take m devices)
    with ("mkfs.btrfs"
          :: (opt_args "--label" label ++ opt_args "--data" data_level
              ++ opt_args "--metadata" md_level) ++ take m devices)
    by (unfold known; cbn [app]; now rewrite <- !app_assoc).
  reflexivity.
Qed.

(** X16.  The count of arguments is kept in 8 bits.  With 256 arguments or
    more, and as long as the wrapped count still covers the optional
    arguments and is not 255, [bd_btrfs_create_volume] succeeds in running
    [mkfs.btrfs] on a strict prefix of the devices only: the devices beyond
    the wrapped count are dropped without an error. *)
Theorem create_volume_drops_devices (W : World) (devices : list string)
    (label data_level md_level : option string) (error : option GError)
    (st : State) :
  Forall (fun d => access_ok W d = true) devices ->
  let opts := mkfs_options label data_level md_level in
  let k := ((length devices + length opts) mod 256)%nat in
  (256 <= length devices + length opts)%nat ->
  (length opts <= k <= 254)%nat ->
  let passed := take (k - length opts) devices in
  let argv := "mkfs.btrfs" :: opts ++ passed in
  bd_btrfs_create_volume W (Some devices) label data_level md_level error st
  = (Returns (report_outcome (spawn W argv) error),
     mkState (global_config_str st) (trace st ++ [EvExec argv]))
  /\ (length passed + 256 <= length devices)%nat.
Proof.
  intros Hall opts k Hbig Hfit passed argv. split.
  - apply (create_volume_argv W devices label data_level md_level error st k);
      try assumption; try reflexivity.
    intros ->. cbn [length] in Hbig.
    pose proof (opt_args_length "--label" label).
    pose proof (opt_args_length "--data" data_level).
    pose proof (opt_args_length "--metadata" md_level).
    unfold opts, mkfs_options in Hbig. rewrite !length_app in Hbig. lia.
  - unfold passed. rewrite length_take.
    pose proof (Nat.div_mod_eq (length devices + length opts) 256) as Hdiv.
    fold k in Hdiv.
    destruct ((length devices + length opts) / 256)%nat as [|q]; lia.
Qed.

Lemma create_volume_drops_devices_witness :
  bd_btrfs_create_volume all_present (Some (replicate 259 "/dev/sda"))
    (Some "L") None None None st0
  = (Returns (report_outcome
                (spawn all_present
                   ["mkfs.btrfs"; "--label"; "L"; "/dev/sda"; "/dev/sda";
                    "/dev/sda"]) None),
     mkState None
       [EvExec ["mkfs.btrfs"; "--label"; "L"; "/dev/sda"; "/dev/sda";
                "/dev/sda"]]).
Proof.
  refine (proj1 (create_volume_drops_devices all_present
                   (replicate 259 "/dev/sda") (Some "L") None None None st0
                   _ _ _)).
  - apply Forall_replicate. reflexivity.
  - vm_compute. lia.
  - vm_compute. lia.
Defined.

Lemma store_option_range (flag : string) (value : option string)
    (s : option (Z * list (option string))) :
  next_in_range s -> next_in_range (store_option flag value s).
Proof.
  destruct s as [[next_arg argv]|], value as [v|]; cbn [store_option];
    try easy.
  intros _. destruct (array_store argv next_arg (Some flag)); [|easy].
  destruct (array_store _ (guint8_wrap (next_arg + 1)) (Some v)); [|easy].
  cbn [next_in_range]. unfold guint8_wrap.
  pose proof (Z.mod_pos_bound ((next_arg + 1) mod 256 + 1) 256). lia.
Qed.

(** With [num_args] at 255 the condition [next_arg <= num_args] of the
    second loop holds for every 8-bit [next_arg]: the loop stops only by
    leaving the arrays. *)
Lemma copy_devices_never_ends (rounds : nat) :
  forall (devices : list string) (j : nat) (next_arg : Z)
         (argv : list (option string)),
    0 <= next_arg <= 255 ->
    copy_devices rounds devices j next_arg 255 argv = None.
Proof.
  induction rounds as [|rounds IH]; intros devices j next_arg argv Hr;
    cbn [copy_devices];
    destruct (Z.leb_spec next_arg 255) as [_|]; try lia; [reflexivity|].
  destruct (device_slot devices j) as [d|]; [|reflexivity].
  destruct (array_store argv next_arg d) as [argv'|]; [|reflexivity].
  apply IH. unfold guint8_wrap.
  pose proof (Z.mod_pos_bound (next_arg + 1) 256). lia.
Qed.

(** X17.  When the wrapped count of arguments is 255, or is smaller than
    the number of optional arguments, [bd_btrfs_create_volume] leaves its
    arrays: it writes or reads outside of them before any command is run. *)
Theorem create_volume_overrun (W : World) (devices : list string)
    (label data_level md_level : option string) (error : option GError)
    (st : State) :
  devices <> [] ->
  Forall (fun d => access_ok W d = true) devices ->
  let opts := mkfs_options label data_level md_level in
  let k := ((length devices + length opts) mod 256)%nat in
  k = 255%nat \/ (k < length opts)%nat ->
  bd_btrfs_create_volume W (Some devices) label data_level md_level error st
  = (Undefined, st).
Proof.
  intros Hne Hall opts k Hk.
  pose proof (num_args_wrap W devices label data_level md_level Hall) as Hnum.
  fold opts k in Hnum.
  unfold bd_btrfs_create_volume.
  assert (g_strv_length devices <? 1 = false) as ->.
  { apply Z.ltb_ge. unfold g_strv_length. destruct devices; [congruence|].
    cbn [length]. lia. }
  destruct (check_devices W devices 0) as [|n0]; [contradiction|].
  rewrite Hnum. clear Hnum n0. clearbody k. destruct Hk as [->|Hk].
  - change (Z.of_nat 255) with 255.
    match goal with
    | |- context [store_option "--metadata" md_level ?s] =>
        assert (next_in_range (store_option "--metadata" md_level s)) as Hr;
        [|destruct (store_option "--metadata" md_level s)
            as [[next_arg argv1]|]; [|reflexivity]]
    end.
    { do 3 apply store_option_range. now vm_compute. }
    cbn [next_in_range] in Hr.
    now rewrite copy_devices_never_ends.
  - unfold opts, mkfs_options in Hk.
    destruct label, data_level, md_level; cbn in Hk;
      do 6 (try (destruct k as [|k]; [reflexivity|])); lia.
Qed.

Lemma create_volume_overrun_witness :
  bd_btrfs_create_volume all_present (Some (replicate 255 "/dev/sda")) None
    None None None st0
  = (Undefined, st0)
  /\ bd_btrfs_create_volume all_present (Some (replicate 255 "/dev/sda"))
       (Some "L") None None None st0
     = (Undefined, st0).
Proof.
  split.
  - apply (create_volume_overrun all_present (replicate 255 "/dev/sda")).
    + discriminate.
    + apply Forall_replicate. reflexivity.
    + left. reflexivity.
  - apply (create_volume_overrun all_present (replicate 255 "/dev/sda")).
    + discriminate.
    + apply Forall_replicate. reflexivity.
    + right. vm_compute. lia.
Defined.

(** ** Numbers written and read back *)

Lemma digit_value_pretty (d : N) :
  (d < 10)%N -> digit_value (pretty_N_char d) = Some (Z.of_N d).
Proof.
  intros Hd.
  assert (d = 0 \/ d = 1 \/ d = 2 \/ d = 3 \/ d = 4 \/ d = 5 \/ d = 6
          \/ d = 7 \/ d = 8 \/ d = 9)%N as Hcases by lia.
  repeat (destruct Hcases as [->|Hcases]; [reflexivity|]).
  now subst.
Qed.

(** The digit loop on the digits of [x] followed by [s]: it reads [x] and
    goes on with [s]. *)
Lemma parse_digits_pretty (x : N) :
  forall (s : string) (any : bool),
    Z.of_N x <= G_MAXUINT64 ->
    parse_digits 10 0 false any (pretty_N_go x s)
    = parse_digits 10 (Z.of_N x) false (any || (0 <? Z.of_N x)) s.
Proof.
  induction (N.lt_wf_0 x) as [x _ IH]. intros s any Hmax.
  destruct (N.eq_dec x 0%N) as [->|Hpos].
  - rewrite pretty_N_go_0. cbn. now rewrite orb_false_r.
  - rewrite pretty_N_go_step by lia.
    pose proof (N.div_mod x 10 ltac:(lia)) as Hdm.
    pose proof (N.mod_lt x 10 ltac:(lia)) as Hlt.
    unfold G_MAXUINT64 in *.
    change (2 ^ 64 - 1) with 18446744073709551615 in *.
    set (q := (x `div` 10)%N) in *. set (r := (x `mod` 10)%N) in *.
    rewrite IH by lia.
    cbn [parse_digits]. rewrite digit_value_pretty by assumption.
    destruct (Z.geb_spec (Z.of_N r) 10) as [|_]; [lia|].
    change (G_MAXUINT64 / 10) with 1844674407370955161.
    change (G_MAXUINT64 mod 10) with 5.
    destruct (Z.gtb_spec (Z.of_N q) 1844674407370955161); [lia|].
    destruct (Z.eqb_spec (Z.of_N q) 1844674407370955161);
      [destruct (Z.gtb_spec (Z.of_N r) 5); [lia|]|];
      cbn [orb andb]; f_equal; try lia;
      destruct any; cbn [orb]; try reflexivity;
      symmetry; apply Z.ltb_lt; lia.
Qed.

(** The first digit of a number that is not 0 is not [0]. *)
Lemma pretty_N_go_head (x : N) :
  forall s : string,
    (0 < x)%N ->
    exists (d : N) (rest : string),
      (0 < d < 10)%N /\ pretty_N_go x s = String (pretty_N_char d) rest.
Proof.
  induction (N.lt_wf_0 x) as [x _ IH]. intros s Hpos.
  rewrite pretty_N_go_step by assumption.
  destruct (N.eq_dec (x `div` 10)%N 0%N) as [Hz|Hnz].
  - rewrite Hz, pretty_N_go_0. exists (x `mod` 10)%N, s. split; [|reflexivity].
    pose proof (N.div_mod x 10 ltac:(lia)).
    pose proof (N.mod_lt x 10 ltac:(lia)). lia.
  - apply IH; [apply N.div_lt; lia|].
    destruct (x `div` 10)%N; [congruence | lia].
Qed.

(** A text that starts with a digit from 1 to 9 is read in base ten. *)
Lemma g_ascii_strtoull_decimal (d : N) (rest : string) :
  (0 < d < 10)%N ->
  g_ascii_strtoull (String (pretty_N_char d) rest)
  = let '(ui64, overflow, any) :=
      parse_digits 10 0 false false (String (pretty_N_char d) rest) in
    if negb any then 0 else if overflow then G_MAXUINT64 else ui64.
Proof.
  intros Hd.
  assert (d = 1 \/ d = 2 \/ d = 3 \/ d = 4 \/ d = 5 \/ d = 6
          \/ d = 7 \/ d = 8 \/ d = 9)%N as Hcases by lia.
  repeat (destruct Hcases as [->|Hcases]; [reflexivity|]).
  now subst.
Qed.

(** X18.  An unsigned 64-bit number written as
    [bd_btrfs_set_default_subvolume] writes it on the command line is read
    back unchanged by [g_ascii_strtoull] with base 0, the way the Btrfs
    queries read identifiers: the decimal form never starts with the [0]
    that would select base eight. *)
Theorem set_default_subvolume_id_reads_back (W : World) (mountpoint : string)
    (subvol_id : Z) (error : option GError) (st : State) :
  0 <= subvol_id <= G_MAXUINT64 ->
  exists text : string,
    trace (snd (bd_btrfs_set_default_subvolume W mountpoint subvol_id error
                  st))
    = trace st ++ [EvExec ["btrfs"; "subvol"; "set-default"; text;
                           mountpoint]]
    /\ g_ascii_strtoull text = subvol_id.
Proof.
  intros Hr. exists (guint64_format subvol_id). split; [reflexivity|].
  unfold guint64_format, pretty, pretty_N.
  destruct (decide (Z.to_N subvol_id = 0%N)) as [Hz|Hnz].
  - assert (subvol_id = 0) as -> by lia. reflexivity.
  - destruct (pretty_N_go_head (Z.to_N subvol_id) "" ltac:(lia))
      as (d & rest & Hd & Hhead).
    pose proof (parse_digits_pretty (Z.to_N subvol_id) "" false) as Hparse.
    rewrite Z2N.id in Hparse by lia. specialize (Hparse ltac:(lia)).
    rewrite Hhead in *.
    rewrite g_ascii_strtoull_decimal, Hparse by assumption.
    cbn [parse_digits orb].
    destruct (Z.ltb_spec 0 subvol_id) as [_|]; [reflexivity | lia].
Qed.

Lemma set_default_subvolume_id_reads_back_witness :
  exists text : string,
    trace (snd (bd_btrfs_set_default_subvolume all_present "/mnt" 256 None
                  st0))
    = trace st0 ++ [EvExec ["btrfs"; "subvol"; "set-default"; text; "/mnt"]]
    /\ g_ascii_strtoull text = 256.
Proof.
  apply (set_default_subvolume_id_reads_back all_present "/mnt" 256 None st0).
  vm_compute. split; congruence.
Defined.

(** ** The LVM commands that take a list of PVs *)

Lemma pv_list_length_passed (pv_list : option (list string)) :
  pv_list_length pv_list = Z.of_nat (length (passed_pvs pv_list))
  /\ (length (passed_pvs pv_list) < 256)%nat.
Proof.
  destruct pv_list as [l|]; cbn [pv_list_length passed_pvs];
    [|split; [reflexivity | cbn; lia]].
  pose proof (Nat.mod_upper_bound (length l) 256 ltac:(lia)) as Hlt.
  pose proof (Nat.Div0.mod_le (length l) 256) as Hle.
  rewrite length_take, Nat.min_l by assumption.
  split; [|assumption].
  unfold pv_list_length, guint8_wrap, g_strv_length.
  now rewrite Nat2Z.inj_mod.
Qed.

Lemma copy_pv_list_copies (first : Z) (len : Z) (m : nat) :
  forall (rounds : nat) (l : list string) (j : nat) (known : list string)
         (r : nat),
    (m <= rounds)%nat -> (j + m <= length l)%nat ->
    Z.of_nat (length known) - first = Z.of_nat j ->
    len + first = Z.of_nat (length known + m) -> len + first <= 255 ->
    copy_pv_list rounds (Some l) first (Z.of_nat (length known)) len
      (map Some known ++ replicate (m + S r) None)
    = Some (len + first,
            map Some (known ++ take m (drop j l)) ++ replicate (S r) None).
Proof.
  induction m as [|m IH]; intros rounds l j known r Hrounds Hl Hj Hlen Hmax.
  - assert (Z.of_nat (length known) <? len + first = false) as Hc
      by (apply Z.ltb_ge; lia).
    cbn [take Nat.add]. rewrite app_nil_r.
    destruct rounds; cbn [copy_pv_list]; rewrite Hc; do 2 f_equal; lia.
  - destruct rounds as [|rounds]; [lia|].
    assert (Z.of_nat (length known) <? len + first = true) as Hc
      by (apply Z.ltb_lt; lia).
    cbn [copy_pv_list]. rewrite Hc, Hj.
    destruct (l !! j) as [d|] eqn:Hd; [|apply lookup_ge_None in Hd; lia].
    unfold pv_slot, device_slot.
    destruct (Z.ltb_spec (Z.of_nat j) 0) as [|_]; [lia|].
    rewrite Nat2Z.id, Hd.
    cbn [Nat.add]. rewrite array_store_next_some.
    assert (guint8_wrap (Z.of_nat (length known) + 1)
            = Z.of_nat (length (known ++ [d]))) as ->.
    { unfold guint8_wrap. rewrite Z.mod_small by lia.
      rewrite length_app. cbn. lia. }
    rewrite (IH rounds l (S j) (known ++ [d]) r);
      try (rewrite ?length_app; cbn [length]; lia).
    rewrite (drop_S l d j Hd). cbn [take].
    now rewrite <- app_assoc.
Qed.

(** Past index 255 the counter of the loop is 0 again, and the loop reads
    in front of the vector. *)
Lemma copy_pv_list_wraps (first len : Z) (m : nat) :
  forall (rounds : nat) (l : list string) (i : Z)
         (argv : list (option string)),
    1 <= first <= i -> i = 255 - Z.of_nat m -> (m + 2 <= rounds)%nat ->
    256 <= len + first -> 255 - first < Z.of_nat (length l) ->
    (256 <= length argv)%nat ->
    copy_pv_list rounds (Some l) first i len argv = None.
Proof.
  induction m as [|m IH]; intros rounds l i argv Hi Him Hrounds Hlen Hl Hargv;
    (destruct rounds as [|rounds]; [lia|]);
    cbn [copy_pv_list];
    (destruct (Z.ltb_spec i (len + first)) as [_|]; [|lia]);
    unfold pv_slot at 1, device_slot;
    (destruct (Z.ltb_spec (i - first) 0) as [|_]; [lia|]);
    (destruct (l !! Z.to_nat (i - first)) as [d|] eqn:Hd;
       [|apply lookup_ge_None in Hd; lia]);
    replace i with (Z.of_nat (Z.to_nat i)) at 1 by lia;
    rewrite array_store_lt by lia.
  - replace (guint8_wrap (i + 1)) with 0 by (subst i; reflexivity).
    destruct rounds as [|rounds]; [lia|]. cbn [copy_pv_list].
    destruct (Z.ltb_spec 0 (len + first)) as [_|]; [|lia].
    unfold pv_slot. now destruct (Z.ltb_spec (0 - first) 0) as [_|]; [|lia].
  - apply IH; try lia.
    + unfold guint8_wrap. rewrite Z.mod_small; lia.
    + unfold guint8_wrap. rewrite Z.mod_small; lia.
    + now rewrite length_insert.
Qed.

(** The end that [bd_lvm_vgcreate] and [bd_lvm_lvcreate] share: the copy,
    the terminator and the call, when the counter stays below 256. *)
Lemma call_with_pv_list (W : World) (fixed : list string)
    (pv_list : option (list string)) (error : option GError) (st : State) :
  (length fixed + length (passed_pvs pv_list) <= 255)%nat ->
  let first := Z.of_nat (length fixed) in
  let argv := "lvm" :: fixed ++ passed_pvs pv_list ++ config_args st in
  match
    copy_pv_list 256 pv_list first first (pv_list_length pv_list)
      (map Some fixed
       ++ replicate (Z.to_nat (pv_list_length pv_list + 1)) None)
  with
  | Some (i, argv1) =>
      match array_store argv1 i None with
      | Some argv2 =>
          r <- call_lvm_and_report_error W argv2 error ;; ret (Returns r)
      | None => ret Undefined
      end
  | None => ret Undefined
  end st
  = (Returns (report_outcome (spawn W argv) error),
     mkState (global_config_str st)
       (trace st ++ [EvLock; EvRead (global_config_str st); EvExec argv;
                     EvUnlock])).
Proof.
  intros Hfit first argv.
  destruct (pv_list_length_passed pv_list) as [Hlen Hlt]. rewrite Hlen.
  set (k := length (passed_pvs pv_list)) in *.
  replace (Z.to_nat (Z.of_nat k + 1)) with (k + 1)%nat by lia.
  assert (copy_pv_list 256 pv_list first first (Z.of_nat k)
            (map Some fixed ++ replicate (k + 1) None)
          = Some (Z.of_nat k + first,
                  map Some (fixed ++ passed_pvs pv_list)
                  ++ replicate 1 None)) as ->.
  { destruct pv_list as [l|].
    - cbn [passed_pvs] in *.
      pose proof (Nat.Div0.mod_le (length l) 256) as Hle.
      set (kk := (length l mod 256)%nat) in *.
      assert (k = kk) as Hk by (unfold k; rewrite length_take; lia).
      clearbody k. subst k.
      pose proof (copy_pv_list_copies first (Z.of_nat kk) kk 256 l 0 fixed 0)
        as Hcopy.
      rewrite drop_0 in Hcopy. apply Hcopy; unfold first; lia.
    - cbn [passed_pvs length] in *. subst k. rewrite app_nil_r.
      cbn [copy_pv_list Nat.add]. unfold first.
      now destruct (Z.ltb_spec (Z.of_nat (length fixed))
                      (Z.of_nat 0 + Z.of_nat (length fixed))) as [|_];
        [lia|]. }
  replace (Z.of_nat k + first)
    with (Z.of_nat (length (fixed ++ passed_pvs pv_list)))
    by (rewrite length_app; fold k; unfold first; lia).
  rewrite array_store_next.
  unfold bind, ret. rewrite call_lvm_and_report_error_run, lvm_vector_eq.
  rewrite strv_of_array_terminated, <- app_assoc. reflexivity.
Qed.

(** X19.  [bd_lvm_vgcreate] keeps the number of PVs in 8 bits.  As long as
    that number modulo 256 is at most 251, it runs [lvm vgcreate -s] with
    the resolved extent size in bytes, the name, the first PVs up to that
    number, and the global configuration when it is set; it holds the lock
    for the run.  The PVs beyond the count are dropped without an error. *)
Theorem vgcreate_vector (BD_LVM_DEFAULT_PE_SIZE : Z) (W : World)
    (name : string) (pv_list : option (list string)) (pe_size : Z)
    (error : option GError) (st : State) :
  (length (passed_pvs pv_list) <= 251)%nat ->
  let argv :=
    ["lvm"; "vgcreate"; "-s";
     guint64_format (RESOLVE_PE_SIZE BD_LVM_DEFAULT_PE_SIZE pe_size)
     +:+ "b"; name] ++ passed_pvs pv_list ++ config_args st in
  bd_lvm_vgcreate BD_LVM_DEFAULT_PE_SIZE W name pv_list pe_size error st
  = (Returns (report_outcome (spawn W argv) error),
     mkState (global_config_str st)
       (trace st ++ [EvLock; EvRead (global_config_str st); EvExec argv;
                     EvUnlock])).
Proof.
  intros Hfit.
  apply (call_with_pv_list W
           ["vgcreate"; "-s";
            guint64_format (RESOLVE_PE_SIZE BD_LVM_DEFAULT_PE_SIZE pe_size)
            +:+ "b"; name] pv_list error st).
  cbn [length]. lia.
Qed.

Lemma vgcreate_vector_witness :
  bd_lvm_vgcreate 4194304 all_present "vg0"
    (Some (replicate 258 "/dev/sda")) 0 None (mkState (Some "c") [])
  = (Returns (report_outcome
                (spawn all_present
                   ["lvm"; "vgcreate"; "-s"; "4194304b"; "vg0"; "/dev/sda";
                    "/dev/sda"; "--config=c"]) None),
     mkState (Some "c")
       [EvLock; EvRead (Some "c");
        EvExec ["lvm"; "vgcreate"; "-s"; "4194304b"; "vg0"; "/dev/sda";
                "/dev/sda"; "--config=c"];
        EvUnlock]).
Proof.
  apply (vgcreate_vector 4194304 all_present "vg0"
           (Some (replicate 258 "/dev/sda")) 0 None (mkState (Some "c") [])).
  vm_compute. lia.
Defined.

(** X20.  When the number of PVs modulo 256 is 252 or more, the loop of
    [bd_lvm_vgcreate] counts past 255, starts again at 0 and reads in
    front of the list of PVs: the behaviour is undefined, and no command
    is run before that. *)
Theorem vgcreate_overrun (BD_LVM_DEFAULT_PE_SIZE : Z) (W : World)
    (name : string) (pv_list : list string) (pe_size : Z)
    (error : option GError) (st : State) :
  (252 <= length pv_list mod 256)%nat ->
  bd_lvm_vgcreate BD_LVM_DEFAULT_PE_SIZE W name (Some pv_list) pe_size error
    st
  = (Undefined, st).
Proof.
  intros Hk. unfold bd_lvm_vgcreate.
  destruct (pv_list_length_passed (Some pv_list)) as [Hlen Hlt].
  cbn [passed_pvs] in *. rewrite length_take in *.
  pose proof (Nat.Div0.mod_le (length pv_list) 256) as Hle.
  rewrite Hlen.
  rewrite (copy_pv_list_wraps 4 _ 251); try lia; [reflexivity|].
  rewrite length_app, length_replicate. cbn [length]. lia.
Qed.

Lemma vgcreate_overrun_witness :
  bd_lvm_vgcreate 4194304 all_present "vg0"
    (Some (replicate 252 "/dev/sda")) 0 None st0
  = (Undefined, st0).
Proof.
  apply (vgcreate_overrun 4194304 all_present "vg0"
           (replicate 252 "/dev/sda") 0 None st0).
  vm_compute. lia.
Defined.

(** X21.  [bd_lvm_lvcreate] asks for the size in whole KiB, the bytes
    above the last KiB being dropped, and keeps the number of PVs in 8
    bits.  As long as that number modulo 256 is at most 248, it runs
    [lvm lvcreate -n] with the name, [-L] with the size, [-y], the VG, the
    first PVs up to that number, and the global configuration when it is
    set. *)
Theorem lvcreate_vector (W : World) (vg_name lv_name : string) (size : Z)
    (pv_list : option (list string)) (error : option GError) (st : State) :
  (length (passed_pvs pv_list) <= 248)%nat ->
  let argv :=
    ["lvm"; "lvcreate"; "-n"; lv_name; "-L";
     guint64_format (size / 1024) +:+ "K"; "-y"; vg_name]
    ++ passed_pvs pv_list ++ config_args st in
  bd_lvm_lvcreate W vg_name lv_name size pv_list error st
  = (Returns (report_outcome (spawn W argv) error),
     mkState (global_config_str st)
       (trace st ++ [EvLock; EvRead (global_config_str st); EvExec argv;
                     EvUnlock])).
Proof.
  intros Hfit.
  apply (call_with_pv_list W
           ["lvcreate"; "-n"; lv_name; "-L";
            guint64_format (size / 1024) +:+ "K"; "-y"; vg_name]
           pv_list error st).
  cbn [length]. lia.
Qed.

Lemma lvcreate_vector_witness :
  bd_lvm_lvcreate all_present "vg0" "lv0" 2047 None None st0
  = (Returns (report_outcome
                (spawn all_present
                   ["lvm"; "lvcreate"; "-n"; "lv0"; "-L"; "1K"; "-y"; "vg0"])
                None),
     mkState None
       [EvLock; EvRead None;
        EvExec ["lvm"; "lvcreate"; "-n"; "lv0"; "-L"; "1K"; "-y"; "vg0"];
        EvUnlock]).
Proof.
  apply (lvcreate_vector all_present "vg0" "lv0" 2047 None None st0).
  vm_compute. lia.
Defined.

(** X22.  When the number of PVs modulo 256 is 249 or more, the loop of
    [bd_lvm_lvcreate] counts past 255, starts again at 0 and reads in
    front of the list of PVs: the behaviour is undefined, and no command
    is run before that. *)
Theorem lvcreate_overrun (W : World) (vg_name lv_name : string) (size : Z)
    (pv_list : list string) (error : option GError) (st : State) :
  (249 <= length pv_list mod 256)%nat ->
  bd_lvm_lvcreate W vg_name lv_name size (Some pv_list) error st
  = (Undefined, st).
Proof.
  intros Hk. unfold bd_lvm_lvcreate.
  destruct (pv_list_length_passed (Some pv_list)) as [Hlen Hlt].
  cbn [passed_pvs] in *. rewrite length_take in *.
  pose proof (Nat.Div0.mod_le (length pv_list) 256) as Hle.
  rewrite Hlen.
  rewrite (copy_pv_list_wraps 7 _ 248); try lia; [reflexivity|].
  rewrite length_app, length_replicate. cbn [length]. lia.
Qed.

Lemma lvcreate_overrun_witness :
  bd_lvm_lvcreate all_present "vg0" "lv0" 4096
    (Some (replicate 249 "/dev/sda")) None st0
  = (Undefined, st0).
Proof.
  apply (lvcreate_overrun all_present "vg0" "lv0" 4096
           (replicate 249 "/dev/sda") None st0).
  vm_compute. lia.
Defined.

(** ** The Btrfs list queries *)

Lemma match_lines_spec {A : Type} (P : Parsers) (regex : GRegex)
    (get_info : GMatchInfo -> A) (lines : list string) (infos : list A) :
  match_lines P regex get_info lines infos
  = infos ++ matched_infos P regex get_info lines.
Proof.
  revert infos. induction lines as [|line lines IH]; intros infos.
  - cbn. now rewrite app_nil_r.
  - cbn [match_lines]. unfold matched_infos. cbn [omap list_omap].
    destruct (g_regex_match P regex line) as [match_info|]; cbn [fmap option_fmap option_map];
      rewrite IH; [|reflexivity].
    now rewrite <- app_assoc.
Qed.

Lemma ptrv_of_array_terminated {A : Type} (l : list A)
    (rest : list (option A)) :
  ptrv_of_array (map Some l ++ None :: rest) = l.
Proof. induction l as [|x l IH]; cbn; [reflexivity | now f_equal]. Qed.

(** With at most 255 records the copy ends with all of them in place. *)
Lemma copy_infos_copies {A : Type} (infos : list A) (m : nat) :
  forall (rounds i : nat),
    (length infos <= 255)%nat -> (i + m = length infos)%nat ->
    (m <= rounds)%nat ->
    copy_infos rounds infos (Z.of_nat i)
      (map Some (take i infos) ++ replicate (m + 1) None)
    = Some (Z.of_nat (length infos), map Some infos ++ [None]).
Proof.
  induction m as [|m IH]; intros rounds i Hmax Him Hrounds.
  - assert (Z.of_nat i <? Z.of_nat (length infos) = false) as Hc
      by (apply Z.ltb_ge; lia).
    rewrite take_ge by lia.
    destruct rounds; cbn [copy_infos]; rewrite Hc; do 2 f_equal; lia.
  - destruct rounds as [|rounds]; [lia|].
    assert (Z.of_nat i <? Z.of_nat (length infos) = true) as Hc
      by (apply Z.ltb_lt; lia).
    cbn [copy_infos]. rewrite Hc, Nat2Z.id.
    destruct (infos !! i) as [x|] eqn:Hx; [|apply lookup_ge_None in Hx; lia].
    assert (length (map Some (take i infos)) = i) as Hlen
      by (rewrite length_map, length_take; lia).
    rewrite insert_app_r_alt by lia.
    rewrite Hlen, Nat.sub_diag. cbn [Nat.add replicate].
    change (<[0%nat := Some x]> (None :: replicate (m + 1) None))
      with ([Some x] ++ replicate (m + 1) (@None A)).
    rewrite app_assoc.
    change [Some x] with (map Some [x]). rewrite <- map_app.
    rewrite <- (take_S_r infos i x Hx).
    replace (guint8_wrap (Z.of_nat i + 1)) with (Z.of_nat (S i))
      by (unfold guint8_wrap; rewrite Z.mod_small; lia).
    apply IH; lia.
Qed.

(** With 256 records or more the 8-bit counter is below the length for
    ever. *)
Lemma copy_infos_never_ends {A : Type} (infos : list A) (rounds : nat) :
  forall (i : Z) (ret_array : list (option A)),
    (256 <= length infos)%nat -> 0 <= i <= 255 ->
    copy_infos rounds infos i ret_array = None.
Proof.
  induction rounds as [|rounds IH]; intros i ret_array Hlen Hi;
    cbn [copy_infos];
    destruct (Z.ltb_spec i (Z.of_nat (length infos))) as [_|]; try lia;
    [reflexivity|].
  apply IH; [assumption|]. unfold guint8_wrap.
  pose proof (Z.mod_pos_bound (i + 1) 256). lia.
Qed.

Lemma return_infos_all {A : Type} (infos : list A) (rounds : nat) :
  (length infos <= 255)%nat -> (length infos <= rounds)%nat ->
  return_infos rounds infos = Some infos.
Proof.
  intros Hmax Hrounds. unfold return_infos.
  pose proof (copy_infos_copies infos (length infos) rounds 0 Hmax
                ltac:(lia) Hrounds) as Hcopy.
  change (copy_infos rounds infos 0 (replicate (length infos + 1) None))
    with (copy_infos rounds infos (Z.of_nat 0)
            (map Some (take 0 infos) ++ replicate (length infos + 1) None)).
  rewrite Hcopy.
  rewrite Nat2Z.id.
  rewrite insert_app_r_alt by (rewrite length_map; lia).
  rewrite length_map, Nat.sub_diag. cbn [insert list_insert].
  now rewrite ptrv_of_array_terminated.
Qed.

Lemma return_infos_never {A : Type} (infos : list A) (rounds : nat) :
  (256 <= length infos)%nat -> return_infos rounds infos = None.
Proof.
  intros Hlen. unfold return_infos.
  now rewrite copy_infos_never_ends by lia.
Qed.

Lemma btrfs_list_result_length {A : Type} (infos : list A) (what : string) :
  (if Z.of_nat (length infos) =? 0
   then (None, Some (mkGError BD_BTRFS_ERROR BD_BTRFS_ERROR_PARSE what))
   else (Some infos, None))
  = btrfs_list_result infos what.
Proof. now destruct infos. Qed.

Lemma subvolumes_vector_eq (mountpoint : string) (snapshots_only : bool) :
  strv_of_array
    (if snapshots_only
     then [Some "btrfs"; Some "subvol"; Some "list"; Some "-p"; Some "-s";
           Some mountpoint; None]
     else [Some "btrfs"; Some "subvol"; Some "list"; Some "-p";
           Some mountpoint; None; None])
  = subvolumes_vector mountpoint snapshots_only.
Proof. now destruct snapshots_only. Qed.

Ltac btrfs_list_run Hne Hrun :=
  unfold bd_utils_exec_and_capture_output, g_spawn_sync, emit;
  unfold bind, ret; cbv beta iota zeta;
  rewrite ?subvolumes_vector_eq; cbn [strv_of_array];
  rewrite Hrun, capture_outcome_success by assumption;
  cbv beta iota zeta; cbn [negb default fst snd]; unfold id;
  rewrite g_strsplit_lines, match_lines_spec by assumption;
  cbn [app].

(** X23.  When [btrfs filesystem show] succeeds with the output [out] and
    at most 255 of its lines match the pattern, [bd_btrfs_list_devices]
    returns the records of the matching lines in the order of the lines;
    when no line matches it returns [NULL] with [BD_BTRFS_ERROR_PARSE],
    never an empty array. *)
Theorem list_devices_records (P : Parsers) (W : World) (st : State)
    (out err device : string) (rounds : nat) :
  out <> EmptyString ->
  spawn W ["btrfs"; "filesystem"; "show"; device] = ProcExited 0 out err ->
  let infos := matched_infos P devices_regex (get_device_info_from_match P)
                 (spec_lines out) in
  (length infos <= 255)%nat -> (length infos <= rounds)%nat ->
  fst (bd_btrfs_list_devices rounds P W device None st)
  = Some (btrfs_list_result infos
            "Failed to parse information about devices").
Proof.
  intros Hne Hrun infos Hmax Hrounds. unfold bd_btrfs_list_devices.
  btrfs_list_run Hne Hrun. fold infos.
  rewrite <- btrfs_list_result_length.
  destruct (Z.of_nat (length infos) =? 0); [reflexivity|].
  now rewrite return_infos_all.
Qed.

Lemma list_devices_records_witness :
  fst (bd_btrfs_list_devices 2 (prefix_parsers "devid ")
         (printing ("Label: none" +:+ newline +:+ "devid 1" +:+ newline
                    +:+ "devid 2")) "/dev/sda" None st0)
  = Some (Some [DeviceInfo.mk 1 "1" 1 1; DeviceInfo.mk 2 "2" 2 2], None).
Proof.
  apply (list_devices_records (prefix_parsers "devid ")
           (printing ("Label: none" +:+ newline +:+ "devid 1" +:+ newline
                      +:+ "devid 2")) st0
           ("Label: none" +:+ newline +:+ "devid 1" +:+ newline +:+ "devid 2")
           EmptyString "/dev/sda" 2).
  - discriminate.
  - reflexivity.
  - vm_compute. lia.
  - vm_compute. lia.
Defined.

(** X24.  [bd_btrfs_list_subvolumes] runs [btrfs subvol list -p] on the
    mount point, with [-s] before it when only snapshots are asked for.
    When the command succeeds with the output [out] and at most 255 of its
    lines match the pattern, the call returns the records of the matching
    lines in the order of the lines; when no line matches it returns
    [NULL] with [BD_BTRFS_ERROR_PARSE]. *)
Theorem list_subvolumes_records (P : Parsers) (W : World) (st : State)
    (out err mountpoint : string) (snapshots_only : bool) (rounds : nat) :
  out <> EmptyString ->
  spawn W (subvolumes_vector mountpoint snapshots_only)
  = ProcExited 0 out err ->
  let infos := matched_infos P subvolumes_regex get_subvolume_info_from_match
                 (spec_lines out) in
  (length infos <= 255)%nat -> (length infos <= rounds)%nat ->
  bd_btrfs_list_subvolumes rounds P W mountpoint snapshots_only None st
  = (Some (btrfs_list_result infos
             "Failed to parse information about subvolumes"),
     mkState (global_config_str st)
       (trace st ++ [EvExec (subvolumes_vector mountpoint snapshots_only)])).
Proof.
  intros Hne Hrun infos Hmax Hrounds. unfold bd_btrfs_list_subvolumes.
  btrfs_list_run Hne Hrun. fold infos.
  rewrite <- btrfs_list_result_length.
  destruct (Z.of_nat (length infos) =? 0); [reflexivity|].
  now rewrite return_infos_all.
Qed.

Lemma list_subvolumes_records_witness :
  bd_btrfs_list_subvolumes 1 (prefix_parsers "ID ")
    (printing ("ID 257" +:+ newline)) "/mnt" true None st0
  = (Some (Some [SubvolumeInfo.mk 257 257 "257"], None),
     mkState None [EvExec ["btrfs"; "subvol"; "list"; "-p"; "-s"; "/mnt"]]).
Proof.
  apply (list_subvolumes_records (prefix_parsers "ID ")
           (printing ("ID 257" +:+ newline)) st0 ("ID 257" +:+ newline)
           EmptyString "/mnt" true 1).
  - discriminate.
  - reflexivity.
  - vm_compute. lia.
  - vm_compute. lia.
Defined.

(** X25.  The two list queries of the Btrfs plugin count the records they
    copy in 8 bits.  When 256 lines or more of the output match, the
    counter never reaches the number of records: the copy loop does not end
    in any number of rounds, and the call does not return. *)
Theorem btrfs_lists_never_return (P : Parsers) (W : World) (st : State)
    (out err name : string) (snapshots_only : bool) (rounds : nat) :
  out <> EmptyString ->
  (spawn W ["btrfs"; "filesystem"; "show"; name] = ProcExited 0 out err ->
   (256 <= length (matched_infos P devices_regex
                     (get_device_info_from_match P) (spec_lines out)))%nat ->
   fst (bd_btrfs_list_devices rounds P W name None st) = None)
  /\ (spawn W (subvolumes_vector name snapshots_only) = ProcExited 0 out err ->
      (256 <= length (matched_infos P subvolumes_regex
                        get_subvolume_info_from_match (spec_lines out)))%nat ->
      fst (bd_btrfs_list_subvolumes rounds P W name snapshots_only None st)
      = None).
Proof.
  intros Hne. split; intros Hrun Hlen.
  - unfold bd_btrfs_list_devices. btrfs_list_run Hne Hrun.
    destruct (Z.eqb_spec (Z.of_nat (length
                (matched_infos P devices_regex (get_device_info_from_match P)
                   (spec_lines out)))) 0) as [|_]; [lia|].
    now rewrite return_infos_never.
  - unfold bd_btrfs_list_subvolumes. btrfs_list_run Hne Hrun.
    destruct (Z.eqb_spec (Z.of_nat (length
                (matched_infos P subvolumes_regex
                   get_subvolume_info_from_match (spec_lines out)))) 0)
      as [|_]; [lia|].
    now rewrite return_infos_never.
Qed.

Lemma btrfs_lists_never_return_witness :
  fst (bd_btrfs_list_devices 1000 (prefix_parsers "devid ")
         (printing many_devices_output) "/dev/sda" None st0) = None.
Proof.
  assert (many_devices_output <> EmptyString) as Hne by discriminate.
  destruct (btrfs_lists_never_return (prefix_parsers "devid ")
              (printing many_devices_output) st0 many_devices_output
              EmptyString "/dev/sda" false 1000 Hne) as [Hdev _].
  apply Hdev; [reflexivity|]. vm_compute. lia.
Defined.

(** ** The Btrfs queries that read one match *)

Ltac btrfs_query_run :=
  unfold bd_utils_exec_and_capture_output, g_spawn_sync, emit;
  unfold bind, ret; cbv beta iota zeta; cbn [strv_of_array fst snd].

(** X26.  [bd_btrfs_filesystem_info] can return [NULL] and leave the error
    location empty: it does so exactly when the command succeeds with an
    output that the pattern does not match.  Every other [NULL] comes with
    an error. *)
Theorem filesystem_info_null_without_error (P : Parsers) (W : World)
    (device : string) (st : State) :
  fst (bd_btrfs_filesystem_info P W device None st) = (None, None)
  <-> exists out err : string,
        spawn W ["btrfs"; "filesystem"; "show"; device] = ProcExited 0 out err
        /\ out <> EmptyString
        /\ g_regex_match P filesystem_regex out = None.
Proof.
  unfold bd_btrfs_filesystem_info. btrfs_query_run.
  destruct (spawn W ["btrfs"; "filesystem"; "show"; device])
    as [status out err|reason] eqn:Hrun; cbn [capture_outcome].
  - destruct (Z.eqb_spec status 0) as [->|Hstatus]; cbn [negb].
    + destruct (decide (out = EmptyString)) as [->|Hne].
      * rewrite bool_decide_eq_true_2 by reflexivity. cbn.
        split; [discriminate|]. intros (out' & err' & [= <- _] & Hne & _).
        congruence.
      * rewrite bool_decide_eq_false_2 by assumption. cbn [negb default].
        unfold id.
        destruct (g_regex_match P filesystem_regex out) as [m|] eqn:Hm;
          cbn [fst].
        -- split; [discriminate|].
           intros (out' & err' & [= <- _] & _ & Hm'). congruence.
        -- split; [|reflexivity]. intros _. now exists out, err.
    + cbn. split; [discriminate|].
      intros (out' & err' & [= Hs _ _] & _). congruence.
  - cbn. split; [discriminate|]. intros (out' & err' & [=] & _).
Qed.

(** X27.  [bd_btrfs_get_default_subvolume_id] leaves the error location
    empty exactly when the command succeeds with an output that the
    pattern matches, and the value is then the first group read as a
    number; whenever it sets the error, it returns 0. *)
Theorem default_subvolume_id_error (P : Parsers) (W : World)
    (mountpoint : string) (st : State) :
  let r := fst (bd_btrfs_get_default_subvolume_id P W mountpoint None st) in
  (snd r = None
   <-> exists (out err : string) (match_info : GMatchInfo),
         spawn W ["btrfs"; "subvol"; "get-default"; mountpoint]
         = ProcExited 0 out err
         /\ out <> EmptyString
         /\ g_regex_match P default_subvolume_regex out = Some match_info
         /\ fst r = g_ascii_strtoull (g_match_info_fetch match_info 1))
  /\ (snd r <> None -> fst r = 0).
Proof.
  unfold bd_btrfs_get_default_subvolume_id. btrfs_query_run.
  destruct (spawn W ["btrfs"; "subvol"; "get-default"; mountpoint])
    as [status out err|reason] eqn:Hrun; cbn [capture_outcome].
  - destruct (Z.eqb_spec status 0) as [->|Hstatus]; cbn [negb].
    + destruct (decide (out = EmptyString)) as [->|Hne].
      * rewrite bool_decide_eq_true_2 by reflexivity. cbn.
        split; [|reflexivity]. split; [discriminate|].
        intros (out' & err' & m & [= <- _] & Hne & _). congruence.
      * rewrite bool_decide_eq_false_2 by assumption. cbn [negb default].
        unfold id.
        destruct (g_regex_match P default_subvolume_regex out) as [m|]
          eqn:Hm; cbn [fst snd].
        -- split; [|congruence]. split; [|reflexivity].
           intros _. now exists out, err, m.
        -- cbn. split; [|reflexivity]. split; [discriminate|].
           intros (out' & err' & m & [= <- _] & _ & Hm' & _). congruence.
    + cbn. split; [|reflexivity]. split; [discriminate|].
      intros (out' & err' & m & [= Hs _ _] & _). congruence.
  - cbn. split; [|reflexivity]. split; [discriminate|].
    intros (out' & err' & m & [=] & _).
Qed.

(** ** Names read from a report *)

Lemma g_strchug_pad (l s : string) :
  string_forallb g_ascii_isspace l = true ->
  g_strchug (l +:+ s) = g_strchug s.
Proof.
  induction l as [|c l IH]; [reflexivity|].
  cbn [string_forallb]. intros [Hc Hl]%andb_true_iff.
  rewrite append_cons. cbn [g_strchug]. rewrite Hc. now apply IH.
Qed.

Lemma g_strchug_all (r : string) :
  string_forallb g_ascii_isspace r = true -> g_strchug r = EmptyString.
Proof.
  intros Hr. rewrite <- (append_nil_r r). now rewrite g_strchug_pad.
Qed.

Lemma g_strchomp_pad (r : string) :
  string_forallb g_ascii_isspace r = true -> g_strchomp r = EmptyString.
Proof.
  induction r as [|c r IH]; [reflexivity|].
  cbn [string_forallb]. intros [Hc Hr]%andb_true_iff.
  cbn [g_strchomp]. now rewrite IH, Hc.
Qed.

Lemma g_strchomp_name (name r : string) :
  string_forallb (fun c => negb (g_ascii_isspace c)) name = true ->
  string_forallb g_ascii_isspace r = true ->
  g_strchomp (name +:+ r) = name.
Proof.
  intros Hname Hr. induction name as [|c name IH].
  - rewrite append_nil_l. now apply g_strchomp_pad.
  - cbn [string_forallb] in Hname.
    apply andb_true_iff in Hname as [Hc Hname].
    rewrite append_cons. cbn [g_strchomp]. rewrite IH by assumption.
    destruct name; [|reflexivity].
    now destruct (g_ascii_isspace c).
Qed.

Lemma g_strstrip_padded (l name r : string) :
  string_forallb g_ascii_isspace l = true ->
  string_forallb (fun c => negb (g_ascii_isspace c)) name = true ->
  string_forallb g_ascii_isspace r = true ->
  g_strstrip (l +:+ name +:+ r) = name.
Proof.
  intros Hl Hname Hr. unfold g_strstrip.
  rewrite g_strchug_pad by assumption.
  destruct name as [|c name].
  - rewrite append_nil_l, g_strchug_all by assumption. reflexivity.
  - pose proof Hname as Hname'. cbn [string_forallb] in Hname'.
    apply andb_true_iff in Hname' as [Hc _].
    rewrite append_cons. cbn [g_strchug].
    destruct (g_ascii_isspace c); [discriminate|].
    rewrite <- append_cons. now apply g_strchomp_name.
Qed.

Ltac stripped_name Hne Hrun :=
  unfold bind, ret; rewrite call_lvm_and_capture_output_run, Hrun;
  rewrite capture_outcome_success by assumption;
  cbn [negb fst snd default]; unfold id;
  now rewrite g_strstrip_padded.

(** X28.  When [lvs] succeeds and prints a name without white space, with
    any white space before and after it, [bd_lvm_lvorigin] and
    [bd_lvm_thlvpoolname] return the name alone; for an output of white
    space only they return the empty string, not [NULL].  White space is
    what [g_ascii_isspace] accepts: space, tab, newline, form feed and
    carriage return; a vertical tab is part of the name. *)
Theorem lv_names_are_stripped (W : World) (st : State)
    (vg_name lv_name l name r err : string) :
  string_forallb g_ascii_isspace l = true ->
  string_forallb (fun c => negb (g_ascii_isspace c)) name = true ->
  string_forallb g_ascii_isspace r = true ->
  l +:+ name +:+ r <> EmptyString ->
  (spawn W (lvm_vector st [Some "lvs"; Some "--noheadings"; Some "-o";
                           Some "origin";
                           Some (vg_name +:+ "/" +:+ lv_name); None])
   = ProcExited 0 (l +:+ name +:+ r) err ->
   fst (bd_lvm_lvorigin W vg_name lv_name None st) = (Some name, None))
  /\ (spawn W (lvm_vector st [Some "lvs"; Some "--noheadings"; Some "-o";
                              Some "pool_lv";
                              Some (vg_name +:+ "/" +:+ lv_name); None])
      = ProcExited 0 (l +:+ name +:+ r) err ->
      fst (bd_lvm_thlvpoolname W vg_name lv_name None st)
      = (Some name, None)).
Proof.
  intros Hl Hname Hr Hne. split; intros Hrun.
  - unfold bd_lvm_lvorigin. stripped_name Hne Hrun.
  - unfold bd_lvm_thlvpoolname. stripped_name Hne Hrun.
Qed.

Lemma lv_names_are_stripped_witness :
  fst (bd_lvm_lvorigin (printing ("  lv0" +:+ newline)) "vg0" "snap0" None
         st0)
  = (Some "lv0", None)
  /\ fst (bd_lvm_thlvpoolname (printing ("  " +:+ newline)) "vg0" "lv0" None
            st0)
     = (Some EmptyString, None)
  /\ fst (bd_lvm_lvorigin
            (printing (String "011" "lv0" +:+ String "011" newline)) "vg0"
            "snap0" None st0)
     = (Some (String "011" "lv0" +:+ String "011" EmptyString), None).
Proof.
  split; [|split].
  - apply (lv_names_are_stripped (printing ("  lv0" +:+ newline)) st0 "vg0"
             "snap0" "  " "lv0" newline EmptyString); try reflexivity.
    discriminate.
  - apply (lv_names_are_stripped (printing ("  " +:+ newline)) st0 "vg0"
             "lv0" "  " EmptyString newline EmptyString); try reflexivity.
    discriminate.
  - apply (lv_names_are_stripped
             (printing (String "011" "lv0" +:+ String "011" newline)) st0
             "vg0" "snap0" EmptyString
             (String "011" "lv0" +:+ String "011" EmptyString) newline
             EmptyString); try reflexivity.
    discriminate.
Defined.
